(** * Position lifecycle, signal filtering, sizing and circuit breaker

    A shallow embedding of the trading core of the repository:
    - [CircuitBreaker]: [checkCircuitBreaker] and [recordApiResult] of
      [src/services/api.ts];
    - [Sizer]: [VolatilityAdjustedPositionSizer.calculatePositionSize] of
      [src/services/trading/volatility/positionSizer.ts];
    - [Aggregator]: [SignalAggregator.filterAndRankSignals] of
      [src/services/trading/signalEvaluator.ts];
    - [Bot]: [TradingBot] ([evaluateSignal], [updatePosition],
      [exitPosition], [stop]).

    JavaScript numbers are modelled by [JsNum.num]: exact rationals together
    with the IEEE special values [+Infinity], [-Infinity] and [NaN], so that
    a division by zero behaves as it does in the source.  Rounding and the
    sign of zero are not modelled.  Integer counters and millisecond clock
    readings are [nat] and [Z].

    A method of the bot is modelled as one uninterrupted run: the answers of
    the outside (prices, swaps, metrics, one clock reading per call) are
    arguments, and calls of different methods do not interleave. *)

From Stdlib Require Import QArith Qabs ZArith Lia Bool List Ascii String.
From Stdlib Require Import Permutation Sorted Setoid Morphisms.
From Stdlib Require Import Qminmax Qpower Lqa.
From stdpp Require Import base option gmap strings.
Import ListNotations.

Local Open Scope Z_scope.

(** ** JavaScript numbers *)

Module JsNum.

Inductive num : Type :=
| Fin (q : Q)
| PInf
| NInf
| NaN.

(** The infinity (or [NaN]) with the sign of a comparison against zero. *)
Definition inf_of (c : comparison) : num :=
  match c with Gt => PInf | Lt => NInf | Eq => NaN end.

Definition neg (a : num) : num :=
  match a with
  | Fin q => Fin (- q)
  | PInf => NInf
  | NInf => PInf
  | NaN => NaN
  end.

Definition add (a b : num) : num :=
  match a, b with
  | NaN, _ | _, NaN => NaN
  | Fin x, Fin y => Fin (x + y)
  | PInf, NInf | NInf, PInf => NaN
  | PInf, _ | _, PInf => PInf
  | NInf, _ | _, NInf => NInf
  end.

Definition sub (a b : num) : num := add a (neg b).

Definition mul (a b : num) : num :=
  match a, b with
  | NaN, _ | _, NaN => NaN
  | Fin x, Fin y => Fin (x * y)
  | Fin x, PInf | PInf, Fin x => inf_of (x ?= 0)%Q
  | Fin x, NInf | NInf, Fin x => inf_of (CompOpp (x ?= 0)%Q)
  | PInf, PInf | NInf, NInf => PInf
  | PInf, NInf | NInf, PInf => NInf
  end.

Definition div (a b : num) : num :=
  match a, b with
  | NaN, _ | _, NaN => NaN
  | Fin x, Fin y =>
      if Qeq_bool y 0 then inf_of (x ?= 0)%Q else Fin (x / y)
  | Fin _, PInf | Fin _, NInf => Fin 0
  | PInf, Fin y => match (y ?= 0)%Q with Lt => NInf | _ => PInf end
  | NInf, Fin y => match (y ?= 0)%Q with Lt => PInf | _ => NInf end
  | _, _ => NaN
  end.

(** Comparisons: every comparison with [NaN] is false. *)
Definition lt (a b : num) : bool :=
  match a, b with
  | Fin x, Fin y => match (x ?= y)%Q with Lt => true | _ => false end
  | Fin _, PInf | NInf, Fin _ | NInf, PInf => true
  | _, _ => false
  end.

Definition eqb (a b : num) : bool :=
  match a, b with
  | Fin x, Fin y => Qeq_bool x y
  | PInf, PInf | NInf, NInf => true
  | _, _ => false
  end.

Definition le (a b : num) : bool := lt a b || eqb a b.
Definition gt (a b : num) : bool := lt b a.
Definition ge (a b : num) : bool := le b a.

(** [Math.min], [Math.max] and [Math.abs]. *)
Definition min (a b : num) : num :=
  match a, b with
  | NaN, _ | _, NaN => NaN
  | _, _ => if lt b a then b else a
  end.

Definition max (a b : num) : num :=
  match a, b with
  | NaN, _ | _, NaN => NaN
  | _, _ => if lt a b then b else a
  end.

Definition abs (a : num) : num :=
  match a with
  | Fin q => Fin (Qabs q)
  | PInf | NInf => PInf
  | NaN => NaN
  end.

(** [x || d] on numbers: [0] and [NaN] are falsy. *)
Definition or_default (a d : num) : num :=
  match a with
  | NaN => d
  | Fin q => if Qeq_bool q 0 then d else a
  | _ => a
  end.

(** Numeric identity of two values: the same special value, or two
    fractions denoting the same rational. *)
Definition same (a b : num) : Prop :=
  match a, b with
  | Fin x, Fin y => (x == y)%Q
  | PInf, PInf | NInf, NInf | NaN, NaN => True
  | _, _ => False
  end.

Definition of_Z (z : Z) : num := Fin (inject_Z z).

End JsNum.

Import JsNum.

Declare Scope num_scope.
Delimit Scope num_scope with num.
Bind Scope num_scope with num.
Infix "+" := add : num_scope.
Infix "-" := sub : num_scope.
Infix "*" := mul : num_scope.
Infix "/" := div : num_scope.
Infix "<?" := lt : num_scope.
Infix "<=?" := le : num_scope.
Infix ">?" := gt : num_scope.
Infix ">=?" := ge : num_scope.
Notation "a ~= b" := (same a b) (at level 70, no associativity) : num_scope.

(** A decimal literal [n / d] of the source. *)
Definition lit (n : Z) (d : positive) : num := Fin (n # d).

(** ** Circuit breaker ([src/services/api.ts]) *)

Module CircuitBreaker.

(** [CIRCUIT_BREAKER] *)
Definition failureThreshold : nat := 3.
Definition resetTimeout : Z := 300000.
Definition halfOpenMaxAttempts : nat := 2.

Inductive State : Type := closed | open | half_open.

Record Circuit : Type := mkCircuit {
  failures : nat;
  lastFailure : Z;
  state : State;
  attempts : nat
}.

Inductive Source : Type := binance | coinbase | coingecko.

(** [circuitStates]: one circuit per upstream source. *)
Record CircuitStates : Type := mkCircuitStates {
  cs_binance : Circuit;
  cs_coinbase : Circuit;
  cs_coingecko : Circuit
}.

Definition initialCircuit : Circuit :=
  {| failures := 0; lastFailure := 0; state := closed; attempts := 0 |}.

Definition circuitStates0 : CircuitStates :=
  {| cs_binance := initialCircuit;
     cs_coinbase := initialCircuit;
     cs_coingecko := initialCircuit |}.

Definition circuitOf (source : Source) (cs : CircuitStates) : Circuit :=
  match source with
  | binance => cs_binance cs
  | coinbase => cs_coinbase cs
  | coingecko => cs_coingecko cs
  end.

Definition setCircuit (source : Source) (c : Circuit) (cs : CircuitStates)
  : CircuitStates :=
  match source with
  | binance => {| cs_binance := c; cs_coinbase := cs_coinbase cs;
                  cs_coingecko := cs_coingecko cs |}
  | coinbase => {| cs_binance := cs_binance cs; cs_coinbase := c;
                   cs_coingecko := cs_coingecko cs |}
  | coingecko => {| cs_binance := cs_binance cs;
                    cs_coinbase := cs_coinbase cs; cs_coingecko := c |}
  end.

Definition isOpen (s : State) : bool :=
  match s with open => true | _ => false end.
Definition isHalfOpen (s : State) : bool :=
  match s with half_open => true | _ => false end.

(** The body of [checkCircuitBreaker] on the circuit of one source; [now]
    is the reading of [Date.now()]. *)
Definition checkCircuit (now : Z) (circuit : Circuit) : bool * Circuit :=
  let afterOpen : option Circuit :=
    if isOpen (state circuit) then
      if now - lastFailure circuit >=? resetTimeout then
        Some {| failures := failures circuit;
                lastFailure := lastFailure circuit;
                state := half_open;
                attempts := 0 |}
      else None
    else Some circuit in
  match afterOpen with
  | None => (false, circuit)
  | Some c1 =>
      if isHalfOpen (state c1) && (halfOpenMaxAttempts <=? attempts c1)%nat
      then (false, {| failures := failures c1;
                      lastFailure := lastFailure c1;
                      state := open;
                      attempts := attempts c1 |})
      else (true, c1)
  end.

(** The body of [recordApiResult] on the circuit of one source. *)
Definition recordResult (success : bool) (now : Z) (circuit : Circuit)
  : Circuit :=
  if success then
    {| failures := 0;
       lastFailure := lastFailure circuit;
       state := if isHalfOpen (state circuit) then closed else state circuit;
       attempts := 0 |}
  else
    let failures' := S (failures circuit) in
    let attempts' :=
      if isHalfOpen (state circuit) then S (attempts circuit)
      else attempts circuit in
    {| failures := failures';
       lastFailure := now;
       state := if (failureThreshold <=? failures')%nat then open
                else state circuit;
       attempts := attempts' |}.

Definition checkCircuitBreaker (source : Source) (now : Z)
  (cs : CircuitStates) : bool * CircuitStates :=
  let '(ok, c) := checkCircuit now (circuitOf source cs) in
  (ok, setCircuit source c cs).

Definition recordApiResult (source : Source) (success : bool) (now : Z)
  (cs : CircuitStates) : CircuitStates :=
  setCircuit source (recordResult success now (circuitOf source cs)) cs.

(** What a guarded request produced: its result, the upstream calls it
    issued and the circuits afterwards. *)
Record FetchRun (A : Type) : Type := mkFetchRun {
  fr_result : option A;
  fr_upstream : list string;
  fr_circuits : CircuitStates
}.
Arguments mkFetchRun {A}.
Arguments fr_result {A}.
Arguments fr_upstream {A}.
Arguments fr_circuits {A}.

(** The guard at the head of [fetchBinanceHistory]: the rest of the body
    (rate limit, cache lookup, the attempts and their
    [recordApiResult] calls) is [rest], reached only when the breaker lets
    the request through. *)
Definition fetchBinanceHistory {A : Type} (now : Z)
  (rest : CircuitStates -> FetchRun A) (cs : CircuitStates) : FetchRun A :=
  let '(ok, cs1) := checkCircuitBreaker binance now cs in
  if negb ok then mkFetchRun None [] cs1 else rest cs1.

(** Events on one source, for runs of the breaker. *)
Inductive Event : Type :=
| Check (now : Z)
| Record (success : bool) (now : Z).

Definition step (source : Source) (cs : CircuitStates) (e : Event)
  : CircuitStates :=
  match e with
  | Check now => snd (checkCircuitBreaker source now cs)
  | Record success now => recordApiResult source success now cs
  end.

Definition run (source : Source) (evs : list Event) (cs : CircuitStates)
  : CircuitStates :=
  fold_left (step source) evs cs.

(** Sample circuits, all reached from [circuitStates0]. *)
Definition csOpen : CircuitStates :=
  run binance [Record false 0; Record false 1; Record false 2] circuitStates0.

Definition csHalfOpen : CircuitStates :=
  run binance [Check 300002] csOpen.

(** Two requests pass the closed breaker together; one fails and opens it,
    the other succeeds afterwards, clearing [failures] while the state stays
    open.  After the cooldown two attempts fail in half-open. *)
Definition csExhausted : CircuitStates :=
  run binance
    [Record false 0; Record false 1; Record false 2; Record true 3;
     Check 300002; Record false 300003; Record false 300004]
    circuitStates0.

(** The states a run of checks and recorded results reaches from the
    initial circuits. *)
Definition reachable (source : Source) (cs : CircuitStates) : Prop :=
  exists evs, cs = run source evs circuitStates0.

(** A run in which a result is recorded only for a request the breaker let
    through, as [fetchBinanceHistory] does when its requests do not
    overlap: no [Record] arrives while the circuit is open. *)
Fixpoint sequential (source : Source) (evs : list Event) (cs : CircuitStates)
  : bool :=
  match evs with
  | [] => true
  | e :: rest =>
      match e with
      | Check _ => true
      | Record _ _ => negb (isOpen (state (circuitOf source cs)))
      end && sequential source rest (step source cs e)
  end.

(** What holds of a closed circuit. *)
Definition closedInv (c : Circuit) : Prop :=
  state c = closed -> (failures c < failureThreshold)%nat /\ attempts c = 0%nat.

(** What holds of the circuits of a sequential run. *)
Definition sequentialInv (c : Circuit) : Prop :=
  match state c with
  | closed => (failures c < failureThreshold)%nat /\ attempts c = 0%nat
  | half_open => (failureThreshold <= failures c)%nat /\ attempts c = 0%nat
  | open => (failureThreshold <= failures c)%nat /\ (attempts c <= 1)%nat
  end.

End CircuitBreaker.

(** ** Backoff and rate limiter ([src/services/api.ts]) *)

Module Backoff.

(** [BACKOFF_CONFIG].  Delays are finite here, so plain rationals do. *)
Definition initialDelay : Q := 1000%Q.
Definition maxDelay : Q := 32000%Q.
Definition factor : Q := 2%Q.
Definition jitter : Q := (1 # 10)%Q.

(** The delay of [exponentialBackoff] before jitter. *)
Definition baseDelay (attempt : nat) : Q :=
  Qmin (initialDelay * factor ^ Z.of_nat attempt)%Q maxDelay.

(** The delay it sleeps for; [random] is the value of [Math.random()].
    The arithmetic is exact here.  The doubles of the source round the
    products and the sum; the delay, a tenth of it and the two bounds of
    the facts below (95% and 105% of the delay) are doubles themselves, so
    that rounding can move the sum onto a bound but not past it. *)
Definition finalDelay (attempt : nat) (random : Q) : Q :=
  let delay := baseDelay attempt in
  let jitter := (delay * jitter * (random - (1 # 2)))%Q in
  (delay + jitter)%Q.

End Backoff.

Module RateLimiter.
Import CircuitBreaker.

(** An entry of [RATE_LIMITS]. *)
Record Limit : Type := mkLimit {
  lim_requests : nat;
  window : Z
}.

Definition RATE_LIMITS (source : Source) : Limit :=
  match source with
  | coingecko => {| lim_requests := 30; window := 60000 |}
  | binance => {| lim_requests := 20; window := 60000 |}
  | coinbase => {| lim_requests := 10; window := 60000 |}
  end.

(** An entry of [rateLimiters]. *)
Record Limiter : Type := mkLimiter {
  requests : list Z;
  nextReset : Z
}.

Inductive Decision : Type :=
| Wait (waitTime : Z)
| Proceed.

(** One pass through the body of [checkRateLimit] at clock reading [now]:
    either the request is entered, or the caller is to sleep and call
    again. *)
Definition checkRateLimitOnce (limit : Limit) (now : Z) (limiter : Limiter)
  : Decision * Limiter :=
  let limiter :=
    if now >=? nextReset limiter
    then {| requests := []; nextReset := now + window limit |}
    else limiter in
  let kept :=
    List.filter (fun time => now - time <? window limit) (requests limiter) in
  let enter :=
    (Proceed, {| requests := kept ++ [now]; nextReset := nextReset limiter |})
  in
  if (lim_requests limit <=? length kept)%nat then
    match kept with
    | oldestRequest :: _ =>
        let waitTime := window limit - (now - oldestRequest) in
        if waitTime >? 0
        then (Wait waitTime,
              {| requests := kept; nextReset := nextReset limiter |})
        else enter
    | [] => enter
    end
  else enter.

(** [checkRateLimit]: [wake now waitTime] is the clock reading when the
    timer set at [now] for [waitTime] has fired; [fuel] bounds the number
    of sleeps.  The result is the time of entry and the limiter. *)
Fixpoint checkRateLimit (wake : Z -> Z -> Z) (limit : Limit) (fuel : nat)
  (now : Z) (limiter : Limiter) : option (Z * Limiter) :=
  match checkRateLimitOnce limit now limiter with
  | (Proceed, limiter') => Some (now, limiter')
  | (Wait waitTime, limiter') =>
      match fuel with
      | O => None
      | S fuel' =>
          checkRateLimit wake limit fuel' (wake now waitTime) limiter'
      end
  end.

(** A limiter of binance at capacity: twenty requests, one a second from
    1000 on. *)
Definition fullLimiter : Limiter :=
  {| requests := map (fun i => 1000 * Z.of_nat i) (seq 1 20);
     nextReset := 61000 |}.

End RateLimiter.

(** ** Position sizer ([volatility/positionSizer.ts]) *)

Module Sizer.

Inductive Regime : Type := low | medium | high | extreme.

(** [ForecastResult] *)
Record ForecastResult : Type := mkForecast {
  regime : Regime;
  predictedVolatility : num;
  currentVolatility : num;
  atrRatio : num
}.

Record ConfidenceMultipliers : Type := mkMultipliers {
  cm_low : num;
  cm_medium : num;
  cm_high : num
}.

(** [PositionSizeConfig] *)
Record PositionSizeConfig : Type := mkSizeConfig {
  baseSize : num;
  maxSize : num;
  accountSize : num;
  riskPerTrade : num;
  confidenceMultipliers : ConfidenceMultipliers
}.

(** The argument of [calculatePositionSize]. *)
Record Params : Type := mkParams {
  volatilityForecast : ForecastResult;
  confidence : num;
  price : num;
  strategy : string
}.

(** The numeric part of the result; the [reasoning] strings, which are
    formatted from the same numbers, are left out. *)
Record SizeResult : Type := mkSizeResult {
  size : num;
  adjustedRisk : num
}.

Definition VOLATILITY_ADJUSTMENTS (r : Regime) : num :=
  match r with
  | low => lit 12 10
  | medium => lit 1 1
  | high => lit 7 10
  | extreme => lit 5 10
  end.

(** [String.prototype.toLowerCase] on ASCII letters. *)
Definition lowerAscii (c : ascii) : ascii :=
  let n := nat_of_ascii c in
  if ((65 <=? n) && (n <=? 90))%nat then ascii_of_nat (n + 32) else c.

Fixpoint toLowerCase (s : string) : string :=
  match s with
  | EmptyString => EmptyString
  | String c rest => String (lowerAscii c) (toLowerCase rest)
  end.

Definition getConfidenceMultiplier (config : PositionSizeConfig)
  (confidence : num) : num :=
  if (confidence >=? lit 8 10)%num then cm_high (confidenceMultipliers config)
  else if (confidence >=? lit 6 10)%num
       then cm_medium (confidenceMultipliers config)
       else cm_low (confidenceMultipliers config).

Definition applyStrategyAdjustments (size : num) (strategy : string) : num :=
  let s := toLowerCase strategy in
  if String.eqb s "trend" then (size * lit 12 10)%num
  else if String.eqb s "momentum" then (size * lit 11 10)%num
  else if String.eqb s "mean_reversion" then (size * lit 9 10)%num
  else if String.eqb s "arbitrage" then (size * lit 15 10)%num
  else size.

Definition calculatePositionSize (config : PositionSizeConfig)
  (params : Params) : SizeResult :=
  let forecast := volatilityForecast params in
  (* Start with base position size *)
  let size := baseSize config in
  (* Adjust for volatility regime *)
  let volMultiplier := VOLATILITY_ADJUSTMENTS (regime forecast) in
  let size := (size * volMultiplier)%num in
  (* Adjust for confidence *)
  let confidenceMultiplier :=
    getConfidenceMultiplier config (confidence params) in
  let size := (size * confidenceMultiplier)%num in
  (* Adjust for predicted volatility change *)
  let size :=
    if (predictedVolatility forecast >? currentVolatility forecast)%num then
      let volReduction :=
        (lit 1 1 - (predictedVolatility forecast - currentVolatility forecast))%num in
      (size * JsNum.max (lit 5 10) volReduction)%num
    else size in
  (* Strategy-specific adjustments *)
  let size := applyStrategyAdjustments size (strategy params) in
  (* Risk-based position sizing *)
  let riskAmount := (accountSize config * (riskPerTrade config / lit 100 1))%num in
  let maxPositionFromRisk :=
    (riskAmount / (currentVolatility forecast / lit 100 1))%num in
  let size := JsNum.min size maxPositionFromRisk in
  (* Apply maximum size limit *)
  let size := JsNum.min size (maxSize config) in
  (* Calculate adjusted risk percentage *)
  let adjustedRisk := ((size / accountSize config) * lit 100 1)%num in
  {| size := size; adjustedRisk := adjustedRisk |}.

(** Two argument records, and two configurations, that hold the same
    values. *)
Definition sameForecast (f1 f2 : ForecastResult) : Prop :=
  regime f1 = regime f2
  /\ (predictedVolatility f1 ~= predictedVolatility f2)%num
  /\ (currentVolatility f1 ~= currentVolatility f2)%num
  /\ (atrRatio f1 ~= atrRatio f2)%num.

Definition sameParams (p1 p2 : Params) : Prop :=
  sameForecast (volatilityForecast p1) (volatilityForecast p2)
  /\ (confidence p1 ~= confidence p2)%num
  /\ (price p1 ~= price p2)%num
  /\ strategy p1 = strategy p2.

Definition sameConfig (c1 c2 : PositionSizeConfig) : Prop :=
  (baseSize c1 ~= baseSize c2)%num
  /\ (maxSize c1 ~= maxSize c2)%num
  /\ (accountSize c1 ~= accountSize c2)%num
  /\ (riskPerTrade c1 ~= riskPerTrade c2)%num
  /\ (cm_low (confidenceMultipliers c1) ~= cm_low (confidenceMultipliers c2))%num
  /\ (cm_medium (confidenceMultipliers c1)
      ~= cm_medium (confidenceMultipliers c2))%num
  /\ (cm_high (confidenceMultipliers c1)
      ~= cm_high (confidenceMultipliers c2))%num.

Definition sameResult (r1 r2 : SizeResult) : Prop :=
  (size r1 ~= size r2)%num /\ (adjustedRisk r1 ~= adjustedRisk r2)%num.

(** The scenario of the specification: confidence 0.85, regime high,
    account value 10000. *)
Definition exampleConfig : PositionSizeConfig :=
  {| baseSize := lit 20 1; maxSize := lit 50 1; accountSize := lit 10000 1;
     riskPerTrade := lit 2 1;
     confidenceMultipliers :=
       {| cm_low := lit 4 10; cm_medium := lit 6 10; cm_high := lit 1 1 |} |}.

Definition exampleParams : Params :=
  {| volatilityForecast :=
       {| regime := high; predictedVolatility := lit 5 1;
          currentVolatility := lit 4 1; atrRatio := lit 1 1 |};
     confidence := lit 85 100; price := lit 100 1; strategy := "Trend" |}.

(** The same values, written with other fractions. *)
Definition exampleParams' : Params :=
  {| volatilityForecast :=
       {| regime := high; predictedVolatility := lit 10 2;
          currentVolatility := lit 8 2; atrRatio := lit 3 3 |};
     confidence := lit 17 20; price := lit 200 2; strategy := "Trend" |}.

End Sizer.

(** ** Signal aggregator ([signalEvaluator.ts]) *)

Module Aggregator.

(** [TradeSignal] ([types/crypto.ts]); [timestamp] in milliseconds. *)
Record TradeSignal : Type := mkSignal {
  symbol : string;
  side : string;
  price : num;
  confidence : num;
  strategy : string;
  reason : string;
  timestamp : Z;
  momentum : option num
}.

(** [{ ...signal, confidence: c }] *)
Definition withConfidence (signal : TradeSignal) (c : num) : TradeSignal :=
  {| symbol := symbol signal; side := side signal; price := price signal;
     confidence := c; strategy := strategy signal; reason := reason signal;
     timestamp := timestamp signal; momentum := momentum signal |}.

(** An entry of the stored [positions] object. *)
Record StoredPosition : Type := mkStored {
  sp_symbol : string;
  sp_status : string
}.

Definition MAX_SIGNALS_PER_STRATEGY : nat := 3.

(** A [Map<string, TradeSignal[]>], in insertion order. *)
Definition SignalGroups : Type := list (string * list TradeSignal).

(** [grouped.has(k)], then either [grouped.set(k, [])] or nothing, then
    [grouped.get(k).push(signal)]. *)
Fixpoint pushSignal (k : string) (signal : TradeSignal) (g : SignalGroups)
  : SignalGroups :=
  match g with
  | [] => [(k, [signal])]
  | (k', group) :: rest =>
      if String.eqb k' k then (k', group ++ [signal]) :: rest
      else (k', group) :: pushSignal k signal rest
  end.

Definition groupSignalsByStrategy (signals : list TradeSignal)
  : SignalGroups :=
  fold_left (fun g signal => pushSignal (strategy signal) signal g)
            signals [].

(** [Array.prototype.sort] with a comparator: a stable sort.  [x], which
    stood before the elements of [l], moves behind [y] only when the
    comparator is positive on [(x, y)]; a [NaN] result counts as zero. *)
Fixpoint insertBy {A : Type} (cmp : A -> A -> num) (x : A) (l : list A)
  : list A :=
  match l with
  | [] => [x]
  | y :: rest =>
      if (cmp x y >? lit 0 1)%num then y :: insertBy cmp x rest
      else x :: y :: rest
  end.

Definition sortBy {A : Type} (cmp : A -> A -> num) (l : list A) : list A :=
  fold_right (insertBy cmp) [] l.

(** [signal.confidence >= 0.10 ? signal.confidence : 0.10] *)
Definition clampConfidence (signal : TradeSignal) : TradeSignal :=
  withConfidence signal
    (if (confidence signal >=? lit 10 100)%num then confidence signal
     else lit 10 100).

(** The symbols of the stored positions whose status is open; [loaded] is
    what [storage.load('positions')] returned ([None] for [null]). *)
Definition openPositions (loaded : option (list StoredPosition))
  : gset string :=
  list_to_set
    (map sp_symbol
       (List.filter (fun p => String.eqb (sp_status p) "open")
               (default [] loaded))).

Definition hasOpen (open : gset string) (signal : TradeSignal) : bool :=
  bool_decide (symbol signal ∈ open).

Definition combinedScore (a : TradeSignal) : num :=
  (confidence a * lit 5 10
   + or_default (default (lit 0 1) (momentum a)) (lit 0 1) * lit 5 10)%num.

Definition byScore (a b : TradeSignal) : num :=
  (combinedScore b - combinedScore a)%num.

Definition maxSignals (strategy : string) : nat :=
  if String.eqb strategy "social" || String.eqb strategy "pump"
  then MAX_SIGNALS_PER_STRATEGY * 2
  else MAX_SIGNALS_PER_STRATEGY.

(** The signals of a group other than whale before the cap is applied. *)
Definition rankGroup (loaded : option (list StoredPosition))
  (signals : list TradeSignal) : list TradeSignal :=
  let validSignals := map clampConfidence signals in
  let open := openPositions loaded in
  let validSignals :=
    List.filter (fun s => negb (hasOpen open s)) validSignals in
  sortBy byScore validSignals.

(** One iteration of the loop of [filterAndRankSignals]. *)
Definition filterGroup (loaded : option (list StoredPosition))
  (strategy : string) (signals : list TradeSignal) : list TradeSignal :=
  if String.eqb strategy "whale" then
    List.filter (fun signal => (confidence signal >? lit 7 10)%num) signals
  else
    firstn (maxSignals strategy) (rankGroup loaded signals).

(** [filterAndRankSignals]; [load k] is the result of the
    [storage.load('positions')] issued while the group [k] is processed. *)
Definition filterAndRankSignals
  (load : string -> option (list StoredPosition))
  (groupedSignals : SignalGroups) : SignalGroups :=
  map (fun '(strategy, signals) =>
         (strategy, filterGroup (load strategy) strategy signals))
      groupedSignals.

(** What per-group filtering does to a signal [s] of the input when low
    confidence is clamped rather than discarded: the group of [s] comes out
    as the first [maxSignals] of a ranking that holds the clamped copy of
    every signal of the group whose symbol has no open position. *)
Definition clampedNotDropped
  (load : string -> option (list StoredPosition))
  (signals : list TradeSignal) (s : TradeSignal) : Prop :=
  let grouped := groupSignalsByStrategy signals in
  let open := openPositions (load (strategy s)) in
  exists group,
    In (strategy s, group) grouped /\ In s group /\
    let ranked := rankGroup (load (strategy s)) group in
    let out := firstn (maxSignals (strategy s)) ranked in
    In (strategy s, out) (filterAndRankSignals load grouped)
    /\ Permutation ranked
         (List.filter (fun x => negb (hasOpen open x))
                      (map clampConfidence group))
    /\ (confidence (clampConfidence s) >=? lit 10 100)%num = true
    /\ (hasOpen open s = false ->
        In (clampConfidence s) ranked
        /\ (In (clampConfidence s) out
            \/ (maxSignals (strategy s) < length ranked)%nat)).

(** Sample signals. *)
Definition sig (sym strat : string) (conf : num) : TradeSignal :=
  {| symbol := sym; side := "long"; price := lit 1 1; confidence := conf;
     strategy := strat; reason := ""; timestamp := 0; momentum := None |}.

Definition whaleLow : TradeSignal := sig "WIF" "whale" (lit 5 10).
Definition trendLow : TradeSignal := sig "BONK" "trend" (lit 1 100).
Definition trendHeld : TradeSignal := sig "JUP" "trend" (lit 9 10).

Definition sampleStore (k : string) : option (list StoredPosition) :=
  Some [ {| sp_symbol := "JUP"; sp_status := "open" |} ].

(** The names every object inherits from [Object.prototype]. *)
Definition inherited (name : string) : bool :=
  existsb (String.eqb name)
    ["constructor"; "hasOwnProperty"; "isPrototypeOf";
     "propertyIsEnumerable"; "toLocaleString"; "toString"; "valueOf";
     "__proto__"; "__defineGetter__"; "__defineSetter__";
     "__lookupGetter__"; "__lookupSetter__"]%string.

(** [STRATEGY_WEIGHTS[strategy] || 0.1], a lookup in a plain object: the
    weights of the table, all non-zero, come first; for a name that objects
    inherit the lookup gives the inherited function (the prototype itself
    for [__proto__]), which is truthy, and the product of a confidence with
    it is [NaN], as it is with the weight [NaN] here; any other name is
    weighted 0.1. *)
Definition strategyWeight (strategy : string) : num :=
  if String.eqb strategy "whale" then lit 12 10
  else if String.eqb strategy "scalp" then lit 13 10
  else if String.eqb strategy "pump" then lit 12 10
  else if String.eqb strategy "social" then lit 11 10
  else if String.eqb strategy "momentum" then lit 10 10
  else if String.eqb strategy "test" then lit 8 10
  else if String.eqb strategy "trend" then lit 9 10
  else if String.eqb strategy "pattern" then lit 8 10
  else if inherited strategy then NaN
  else lit 1 10.

(** The signals [combineAndSortSignals] pushes, before it sorts them. *)
Definition scoreSignals (filteredSignals : SignalGroups) : list TradeSignal :=
  flat_map
    (fun '(strategy, signals) =>
       let weight := strategyWeight strategy in
       map (fun signal =>
              withConfidence signal (confidence signal * weight)%num)
           signals)
    filteredSignals.

Definition byConfidence (a b : TradeSignal) : num :=
  (confidence b - confidence a)%num.

Definition combineAndSortSignals (filteredSignals : SignalGroups)
  : list TradeSignal :=
  sortBy byConfidence (scoreSignals filteredSignals).

(** [evaluateSignals]: nothing in its body throws, so the [catch] that
    returns the empty list is not reached. *)
Definition evaluateSignals (load : string -> option (list StoredPosition))
  (signals : list TradeSignal) : list TradeSignal :=
  let groupedSignals := groupSignalsByStrategy signals in
  let filteredSignals := filterAndRankSignals load groupedSignals in
  combineAndSortSignals filteredSignals.

Definition isFinite (a : num) : bool :=
  match a with Fin _ => true | _ => false end.

(** [a] is listed before [b] only if its confidence is at least that of
    [b]. *)
Definition descending (a b : TradeSignal) : Prop :=
  (confidence a >=? confidence b)%num = true.

(** The signals of [signals] whose strategy is [k], in their order. *)
Definition ofStrategy (k : string) (signals : list TradeSignal)
  : list TradeSignal :=
  List.filter (fun signal => String.eqb (strategy signal) k) signals.

(** The groups built from the signals seen so far. *)
Definition groupsOf (seen : list TradeSignal) (g : SignalGroups) : Prop :=
  List.NoDup (map fst g)
  /\ (forall k group, In (k, group) g ->
        group = ofStrategy k seen /\ group <> [])
  /\ (forall x, In x seen -> In (strategy x) (map fst g)).

(** A mixed batch: the three samples and a second trend signal. *)
Definition sampleBatch : list TradeSignal :=
  [whaleLow; trendLow; trendHeld; sig "RAY" "trend" (lit 7 10);
   sig "ORCA" "news" (lit 9 10)].

End Aggregator.

(** ** Trading bot ([TradingBot]) *)

Module Bot.

(** The result of an awaited call: a value, or a thrown error. *)
Inductive Outcome (A : Type) : Type :=
| Returned (a : A)
| Thrown.
Arguments Returned {A}.
Arguments Thrown {A}.

(** [productionConfig] ([trading/config.ts]), the [config] of the bot. *)
Module config.
Definition maxHoldingTime : Z := 1800000.
Definition priceRangeThreshold : num := lit 2 1.
Definition volumeDeclineThreshold : num := lit 30 1.
Definition minimumProgress : num := lit 5 1.
Definition reallocateAfter : Z := 900000.
Definition baseSize : num := lit 20 1.
Definition maxSize : num := lit 50 1.
Definition accountRiskPerTrade : num := lit 2 1.
Definition takeProfitLevels_0_percent : num := lit 15 1.
Definition takeProfitLevels_0_size : num := lit 3 10.
Definition takeProfitLevels_1_percent : num := lit 30 1.
Definition takeProfitLevels_1_size : num := lit 3 10.
Definition stopLoss_initial : num := lit 5 1.
Definition stopLoss_trailing_callback : num := lit 5 1.
Definition exitTriggers_volumeDecline : num := lit 40 1.
End config.

Inductive SwapStatus : Type := success | failed.

(** [SwapResult] ([solana/jupiter.ts]) *)
Record SwapResult : Type := mkSwapResult {
  status : SwapStatus;
  amountOut : num
}.

Record TakeProfitLevel : Type := mkLevel {
  tp_price : num;
  tp_size : num;
  hit : bool
}.

Record TrailingStop : Type := mkTrailing {
  active : bool;
  highestPrice : num;
  currentStop : num;
  callback : num
}.

(** [Position], with the fields [evaluateSignal] fills in. *)
Record Position : Type := mkPosition {
  symbol : string;
  tokenMint : string;
  entryPrice : num;
  quantity : num;
  remainingQuantity : num;
  stopLoss : num;
  level1 : TakeProfitLevel;
  level2 : TakeProfitLevel;
  trailingStop : TrailingStop;
  strategy : string;
  confidence : num;
  openedAt : Z
}.

Record DailyStats : Type := mkDaily {
  trades : Z;
  wins : Z;
  pnl : num;
  bestTrade : num;
  worstTrade : num
}.

(** [config.trading.confidenceMultipliers], which the bot rewrites. *)
Record Multipliers : Type := mkMult {
  m_low : num;
  m_medium : num;
  m_high : num
}.

(** Who issued a swap. *)
Inductive SwapOrigin : Type := Entry | TakeProfit1 | TakeProfit2 | FullExit.

(** What the bot does to the outside, in order.  [ExitRequested] marks
    the entry into [exitPosition]; the others are calls the source makes:
    [jupiter.swap], [logger.error], [storeTradeRecord], [updateBotStatus]
    and [logBotStatus]. *)
Inductive Event : Type :=
| ExitRequested (symbol reason : string)
| SwapCall (origin : SwapOrigin) (mint : string) (amount : num)
| ErrorLogged (message : string)
| TradeRecordStored (symbol : string) (entryPrice exitPrice pnl : num)
    (reason : string) (roi : num)
| BotStatusUpdated (running : bool) (activePositions : Z)
| StatusLogged (status : string).

(** The fields of [TradingBot] that the modelled methods read or write,
    with the trace of [Event]s. *)
Record TradingBot : Type := mkBot {
  positions : gmap string Position;
  positionStartTimes : gmap string Z;
  isRunning : bool;
  shutdownRequested : bool;
  usdcBalance : num;
  totalPnL : num;
  winningTrades : Z;
  totalTrades : Z;
  dailyStats : DailyStats;
  marketPriceCache : gmap string (num * Z);
  tradeHistory : list (num * num);
  confidenceMultipliers : Multipliers;
  events : list Event
}.

Definition with_positions (f : gmap string Position -> gmap string Position)
  (b : TradingBot) : TradingBot :=
  mkBot (f (positions b)) (positionStartTimes b) (isRunning b)
        (shutdownRequested b) (usdcBalance b) (totalPnL b) (winningTrades b)
        (totalTrades b) (dailyStats b) (marketPriceCache b) (tradeHistory b)
        (confidenceMultipliers b) (events b).

Definition with_startTimes (f : gmap string Z -> gmap string Z)
  (b : TradingBot) : TradingBot :=
  mkBot (positions b) (f (positionStartTimes b)) (isRunning b)
        (shutdownRequested b) (usdcBalance b) (totalPnL b) (winningTrades b)
        (totalTrades b) (dailyStats b) (marketPriceCache b) (tradeHistory b)
        (confidenceMultipliers b) (events b).

Definition with_flags (running shutdown : bool) (b : TradingBot)
  : TradingBot :=
  mkBot (positions b) (positionStartTimes b) running shutdown
        (usdcBalance b) (totalPnL b) (winningTrades b)
        (totalTrades b) (dailyStats b) (marketPriceCache b) (tradeHistory b)
        (confidenceMultipliers b) (events b).

Definition with_cache
  (f : gmap string (num * Z) -> gmap string (num * Z)) (b : TradingBot)
  : TradingBot :=
  mkBot (positions b) (positionStartTimes b) (isRunning b)
        (shutdownRequested b) (usdcBalance b) (totalPnL b) (winningTrades b)
        (totalTrades b) (dailyStats b) (f (marketPriceCache b))
        (tradeHistory b) (confidenceMultipliers b) (events b).

Definition with_event (e : Event) (b : TradingBot) : TradingBot :=
  mkBot (positions b) (positionStartTimes b) (isRunning b)
        (shutdownRequested b) (usdcBalance b) (totalPnL b) (winningTrades b)
        (totalTrades b) (dailyStats b) (marketPriceCache b) (tradeHistory b)
        (confidenceMultipliers b) (events b ++ [e]).

(** The statistics written on a closed trade. *)
Definition with_stats (total : num) (winning all : Z) (daily : DailyStats)
  (history : list (num * num)) (mult : Multipliers) (b : TradingBot)
  : TradingBot :=
  mkBot (positions b) (positionStartTimes b) (isRunning b)
        (shutdownRequested b) (usdcBalance b) total winning all daily
        (marketPriceCache b) history mult (events b).

(** Methods: state passing with thrown errors.  What a method wrote before
    it threw stays written.  A method here is one call, run from its start
    to its end with no other call in between; calls that overlap at their
    awaits are the subject of [Overlap] below. *)
Definition M (A : Type) : Type := TradingBot -> Outcome A * TradingBot.

Definition ret {A : Type} (a : A) : M A := fun b => (Returned a, b).

Definition bind {A B : Type} (m : M A) (k : A -> M B) : M B :=
  fun b =>
    match m b with
    | (Returned a, b') => k a b'
    | (Thrown, b') => (Thrown, b')
    end.

(** [await] of a call whose outcome is given. *)
Definition await {A : Type} (o : Outcome A) : M A := fun b => (o, b).

Definition get : M TradingBot := fun b => (Returned b, b).

Definition modify (f : TradingBot -> TradingBot) : M unit :=
  fun b => (Returned tt, f b).

Definition emit (e : Event) : M unit := modify (with_event e).

(** [try { body } catch (error) { handler }] *)
Definition tryCatch (body handler : M unit) : M unit :=
  fun b =>
    match body b with
    | (Returned _, b') => (Returned tt, b')
    | (Thrown, b') => handler b'
    end.

(** Runs [m] and hands back its outcome instead of throwing. *)
Definition settle {A : Type} (m : M A) : M (Outcome A) :=
  fun b => let '(o, b') := m b in (Returned o, b').

Definition exec {A : Type} (m : M A) (b : TradingBot) : TradingBot :=
  snd (m b).

Notation "'let*' x ':=' m 'in' k" := (bind m (fun x => k))
  (at level 10, x name, k at level 200).
Notation "m >> k" := (bind m (fun _ => k))
  (at level 90, right associativity).

Fixpoint forEach {A : Type} (l : list A) (f : A -> M unit) : M unit :=
  match l with
  | [] => ret tt
  | x :: rest => f x >> forEach rest f
  end.

(** What the outside answers during one [evaluateSignal]: the clock, whether
    [new PublicKey(signal.symbol)] succeeds, the [isSafe] flag of
    [analyzeLiquidity] (which rethrows its errors), the [distribution]
    signal of [getWhaleMetrics] (which catches its errors), the price
    [jupiter.getMarketPrice] gives on a cache miss, and the entry swap. *)
Record EntryObs : Type := mkEntryObs {
  e_now : Z;
  e_mintValid : bool;
  e_isSafe : Outcome bool;
  e_distribution : bool;
  e_price : Outcome num;
  e_swap : Outcome SwapResult
}.

(** The same for one [exitPosition]. *)
Record ExitObs : Type := mkExitObs {
  x_now : Z;
  x_price : Outcome num;
  x_swap : Outcome SwapResult
}.

(** The same for one [updatePosition]: [t_spikeSideways] and [t_spike] are
    [volumeSpikes.oneHour] of the two [calculateRVOL] calls, [t_priceRange]
    the result of [getPriceRange] (both catch their errors), [t_sell1] and
    [t_sell2] the partial sells, [t_exit] the answers to the exit the tick
    may run. *)
Record TickObs : Type := mkTickObs {
  t_now : Z;
  t_price : Outcome num;
  t_spikeSideways : num;
  t_priceRange : num;
  t_distribution : bool;
  t_sell1 : Outcome SwapResult;
  t_sell2 : Outcome SwapResult;
  t_spike : num;
  t_exit : ExitObs
}.

(** [jupiter.swap(params)]: the call is issued, then returns or throws. *)
Definition swap (origin : SwapOrigin) (mint : string) (amount : num)
  (answer : Outcome SwapResult) : M SwapResult :=
  emit (SwapCall origin mint amount) >> await answer.

Definition executeSell (origin : SwapOrigin) (tokenMint : string)
  (sellAmount : num) (answer : Outcome SwapResult) : M SwapResult :=
  let* result := swap origin tokenMint sellAmount answer in
  ret result.

(** [getCachedMarketPrice], with [cacheDuration = 3000]. *)
Definition getCachedMarketPrice (tokenMint : string) (now : Z)
  (fetched : Outcome num) : M num :=
  let* b := get in
  let fresh :=
    match marketPriceCache b !! tokenMint with
    | Some (price, timestamp) =>
        if now - timestamp <? 3000 then Some price else None
    | None => None
    end in
  match fresh with
  | Some price => ret price
  | None =>
      let* price := await fetched in
      modify (with_cache (<[tokenMint := (price, now)]>)) >>
      ret price
  end.

(** [calculatePositionSize(confidence)] of the bot. *)
Definition calculatePositionSize (confidence : num) (b : TradingBot) : num :=
  let accountValue := (totalPnL b + usdcBalance b)%num in
  let maxRiskAmount :=
    (accountValue * (config.accountRiskPerTrade / lit 100 1))%num in
  let multiplier :=
    if (confidence >=? lit 8 10)%num then m_high (confidenceMultipliers b)
    else if (confidence >=? lit 6 10)%num
         then m_medium (confidenceMultipliers b)
         else m_low (confidenceMultipliers b) in
  let scaledBaseSize :=
    JsNum.min
      (config.baseSize * (lit 1 1 + accountValue / lit 1000 1))%num
      (maxRiskAmount / (config.stopLoss_initial / lit 100 1))%num in
  let size := (scaledBaseSize * multiplier)%num in
  JsNum.min size config.maxSize.

(** The [Position] literal of [evaluateSignal]. *)
Definition newPosition (signal : Aggregator.TradeSignal) (tokenMint : string)
  (price : num) (tradeResult : SwapResult) (now : Z) : Position :=
  {| symbol := Aggregator.symbol signal;
     tokenMint := tokenMint;
     entryPrice := price;
     quantity := amountOut tradeResult;
     remainingQuantity := amountOut tradeResult;
     stopLoss :=
       (price * (lit 1 1 - config.stopLoss_initial / lit 100 1))%num;
     level1 :=
       {| tp_price :=
            (price * (lit 1 1 + config.takeProfitLevels_0_percent / lit 100 1))%num;
          tp_size := config.takeProfitLevels_0_size;
          hit := false |};
     level2 :=
       {| tp_price :=
            (price * (lit 1 1 + config.takeProfitLevels_1_percent / lit 100 1))%num;
          tp_size := config.takeProfitLevels_1_size;
          hit := false |};
     trailingStop :=
       {| active := false; highestPrice := price; currentStop := lit 0 1;
          callback := config.stopLoss_trailing_callback |};
     strategy := Aggregator.strategy signal;
     confidence := Aggregator.confidence signal;
     openedAt := now |}.

Definition has {V : Type} (m : gmap string V) (k : string) : bool :=
  match m !! k with Some _ => true | None => false end.

Definition isSuccess (s : SwapStatus) : bool :=
  match s with success => true | failed => false end.

Definition evaluateSignal (signal : Aggregator.TradeSignal) (obs : EntryObs)
  : M unit :=
  tryCatch
    (let* b := get in
     if has (positions b) (Aggregator.symbol signal) then ret tt
     else
       let* tokenMint :=
         await (if e_mintValid obs then Returned (Aggregator.symbol signal)
                else Thrown) in
       (* Promise.all: the three calls run; any rejection rejects. *)
       let* priceResult :=
         settle (getCachedMarketPrice tokenMint (e_now obs) (e_price obs)) in
       let* isSafe := await (e_isSafe obs) in
       let* price := await priceResult in
       if negb isSafe then ret tt
       else if e_distribution obs then ret tt
       else
         let* b := get in
         let baseSize :=
           calculatePositionSize (Aggregator.confidence signal) b in
         let* tradeResult := swap Entry tokenMint baseSize (e_swap obs) in
         if isSuccess (status tradeResult) then
           modify (with_startTimes
                     (<[Aggregator.symbol signal := e_now obs]>)) >>
           modify (with_positions
                     (<[Aggregator.symbol signal :=
                          newPosition signal tokenMint price tradeResult
                                      (e_now obs)]>))
         else ret tt)
    (emit (ErrorLogged "Error evaluating signal:")).

(** [adjustConfidenceMultiplier] on the history and the multipliers. *)
Definition scaleMultipliers (factor : num) (m : Multipliers) : Multipliers :=
  {| m_low := (m_low m * factor)%num;
     m_medium := (m_medium m * factor)%num;
     m_high := (m_high m * factor)%num |}.

Definition adjustConfidenceMultiplier (history : list (num * num))
  (m : Multipliers) : list (num * num) * Multipliers :=
  if (length history <? 5)%nat then (history, m)
  else
    let avgROI :=
      (fold_left (fun acc trade => acc + fst trade) history (lit 0 1)
       / of_Z (Z.of_nat (length history)))%num in
    let m' :=
      if (avgROI <? lit 0 1)%num then scaleMultipliers (lit 95 100) m
      else scaleMultipliers (lit 101 100) m in
    if (50 <? length history)%nat then ([], m') else (history, m').

(** The realized PnL and ROI that [exitPosition] computes. *)
Definition exitPnl (position : Position) (currentPrice : num) : num :=
  ((currentPrice - entryPrice position) * remainingQuantity position
   * currentPrice)%num.

Definition exitRoi (position : Position) (currentPrice : num) : num :=
  ((currentPrice - entryPrice position) / entryPrice position
   * lit 100 1)%num.

(** The bookkeeping of [exitPosition] between the sell and the trade
    record. *)
Definition recordClosedTrade (position : Position) (pnl roi : num)
  (b : TradingBot) : TradingBot :=
  let daily := dailyStats b in
  let won := (pnl >? lit 0 1)%num in
  let daily' :=
    {| trades := trades daily + 1;
       wins := if won then wins daily + 1 else wins daily;
       pnl := (Bot.pnl daily + pnl)%num;
       bestTrade := JsNum.max (bestTrade daily) pnl;
       worstTrade := JsNum.min (worstTrade daily) pnl |} in
  let '(history, mult) :=
    adjustConfidenceMultiplier
      (tradeHistory b ++ [(roi, confidence position)])
      (confidenceMultipliers b) in
  with_stats (totalPnL b + pnl)%num
             (if won then winningTrades b + 1 else winningTrades b)
             (totalTrades b + 1) daily' history mult b.

(** [exitPosition].  [holdingTime], a string formatted from [openedAt]
    for the log and the trade record, is left out; the formatting is taken
    not to throw. *)
Definition exitPosition (symbol : string) (position : Position)
  (reason : string) (obs : ExitObs) : M unit :=
  emit (ExitRequested symbol reason) >>
  tryCatch
    (let* currentPrice :=
       getCachedMarketPrice (tokenMint position) (x_now obs) (x_price obs) in
     let* sellResult :=
       swap FullExit (tokenMint position) (remainingQuantity position)
            (x_swap obs) in
     let pnl := exitPnl position currentPrice in
     let roi := exitRoi position currentPrice in
     modify (recordClosedTrade position pnl roi) >>
     (* storeTradeRecord *)
     emit (TradeRecordStored symbol (entryPrice position) currentPrice pnl
                             reason roi) >>
     modify (with_positions (delete symbol)))
    (emit (ErrorLogged "Error exiting position:")) >>
  modify (with_startTimes (delete symbol)).

(** In-place writes to a position object. *)
Definition with_trailing (t : TrailingStop) (p : Position) : Position :=
  mkPosition (symbol p) (tokenMint p) (entryPrice p) (quantity p)
             (remainingQuantity p) (stopLoss p) (level1 p) (level2 p) t
             (strategy p) (confidence p) (openedAt p).

Definition markHit (l : TakeProfitLevel) : TakeProfitLevel :=
  {| tp_price := tp_price l; tp_size := tp_size l; hit := true |}.

(** [position.remainingQuantity -= sellAmount; level1.hit = true] *)
Definition sold1 (sellAmount : num) (p : Position) : Position :=
  mkPosition (symbol p) (tokenMint p) (entryPrice p) (quantity p)
             (remainingQuantity p - sellAmount)%num (stopLoss p)
             (markHit (level1 p)) (level2 p) (trailingStop p)
             (strategy p) (confidence p) (openedAt p).

(** The same for [level2], which also arms the trailing stop at the
    current price. *)
Definition sold2 (sellAmount currentPrice : num) (p : Position) : Position :=
  mkPosition (symbol p) (tokenMint p) (entryPrice p) (quantity p)
             (remainingQuantity p - sellAmount)%num (stopLoss p)
             (level1 p) (markHit (level2 p))
             {| active := true;
                highestPrice := currentPrice;
                currentStop :=
                  (currentPrice
                   * (lit 1 1 - callback (trailingStop p) / lit 100 1))%num;
                callback := callback (trailingStop p) |}
             (strategy p) (confidence p) (openedAt p).

(** The position object is the value the table holds under its symbol: a
    write to the object shows in the table as long as the entry is there. *)
Definition mutate (symbol : string) (p : Position) : M unit :=
  modify (with_positions
            (fun m => if has m symbol then <[symbol := p]> m else m)).

(** [this.positionStartTimes.get(symbol) || Date.now()] *)
Definition startTimeOr (stored : option Z) (now : Z) : Z :=
  match stored with
  | Some t => if t =? 0 then now else t
  | None => now
  end.

(** The trailing stop follows a new high. *)
Definition advanceTrailing (p : Position) (currentPrice : num) : Position :=
  if active (trailingStop p)
     && (currentPrice >? highestPrice (trailingStop p))%num
  then with_trailing
         {| active := active (trailingStop p);
            highestPrice := currentPrice;
            currentStop :=
              (currentPrice
               * (lit 1 1 - callback (trailingStop p) / lit 100 1))%num;
            callback := callback (trailingStop p) |} p
  else p.

(** The exit triggers that [updatePosition] tries before the take-profit
    levels, in the order of the source; each returns from the tick. *)
Inductive PreCheck : Type :=
| ExitNow (reason : string) (p : Position)
| KeepOpen (p : Position).

Definition preChecks (position : Position) (positionAge : Z)
  (currentPrice : num) (obs : TickObs) : PreCheck :=
  let priceChange :=
    JsNum.abs ((currentPrice - entryPrice position) / entryPrice position
               * lit 100 1)%num in
  if (positionAge >? config.maxHoldingTime)
     && (priceChange <? config.minimumProgress)%num
  then ExitNow "sideways_timeout" position
  else if (positionAge >? config.reallocateAfter)
          && (t_spikeSideways obs
              <? lit 1 1 - config.volumeDeclineThreshold / lit 100 1)%num
          && (t_priceRange obs <? config.priceRangeThreshold)%num
  then ExitNow "sideways_detected" position
  else if t_distribution obs && active (trailingStop position)
  then ExitNow "whale_distribution" position
  else
    let position := advanceTrailing position currentPrice in
    if active (trailingStop position)
       && (currentPrice <=? currentStop (trailingStop position))%num
    then ExitNow "trailing_stop" position
    else if (currentPrice <=? stopLoss position)%num
    then ExitNow "stop_loss" position
    else KeepOpen position.

(** The two take-profit blocks of [updatePosition]; each hands on the
    position object as it leaves it. *)
Definition takeProfitLevel1 (symbol : string) (position : Position)
  (currentPrice : num) (answer : Outcome SwapResult) : M Position :=
  if negb (hit (level1 position))
     && (currentPrice >=? tp_price (level1 position))%num
  then
    let sellAmount := (quantity position * tp_size (level1 position))%num in
    let* sellResult :=
      executeSell TakeProfit1 (tokenMint position) sellAmount answer in
    let position := sold1 sellAmount position in
    mutate symbol position >> ret position
  else ret position.

Definition takeProfitLevel2 (symbol : string) (position : Position)
  (currentPrice : num) (answer : Outcome SwapResult) : M Position :=
  if negb (hit (level2 position))
     && (currentPrice >=? tp_price (level2 position))%num
  then
    let sellAmount := (quantity position * tp_size (level2 position))%num in
    let* sellResult :=
      executeSell TakeProfit2 (tokenMint position) sellAmount answer in
    let position := sold2 sellAmount currentPrice position in
    mutate symbol position >> ret position
  else ret position.

Definition takeProfitLevels (symbol : string) (position : Position)
  (currentPrice : num) (obs : TickObs) : M Position :=
  let* position :=
    takeProfitLevel1 symbol position currentPrice (t_sell1 obs) in
  takeProfitLevel2 symbol position currentPrice (t_sell2 obs).

Definition updatePosition (symbol : string) (position : Position)
  (obs : TickObs) : M unit :=
  tryCatch
    (let* currentPrice :=
       getCachedMarketPrice (tokenMint position) (t_now obs) (t_price obs) in
     let* b := get in
     let positionAge :=
       t_now obs - startTimeOr (positionStartTimes b !! symbol) (t_now obs) in
     match preChecks position positionAge currentPrice obs with
     | ExitNow reason position =>
         mutate symbol position >>
         exitPosition symbol position reason (t_exit obs)
     | KeepOpen position =>
         mutate symbol position >>
         let* position := takeProfitLevels symbol position currentPrice obs in
         if (t_spike obs
             <? lit 1 1 - config.exitTriggers_volumeDecline / lit 100 1)%num
         then exitPosition symbol position "volume_decline" (t_exit obs)
         else ret tt
     end)
    (emit (ErrorLogged "Error updating position:")).

(** [updateBotStatus] catches its own errors. *)
Definition updateBotStatus (running : bool) (activePositions : Z) : M unit :=
  emit (BotStatusUpdated running activePositions).

Definition logBotStatus (status : string) : M unit :=
  emit (StatusLogged status).

(** [stop()]; [obs symbol] answers the exit of [symbol].  The entries of
    the table are visited once each; the order of the visit is that of
    [map_to_list], not the insertion order of the source. *)
Definition stop (obs : string -> ExitObs) : M unit :=
  modify (with_flags false true) >>
  let* b := get in
  forEach (map_to_list (positions b))
          (fun '(symbol, position) =>
             tryCatch
               (exitPosition symbol position "bot_shutdown" (obs symbol))
               (emit (ErrorLogged "Error closing position during shutdown")))
  >>
  updateBotStatus false 0 >>
  logBotStatus "stopped".

(** The events a run appended. *)
Definition newEvents (before after : TradingBot) : list Event :=
  skipn (length (events before)) (events after).

Definition isSwapFrom (origin : SwapOrigin) (e : Event) : bool :=
  match e, origin with
  | SwapCall Entry _ _, Entry
  | SwapCall TakeProfit1 _ _, TakeProfit1
  | SwapCall TakeProfit2 _ _, TakeProfit2
  | SwapCall FullExit _ _, FullExit => true
  | _, _ => false
  end.

Definition swapsFrom (origin : SwapOrigin) (l : list Event) : list Event :=
  List.filter (isSwapFrom origin) l.

(** What [getCachedMarketPrice] answers, without its write to the cache. *)
Definition priceOutcome (tokenMint : string) (now : Z) (fetched : Outcome num)
  (b : TradingBot) : Outcome num :=
  fst (getCachedMarketPrice tokenMint now fetched b).

Definition isThrown {A : Type} (o : Outcome A) : bool :=
  match o with Thrown => true | Returned _ => false end.

(** The ways an entry is refused or fails: a position is already open for
    the symbol, the mint is rejected, the liquidity analysis throws or finds
    the trade unsafe, whale distribution is detected, the price cannot be
    fetched, or the swap throws or returns a status other than success. *)
Definition entryBlocked (signal : Aggregator.TradeSignal) (obs : EntryObs)
  (b : TradingBot) : bool :=
  has (positions b) (Aggregator.symbol signal)
  || negb (e_mintValid obs)
  || match e_isSafe obs with Returned true => false | _ => true end
  || e_distribution obs
  || isThrown (priceOutcome (Aggregator.symbol signal) (e_now obs)
                            (e_price obs) b)
  || match e_swap obs with
     | Returned r => negb (isSuccess (status r))
     | Thrown => true
     end.

(** A fresh bot, as the constructor leaves it, with a balance of 1000. *)
Definition bot0 : TradingBot :=
  {| positions := ∅; positionStartTimes := ∅; isRunning := false;
     shutdownRequested := false; usdcBalance := lit 1000 1;
     totalPnL := lit 0 1; winningTrades := 0; totalTrades := 0;
     dailyStats := {| trades := 0; wins := 0; pnl := lit 0 1;
                      bestTrade := lit 0 1; worstTrade := lit 0 1 |};
     marketPriceCache := ∅; tradeHistory := [];
     confidenceMultipliers :=
       {| m_low := lit 4 10; m_medium := lit 6 10; m_high := lit 1 1 |};
     events := [] |}.

Definition MINT : string := "So11111111111111111111111111111111111111112".

Definition sampleSignal : Aggregator.TradeSignal :=
  Aggregator.sig MINT "trend" (lit 85 100).

(** An entry at price 100 that buys 10. *)
Definition entryOk : EntryObs :=
  {| e_now := 1000; e_mintValid := true; e_isSafe := Returned true;
     e_distribution := false; e_price := Returned (lit 100 1);
     e_swap := Returned {| status := success; amountOut := lit 10 1 |} |}.

Definition botOpen : TradingBot := exec (evaluateSignal sampleSignal entryOk) bot0.

Definition samplePosition : Position :=
  newPosition sampleSignal MINT (lit 100 1)
              {| status := success; amountOut := lit 10 1 |} 1000.

(** Exits of the sample position at price 110, two seconds after the price
    cache expired: the sell succeeds, returns status failed (the swap was
    rejected for its price impact), or throws. *)
Definition exitAt110 : ExitObs :=
  {| x_now := 5000; x_price := Returned (lit 110 1);
     x_swap := Returned {| status := success; amountOut := lit 1100 1 |} |}.

Definition exitRejected : ExitObs :=
  {| x_now := 5000; x_price := Returned (lit 110 1);
     x_swap := Returned {| status := failed; amountOut := lit 0 1 |} |}.

Definition exitThrows : ExitObs :=
  {| x_now := 5000; x_price := Returned (lit 110 1); x_swap := Thrown |}.

(** The PnL of the specification: (exitPrice - entryPrice) x
    remainingQuantity. *)
Definition statedPnl (position : Position) (exitPrice : num) : num :=
  ((exitPrice - entryPrice position) * remainingQuantity position)%num.

(** A level fires on a tick when it has not been hit and the price has
    reached it. *)
Definition fires (l : TakeProfitLevel) (currentPrice : num) : bool :=
  negb (hit l) && (currentPrice >=? tp_price l)%num.

(** The position object after each take-profit block whose sell returned. *)
Definition afterLevel1 (p : Position) (currentPrice : num) : Position :=
  if fires (level1 p) currentPrice
  then sold1 (quantity p * tp_size (level1 p))%num p
  else p.

Definition afterLevel2 (p : Position) (currentPrice : num) : Position :=
  if fires (level2 p) currentPrice
  then sold2 (quantity p * tp_size (level2 p))%num currentPrice p
  else p.

(** The price and the position age a tick observes. *)
Definition tickPrice (p : Position) (obs : TickObs) (b : TradingBot)
  : Outcome num :=
  priceOutcome (tokenMint p) (t_now obs) (t_price obs) b.

Definition tickAge (symbol : string) (obs : TickObs) (b : TradingBot) : Z :=
  t_now obs - startTimeOr (positionStartTimes b !! symbol) (t_now obs).

(** Hit flags that are set in [p] are set in [p']. *)
Definition hitsKept (p p' : Position) : Prop :=
  (hit (level1 p) = true -> hit (level1 p') = true)
  /\ (hit (level2 p) = true -> hit (level2 p') = true).

(** The partial sell a level issues when it fires. *)
Definition call1 (p : Position) : Event :=
  SwapCall TakeProfit1 (tokenMint p) (quantity p * tp_size (level1 p))%num.

Definition call2 (p : Position) : Event :=
  SwapCall TakeProfit2 (tokenMint p) (quantity p * tp_size (level2 p))%num.

Definition checked (c : PreCheck) : Position :=
  match c with ExitNow _ p => p | KeepOpen p => p end.

(** The observations of a tick with other answers to the partial sells. *)
Definition withSells (sell1 sell2 : Outcome SwapResult) (obs : TickObs)
  : TickObs :=
  {| t_now := t_now obs; t_price := t_price obs;
     t_spikeSideways := t_spikeSideways obs;
     t_priceRange := t_priceRange obs;
     t_distribution := t_distribution obs;
     t_sell1 := sell1; t_sell2 := sell2;
     t_spike := t_spike obs; t_exit := t_exit obs |}.

(** The two events by which [stop] reports that the bot has stopped. *)
Definition isReport (e : Event) : bool :=
  match e with
  | BotStatusUpdated _ _ | StatusLogged _ => true
  | _ => false
  end.

(** A shutdown of the bot that holds the sample position, and a signal for
    the same token evaluated one second after it. *)
Definition botRunning : TradingBot := with_flags true false botOpen.

Definition shutdownExits (symbol : string) : ExitObs := exitAt110.

Definition entryAfterStop : EntryObs :=
  {| e_now := 6000; e_mintValid := true; e_isSafe := Returned true;
     e_distribution := false; e_price := Returned (lit 110 1);
     e_swap := Returned {| status := success; amountOut := lit 9 1 |} |}.

(** The entry is refused, or fails, before the swap is issued. *)
Definition refusedBeforeSwap (signal : Aggregator.TradeSignal)
  (obs : EntryObs) (b : TradingBot) : bool :=
  has (positions b) (Aggregator.symbol signal)
  || negb (e_mintValid obs)
  || match e_isSafe obs with Returned true => false | _ => true end
  || e_distribution obs
  || isThrown (priceOutcome (Aggregator.symbol signal) (e_now obs)
                            (e_price obs) b).

(** The entry is refused by what the call itself tests: the table at its
    start, the mint, the liquidity analysis and the whale metrics. *)
Definition refusedByChecks (signal : Aggregator.TradeSignal)
  (obs : EntryObs) (b : TradingBot) : bool :=
  has (positions b) (Aggregator.symbol signal)
  || negb (e_mintValid obs)
  || match e_isSafe obs with Returned true => false | _ => true end
  || e_distribution obs.

Definition isSwap (e : Event) : bool :=
  match e with SwapCall _ _ _ => true | _ => false end.

(** An active trailing stop belongs to a position whose second level is
    hit, and sits the callback below the highest price seen. *)
Definition trailingArmed (p : Position) : Prop :=
  active (trailingStop p) = true ->
  hit (level2 p) = true
  /\ currentStop (trailingStop p)
     = (highestPrice (trailingStop p)
        * (lit 1 1 - callback (trailingStop p) / lit 100 1))%num.

(** The entry of [k] in the table of [b] is the one of [b0], and the symbol
    of a tick has no entry in [b] when it has none in [b0]. *)
Definition untouched (symbol k : string) (b0 b : TradingBot) : Prop :=
  positions b !! k = positions b0 !! k
  /\ (positions b0 !! symbol = None -> positions b !! symbol = None).

(** The body of the loop of [stop]. *)
Definition shutdownExit (obs : string -> ExitObs)
  : string * Position -> M unit :=
  fun '(symbol, position) =>
    tryCatch (exitPosition symbol position "bot_shutdown" (obs symbol))
             (emit (ErrorLogged "Error closing position during shutdown")).

(** A table after the keys of [entries] are deleted one by one. *)
Definition forget {A : Type} (entries : list (string * Position))
  (m : gmap string A) : gmap string A :=
  fold_left (fun m e => delete (fst e) m) entries m.

(** Every exit of a shutdown gets answers: no price fetch and no swap
    throws. *)
Definition exitsReturn (obs : string -> ExitObs) : Prop :=
  forall symbol,
    isThrown (x_price (obs symbol)) = false
    /\ isThrown (x_swap (obs symbol)) = false.

(** Ticks on the sample position.  [tickAbove115]: four seconds after the
    entry the price is 120, above the first level (115) and below the
    second (130); the partial sell returns status failed.  [tickSideways]:
    the same price seen 999 seconds after the entry, with volume down and a
    narrow price range. *)
Definition tickAbove115 : TickObs :=
  {| t_now := 5000; t_price := Returned (lit 120 1);
     t_spikeSideways := lit 1 1; t_priceRange := lit 5 1;
     t_distribution := false;
     t_sell1 := Returned {| status := failed; amountOut := lit 0 1 |};
     t_sell2 := Returned {| status := success; amountOut := lit 0 1 |};
     t_spike := lit 1 1;
     t_exit := exitAt110 |}.


(** The sample position once both levels fired at price 140, with its
    trailing stop active, and a later tick that sees the price at 150. *)
Definition trailingPosition : Position :=
  afterLevel2 (afterLevel1 samplePosition (lit 140 1)) (lit 140 1).

Definition botTrailing : TradingBot :=
  exec (mutate MINT trailingPosition) botOpen.

Definition tickAt150 : TickObs :=
  {| t_now := 9000; t_price := Returned (lit 150 1);
     t_spikeSideways := lit 1 1; t_priceRange := lit 5 1;
     t_distribution := false;
     t_sell1 := Returned {| status := success; amountOut := lit 0 1 |};
     t_sell2 := Returned {| status := success; amountOut := lit 0 1 |};
     t_spike := lit 1 1;
     t_exit := exitAt110 |}.


End Bot.

(** ** Market indicators ([calculateVolumeTrend] of [src/services/api.ts],
    [getPriceRange] of the trading bot) *)

Module Indicators.
Import Bot.

(** A candle; only its volume is read here. *)
Record CandleData : Type := mkCandle { volume : num }.

(** [l.slice(from, to)] *)
Definition slice {A : Type} (from to : nat) (l : list A) : list A :=
  firstn (to - from) (skipn from l).

(** [candles.reduce((sum, candle) => sum + candle.volume, 0)] *)
Definition totalVolume (candles : list CandleData) : num :=
  fold_left (fun sum candle => (sum + volume candle)%num) candles (lit 0 1).

(** [calculateVolumeTrend]; [fetched] is what [fetchHistoricalData]
    answers. *)
Definition calculateVolumeTrend (fetched : Outcome (list CandleData)) : num :=
  match fetched with
  | Returned historicalData =>
      let recentVolume := totalVolume (slice 0 12 historicalData) in
      let previousVolume := totalVolume (slice 12 24 historicalData) in
      ((recentVolume - previousVolume) / previousVolume * lit 100 1)%num
  | Thrown => lit 0 1
  end.

(** [Math.max(...l)] and [Math.min(...l)] *)
Definition mathMax (l : list num) : num := fold_left JsNum.max l NInf.
Definition mathMin (l : list num) : num := fold_left JsNum.min l PInf.

(** [getPriceRange]; [fetched] is the list of the prices of the response,
    or the failure of the request. *)
Definition getPriceRange (fetched : Outcome (list num)) : num :=
  match fetched with
  | Returned prices =>
      if (length prices <? 2)%nat then lit 0 1
      else
        let high := mathMax prices in
        let low := mathMin prices in
        ((high - low) / low * lit 100 1)%num
  | Thrown => lit 0 1
  end.

(** A non-negative, respectively positive, number. *)
Definition nonNegative (a : num) : Prop := exists x, a = Fin x /\ (0 <= x)%Q.
Definition positive (a : num) : Prop := exists x, a = Fin x /\ (0 < x)%Q.

Definition hourOfCandles : list CandleData :=
  [mkCandle (lit 5 1); mkCandle (lit 7 1); mkCandle (lit 0 1)].

End Indicators.

(** ** Calls in flight

    The methods of [Bot] are written as one uninterrupted run each.  The
    source's methods are [async]: a call runs without interruption up to an
    [await], and while it is suspended other calls run; the timers of
    [startMonitoringLoops] start their callbacks whether the last one has
    returned or not.  Here a call is a sequence of such uninterrupted
    segments, with a suspension at every [await] of the source, and the
    position object a tick was handed is shared by every call that holds
    it.  The calls modelled are the monitoring tick and the exit. *)

Module Overlap.
Import Bot.

(** The bot and the position objects that calls still hold although the
    table no longer has them, by symbol.  No entry is made in these runs,
    so that a symbol names one object throughout. *)
Record World : Type := mkWorld {
  bot : TradingBot;
  detached : gmap string Position
}.

Definition with_bot (f : TradingBot -> TradingBot) (w : World) : World :=
  {| bot := f (bot w); detached := detached w |}.

(** A call in flight: over with an outcome, or suspended at an [await];
    when resumed in a world [w] it moves the world to [step w] and goes on
    as [rest w]. *)
Inductive Async (A : Type) : Type :=
| Now (o : Outcome A)
| Later (step : World -> World) (rest : World -> Async A).
Arguments Now {A}.
Arguments Later {A}.

Definition AM (A : Type) : Type := World -> Async A * World.

Definition later {A : Type} (resumed : World -> Async A * World) : Async A :=
  Later (fun w => snd (resumed w)) (fun w => fst (resumed w)).

Definition resume {A : Type} (t : Async A) (w : World) : Async A * World :=
  match t with
  | Now o => (Now o, w)
  | Later step rest => (rest w, step w)
  end.

Definition retA {A : Type} (a : A) : AM A := fun w => (Now (Returned a), w).

Fixpoint bindT {A B : Type} (t : Async A) (k : A -> AM B) (w : World)
  : Async B * World :=
  match t with
  | Now (Returned a) => k a w
  | Now Thrown => (Now Thrown, w)
  | Later step rest => (later (fun w' => bindT (rest w') k (step w')), w)
  end.

Definition bindA {A B : Type} (m : AM A) (k : A -> AM B) : AM B :=
  fun w => let (t, w') := m w in bindT t k w'.

Notation "x <- m ;; k" := (bindA m (fun x => k))
  (at level 100, m at next level, right associativity).
Notation "m ;; k" := (bindA m (fun _ => k))
  (at level 100, right associativity).

(** [try { body } catch { handler }] around awaits. *)
Fixpoint catchT (t : Async unit) (handler : AM unit) (w : World)
  : Async unit * World :=
  match t with
  | Now (Returned _) => (Now (Returned tt), w)
  | Now Thrown => handler w
  | Later step rest => (later (fun w' => catchT (rest w') handler (step w')), w)
  end.

Definition tryCatchA (body handler : AM unit) : AM unit :=
  fun w => let (t, w') := body w in catchT t handler w'.

(** [await call]: the call runs, with the suspensions of its own, and when
    it is over the caller is suspended once more before it gets the
    outcome. *)
Fixpoint awaitT {A : Type} (t : Async A) (w : World) : Async A * World :=
  match t with
  | Now o => (Later (fun w' => w') (fun _ => Now o), w)
  | Later step rest => (later (fun w' => awaitT (rest w') (step w')), w)
  end.

Definition await {A : Type} (call : AM A) : AM A :=
  fun w => let (t, w') := call w in awaitT t w'.

(** Code between two awaits: a method of [Bot], run on the bot. *)
Definition atomic {A : Type} (m : M A) : AM A :=
  fun w => let (o, b) := m (bot w) in (Now o, with_bot (fun _ => b) w).

(** A call to the outside, with its outcome. *)
Definition outside {A : Type} (o : Outcome A) : AM A := fun w => (Now o, w).

(** The position object of [symbol]: the entry of the table, or the
    detached object.  A call is handed its object by reference, here by
    symbol; for a symbol without an object the call was handed none, and
    reading a field of it throws. *)
Definition lookupObject (symbol : string) (w : World) : option Position :=
  match positions (bot w) !! symbol with
  | Some p => Some p
  | None => detached w !! symbol
  end.

Definition readObject (symbol : string) : AM Position :=
  fun w =>
    match lookupObject symbol w with
    | Some p => (Now (Returned p), w)
    | None => (Now Thrown, w)
    end.

(** A write to the object. *)
Definition written (symbol : string) (f : Position -> Position) (w : World)
  : World :=
  match positions (bot w) !! symbol with
  | Some p => with_bot (with_positions (<[symbol := f p]>)) w
  | None =>
      match detached w !! symbol with
      | Some p =>
          {| bot := bot w; detached := <[symbol := f p]> (detached w) |}
      | None => w
      end
  end.

Definition writeObject (symbol : string) (f : Position -> Position)
  : AM unit :=
  fun w =>
    match lookupObject symbol w with
    | Some _ => (Now (Returned tt), written symbol f w)
    | None => (Now Thrown, w)
    end.

(** [this.positions.delete(symbol)]: the object leaves the table; calls in
    flight still hold it. *)
Definition deleted (symbol : string) (w : World) : World :=
  match positions (bot w) !! symbol with
  | Some p =>
      {| bot := with_positions (delete symbol) (bot w);
         detached := <[symbol := p]> (detached w) |}
  | None => w
  end.

Definition deleteEntry (symbol : string) : AM unit :=
  fun w => (Now (Returned tt), deleted symbol w).

(** [getCachedMarketPrice]: on a miss the price is awaited. *)
Definition getCachedMarketPriceA (tokenMint : string) (now : Z)
  (fetched : Outcome num) : AM num :=
  b <- atomic get ;;
  match marketPriceCache b !! tokenMint with
  | Some (price, timestamp) =>
      if now - timestamp <? 3000 then retA price
      else
        price <- await (outside fetched) ;;
        atomic (modify (with_cache (<[tokenMint := (price, now)]>))) ;;
        retA price
  | None =>
      price <- await (outside fetched) ;;
      atomic (modify (with_cache (<[tokenMint := (price, now)]>))) ;;
      retA price
  end.

(** [jupiter.swap]: the call is issued and has its answer. *)
Definition swapA (origin : SwapOrigin) (mint : string) (amount : num)
  (answer : Outcome SwapResult) : AM SwapResult :=
  atomic (emit (SwapCall origin mint amount)) ;;
  outside answer.

Definition executeSellA (origin : SwapOrigin) (tokenMint : string)
  (sellAmount : num) (answer : Outcome SwapResult) : AM SwapResult :=
  result <- await (swapA origin tokenMint sellAmount answer) ;;
  retA result.

(** [exitPosition]; the fields of the position are read where the source
    reads them, the remaining quantity once for the swap and again, after
    the swap, for the PnL. *)
Definition exitPositionA (symbol : string) (reason : string)
  (obs : ExitObs) : AM unit :=
  atomic (emit (ExitRequested symbol reason)) ;;
  tryCatchA
    (p <- readObject symbol ;;
     currentPrice <-
       await (getCachedMarketPriceA (tokenMint p) (x_now obs) (x_price obs)) ;;
     p <- readObject symbol ;;
     sellResult <-
       await (swapA FullExit (tokenMint p) (remainingQuantity p)
                    (x_swap obs)) ;;
     p <- readObject symbol ;;
     let pnl := exitPnl p currentPrice in
     let roi := exitRoi p currentPrice in
     atomic (modify (recordClosedTrade p pnl roi)) ;;
     await (atomic (emit (TradeRecordStored symbol (entryPrice p)
                                            currentPrice pnl reason roi))) ;;
     deleteEntry symbol)
    (atomic (emit (ErrorLogged "Error exiting position:"))) ;;
  atomic (modify (with_startTimes (delete symbol))).

(** The two take-profit blocks: the level is tested, the sell awaited, and
    only then are the quantity and the flag written. *)
Definition takeProfitLevel1A (symbol : string) (currentPrice : num)
  (answer : Outcome SwapResult) : AM unit :=
  p <- readObject symbol ;;
  if negb (hit (level1 p)) && (currentPrice >=? tp_price (level1 p))%num
  then
    let sellAmount := (quantity p * tp_size (level1 p))%num in
    sellResult <-
      await (executeSellA TakeProfit1 (tokenMint p) sellAmount answer) ;;
    writeObject symbol (sold1 sellAmount)
  else retA tt.

Definition takeProfitLevel2A (symbol : string) (currentPrice : num)
  (answer : Outcome SwapResult) : AM unit :=
  p <- readObject symbol ;;
  if negb (hit (level2 p)) && (currentPrice >=? tp_price (level2 p))%num
  then
    let sellAmount := (quantity p * tp_size (level2 p))%num in
    sellResult <-
      await (executeSellA TakeProfit2 (tokenMint p) sellAmount answer) ;;
    writeObject symbol (sold2 sellAmount currentPrice)
  else retA tt.

(** [updatePosition], with its awaits: the price, the two analyses of the
    reallocation test (made only past [reallocateAfter]), the whale
    metrics, the partial sells, the volume analysis, and the exit it may
    run. *)
Definition updatePositionA (symbol : string) (obs : TickObs) : AM unit :=
  tryCatchA
    (p <- readObject symbol ;;
     currentPrice <-
       await (getCachedMarketPriceA (tokenMint p) (t_now obs) (t_price obs)) ;;
     b <- atomic get ;;
     let positionAge :=
       t_now obs - startTimeOr (positionStartTimes b !! symbol) (t_now obs) in
     p <- readObject symbol ;;
     let priceChange :=
       JsNum.abs ((currentPrice - entryPrice p) / entryPrice p
                  * lit 100 1)%num in
     if (positionAge >? config.maxHoldingTime)
        && (priceChange <? config.minimumProgress)%num
     then
       await (exitPositionA symbol "sideways_timeout" (t_exit obs))
     else
       reallocate <-
         (if positionAge >? config.reallocateAfter
          then
            oneHour <- await (outside (Returned (t_spikeSideways obs))) ;;
            priceRange <- await (outside (Returned (t_priceRange obs))) ;;
            retA ((oneHour
                   <? lit 1 1 - config.volumeDeclineThreshold / lit 100 1)%num
                  && (priceRange <? config.priceRangeThreshold)%num)
          else retA false) ;;
       if reallocate : bool
       then
         await (exitPositionA symbol "sideways_detected"
                              (t_exit obs))
       else
         distribution <- await (outside (Returned (t_distribution obs))) ;;
         p <- readObject symbol ;;
         if (distribution : bool) && active (trailingStop p)
         then
           await (exitPositionA symbol "whale_distribution"
                                (t_exit obs))
         else
           writeObject symbol (fun p => advanceTrailing p currentPrice) ;;
           p <- readObject symbol ;;
           if active (trailingStop p)
              && (currentPrice <=? currentStop (trailingStop p))%num
           then
             await (exitPositionA symbol "trailing_stop"
                                  (t_exit obs))
           else if (currentPrice <=? stopLoss p)%num
           then
             await (exitPositionA symbol "stop_loss" (t_exit obs))
           else
             takeProfitLevel1A symbol currentPrice (t_sell1 obs) ;;
             takeProfitLevel2A symbol currentPrice (t_sell2 obs) ;;
             oneHour <- await (outside (Returned (t_spike obs))) ;;
             if (oneHour
                 <? lit 1 1
                    - config.exitTriggers_volumeDecline / lit 100 1)%num
             then
               await (exitPositionA symbol "volume_decline"
                                    (t_exit obs))
             else retA tt)
    (atomic (emit (ErrorLogged "Error updating position:"))).

(** A run of calls: a timer or a caller starts a call, which runs up to
    its first await, or a call in flight is resumed and runs up to its
    next. *)
Inductive Move : Type :=
| Start (call : AM unit)
| Resume (index : nat).

Definition move (m : Move) (calls : list (Async unit)) (w : World)
  : list (Async unit) * World :=
  match m with
  | Start call => let (t, w') := call w in (calls ++ [t], w')
  | Resume index =>
      match nth_error calls index with
      | Some t =>
          let (t', w') := resume t w in
          (firstn index calls ++ t' :: skipn (S index) calls, w')
      | None => (calls, w)
      end
  end.

Fixpoint run (moves : list Move) (calls : list (Async unit)) (w : World)
  : list (Async unit) * World :=
  match moves with
  | [] => (calls, w)
  | m :: moves => let (calls', w') := move m calls w in run moves calls' w'
  end.

(** A call run alone: whenever it is suspended it is resumed before
    anything else runs. *)
Fixpoint complete {A : Type} (t : Async A) (w : World) : Outcome A * World :=
  match t with
  | Now o => (o, w)
  | Later step rest => complete (rest w) (step w)
  end.

Definition alone {A : Type} (m : AM A) (w : World) : Outcome A * World :=
  let (t, w') := m w in complete t w'.

Definition isOver {A : Type} (t : Async A) : bool :=
  match t with Now _ => true | Later _ _ => false end.


(** The moves start only ticks and exits. *)
Definition monitoring (m : Move) : Prop :=
  match m with
  | Start call =>
      (exists symbol obs, call = updatePositionA symbol obs)
      \/ (exists symbol reason obs, call = exitPositionA symbol reason obs)
  | Resume _ => True
  end.

(** What calls may do to a position object between two moments.  The
    fields written once at the entry stay as they are; a hit flag that is
    set stays set; an active trailing stop stays active, behind a hit second
    level and the callback below the highest price; and where the quantity
    bought and the remaining quantity are numbers, the first and the shares
    of the levels not negative, the remaining quantity is not raised. *)
Definition unchanged (p p' : Position) : Prop :=
  tokenMint p' = tokenMint p
  /\ entryPrice p' = entryPrice p
  /\ quantity p' = quantity p
  /\ stopLoss p' = stopLoss p
  /\ tp_price (level1 p') = tp_price (level1 p)
  /\ tp_size (level1 p') = tp_size (level1 p)
  /\ tp_price (level2 p') = tp_price (level2 p)
  /\ tp_size (level2 p') = tp_size (level2 p)
  /\ callback (trailingStop p') = callback (trailingStop p).

Definition countable (p : Position) : Prop :=
  exists q s1 s2 r,
    quantity p = Fin q /\ tp_size (level1 p) = Fin s1
    /\ tp_size (level2 p) = Fin s2 /\ remainingQuantity p = Fin r
    /\ (0 <= q)%Q /\ (0 <= s1)%Q /\ (0 <= s2)%Q.

Definition oneWay (p p' : Position) : Prop :=
  unchanged p p'
  /\ hitsKept p p'
  /\ (active (trailingStop p) = true -> active (trailingStop p') = true)
  /\ (trailingArmed p -> trailingArmed p')
  /\ (countable p ->
      countable p'
      /\ (remainingQuantity p' <=? remainingQuantity p)%num = true).

(** Every object of [w] is in [w'], changed one way at most. *)
Definition keepsObjects (w w' : World) : Prop :=
  forall symbol p,
    lookupObject symbol w = Some p ->
    exists p', lookupObject symbol w' = Some p' /\ oneWay p p'.

(** Every position object of the token [mint] has the flag of [level]
    set. *)
Definition levelHit (level : Position -> TakeProfitLevel) (mint : string)
  (w : World) : Prop :=
  forall symbol p,
    lookupObject symbol w = Some p -> tokenMint p = mint ->
    hit (level p) = true.

(** An event that can come in [w]: a partial sell needs a position object
    of its token whose flag for the level is not set; any other event can
    come. *)
Definition sellable (w : World) (e : Event) : Prop :=
  match e with
  | SwapCall TakeProfit1 mint _ => ~ levelHit level1 mint w
  | SwapCall TakeProfit2 mint _ => ~ levelHit level2 mint w
  | _ => True
  end.

(** An event that is no partial sell. *)
Definition plain (e : Event) : Prop :=
  match e with
  | SwapCall TakeProfit1 _ _ | SwapCall TakeProfit2 _ _ => False
  | _ => True
  end.

(** What ticks and exits do between two moments: the objects of [w] are in
    [w'], changed one way at most; [w'] has no other object; and the events
    of [w'] are those of [w] followed by events that can come in [w]. *)
Definition keeps (w w' : World) : Prop :=
  keepsObjects w w'
  /\ (forall symbol p',
        lookupObject symbol w' = Some p' ->
        exists p, lookupObject symbol w = Some p)
  /\ exists l,
       events (bot w') = events (bot w) ++ l /\ List.Forall (sellable w) l.

(** A call in flight is safe from [w0] on: resumed in any world that keeps
    [w0], it keeps that world up to its next await, and is safe from there
    on. *)
Fixpoint safe {A : Type} (t : Async A) (w0 : World) : Prop :=
  match t with
  | Now _ => True
  | Later step rest =>
      forall w, keeps w0 w -> keeps w (step w) /\ safe (rest w) (step w)
  end.

(** A call started in [w] keeps it up to its first await and is safe from
    there on; a safe call does so in whatever world that keeps [w0] it is
    started. *)
Definition safeAt {A : Type} (call : AM A) (w : World) : Prop :=
  keeps w (snd (call w)) /\ safe (fst (call w)) (snd (call w)).

Definition safeCall {A : Type} (call : AM A) (w0 : World) : Prop :=
  forall w, keeps w0 w -> safeAt call w.

(** Two ticks of the sample position, one second apart, that see the price
    at 120, above the first level (115) and below the second (130); every
    call returns and the partial sell succeeds. *)
Definition tickAt (now : Z) : TickObs :=
  {| t_now := now; t_price := Returned (lit 120 1);
     t_spikeSideways := lit 1 1; t_priceRange := lit 5 1;
     t_distribution := false;
     t_sell1 := Returned {| status := success; amountOut := lit 360 1 |};
     t_sell2 := Returned {| status := success; amountOut := lit 0 1 |};
     t_spike := lit 1 1;
     t_exit := exitAt110 |}.

Definition worldOpen : World := {| bot := botOpen; detached := ∅ |}.

Definition firstTick : AM unit :=
  updatePositionA MINT (tickAt 5000).

Definition secondTick : AM unit :=
  updatePositionA MINT (tickAt 6000).

(** The first tick up to the await of its partial sell: it awaits the
    price fetch, its own [getCachedMarketPrice] and the whale metrics,
    tests the level and issues the sell. *)
Definition firstTickToSell : list Move :=
  [Start firstTick; Resume 0%nat; Resume 0%nat; Resume 0%nat].

(** The second tick starts while the first waits for its sell, finds the
    price in the cache, and comes to the await of a sell of its own; then
    the sells return and both ticks run to their end. *)
Definition overlapping : list Move :=
  firstTickToSell
  ++ [Start secondTick; Resume 1%nat; Resume 1%nat]
  ++ [Resume 0%nat; Resume 0%nat; Resume 0%nat]
  ++ [Resume 1%nat; Resume 1%nat; Resume 1%nat].

(** The same two ticks, the second started after the first is over. *)
Definition oneAfterTheOther : list Move :=
  firstTickToSell
  ++ [Resume 0%nat; Resume 0%nat; Resume 0%nat]
  ++ [Start secondTick; Resume 1%nat; Resume 1%nat; Resume 1%nat].

(** The sample position with both levels hit and its trailing stop active
    (highest price 140, stop 133), monitored by two ticks that overlap and
    both fetch the price: the first sees 150 and raises the stop to 142.5,
    the second sees 120, below the stop, and exits. *)
Definition worldTrailing : World := {| bot := botTrailing; detached := ∅ |}.

Definition trailingTicks : list Move :=
  [Start (updatePositionA MINT tickAt150);
   Start (updatePositionA MINT (tickAt 9500));
   Resume 0%nat; Resume 1%nat; Resume 0%nat; Resume 1%nat;
   Resume 0%nat; Resume 1%nat; Resume 0%nat; Resume 1%nat;
   Resume 0%nat; Resume 1%nat; Resume 0%nat; Resume 1%nat;
   Resume 1%nat; Resume 1%nat].

End Overlap.

(** * Theorems *)

(** ** Circuit breaker *)

Module CircuitBreakerFacts.
Import CircuitBreaker.

Lemma circuitOf_setCircuit (source : Source) (c : Circuit)
  (cs : CircuitStates) : circuitOf source (setCircuit source c cs) = c.
Proof. destruct source; reflexivity. Qed.

Lemma setCircuit_same (source : Source) (cs : CircuitStates) :
  setCircuit source (circuitOf source cs) cs = cs.
Proof. destruct source, cs; reflexivity. Qed.

Lemma circuitOf_check (source : Source) (now : Z) (cs : CircuitStates) :
  circuitOf source (snd (checkCircuitBreaker source now cs))
  = snd (checkCircuit now (circuitOf source cs)).
Proof.
  unfold checkCircuitBreaker.
  destruct (checkCircuit now (circuitOf source cs)) as [ok c]; simpl.
  apply circuitOf_setCircuit.
Qed.

Lemma fst_check (source : Source) (now : Z) (cs : CircuitStates) :
  fst (checkCircuitBreaker source now cs)
  = fst (checkCircuit now (circuitOf source cs)).
Proof.
  unfold checkCircuitBreaker.
  destruct (checkCircuit now (circuitOf source cs)); reflexivity.
Qed.

Lemma circuitOf_record (source : Source) (success : bool) (now : Z)
  (cs : CircuitStates) :
  circuitOf source (recordApiResult source success now cs)
  = recordResult success now (circuitOf source cs).
Proof. apply circuitOf_setCircuit. Qed.

(** A recorded failure that brings the count to the threshold opens the
    circuit, whatever its state was. *)
Lemma failure_opens (now : Z) (c : Circuit) :
  (failureThreshold <= S (failures c))%nat ->
  state (recordResult false now c) = open.
Proof.
  intros H. unfold recordResult. cbn [state].
  destruct (Nat.leb_spec failureThreshold (S (failures c))); [reflexivity|lia].
Qed.

Lemma failure_counts (now : Z) (c : Circuit) :
  failures (recordResult false now c) = S (failures c).
Proof. reflexivity. Qed.

Lemma three_failures_open (t1 t2 t3 : Z) (c : Circuit) :
  state (recordResult false t3 (recordResult false t2 (recordResult false t1 c)))
  = open.
Proof.
  apply failure_opens. rewrite !failure_counts. unfold failureThreshold. lia.
Qed.

Lemma open_rejects (now : Z) (c : Circuit) :
  state c = open -> now - lastFailure c < resetTimeout ->
  checkCircuit now c = (false, c).
Proof.
  intros Hs Ht. unfold checkCircuit. rewrite Hs. cbn [isOpen].
  destruct (Z.geb_spec (now - lastFailure c) resetTimeout); [lia|reflexivity].
Qed.

Lemma open_cooled_down (now : Z) (c : Circuit) :
  state c = open -> resetTimeout <= now - lastFailure c ->
  checkCircuit now c =
  (true, {| failures := failures c; lastFailure := lastFailure c;
            state := half_open; attempts := 0 |}).
Proof.
  intros Hs Ht. unfold checkCircuit. rewrite Hs. cbn [isOpen].
  destruct (Z.geb_spec (now - lastFailure c) resetTimeout); [reflexivity|lia].
Qed.

Lemma half_open_exhausted (now : Z) (c : Circuit) :
  state c = half_open -> (halfOpenMaxAttempts <= attempts c)%nat ->
  checkCircuit now c =
  (false, {| failures := failures c; lastFailure := lastFailure c;
             state := open; attempts := attempts c |}).
Proof.
  intros Hs Ha. unfold checkCircuit. rewrite Hs. cbn [isOpen].
  rewrite Hs. cbn [isHalfOpen andb].
  destruct (Nat.leb_spec halfOpenMaxAttempts (attempts c)); [reflexivity|lia].
Qed.

Lemma half_open_two_failures (t1 t2 : Z) (c : Circuit) :
  state c = half_open ->
  let c2 := recordResult false t2 (recordResult false t1 c) in
  state c2 = open \/
  (state c2 = half_open /\ (halfOpenMaxAttempts <= attempts c2)%nat).
Proof.
  intros Hs. cbv zeta.
  destruct (Nat.leb_spec failureThreshold (S (S (failures c)))) as [H2|H2].
  - left. apply failure_opens. rewrite failure_counts. exact H2.
  - right. unfold recordResult. rewrite Hs.
    cbn [failures state attempts isHalfOpen].
    destruct (Nat.leb_spec failureThreshold (S (failures c))); [lia|].
    cbn [isHalfOpen].
    destruct (Nat.leb_spec failureThreshold (S (S (failures c)))); [lia|].
    split; [reflexivity|unfold halfOpenMaxAttempts; lia].
Qed.

(** C4: with [failureThreshold = 3], three consecutive recorded failures
    take a closed circuit to open (two do not, from a fresh circuit); while
    open and before [resetTimeout] has elapsed since the last failure a
    request is rejected, the circuits are untouched and the guarded fetch
    issues no upstream call; once [resetTimeout] has elapsed the check lets
    the request through in half-open; a recorded success in half-open closes
    the circuit; and with [halfOpenMaxAttempts] attempts made in half-open
    without a success the circuit is open again. *)
Theorem circuit_breaker_transitions (source : Source) :
  (forall cs t1 t2 t3,
      state (circuitOf source cs) = closed ->
      state (circuitOf source
               (run source
                  [Record false t1; Record false t2; Record false t3] cs))
      = open)
  /\ (forall cs t1 t2,
      state (circuitOf source cs) = closed ->
      failures (circuitOf source cs) = 0%nat ->
      state (circuitOf source
               (run source [Record false t1; Record false t2] cs))
      = closed)
  /\ (forall cs now,
      state (circuitOf source cs) = open ->
      now - lastFailure (circuitOf source cs) < resetTimeout ->
      checkCircuitBreaker source now cs = (false, cs))
  /\ (forall (rest : CircuitStates -> FetchRun unit) cs now,
      state (circuitOf binance cs) = open ->
      now - lastFailure (circuitOf binance cs) < resetTimeout ->
      fetchBinanceHistory now rest cs = mkFetchRun None [] cs)
  /\ (forall cs now,
      state (circuitOf source cs) = open ->
      resetTimeout <= now - lastFailure (circuitOf source cs) ->
      fst (checkCircuitBreaker source now cs) = true /\
      state (circuitOf source (snd (checkCircuitBreaker source now cs)))
      = half_open)
  /\ (forall cs now,
      state (circuitOf source cs) = half_open ->
      state (circuitOf source (recordApiResult source true now cs)) = closed)
  /\ (forall cs now,
      state (circuitOf source cs) = half_open ->
      (halfOpenMaxAttempts <= attempts (circuitOf source cs))%nat ->
      fst (checkCircuitBreaker source now cs) = false /\
      state (circuitOf source (snd (checkCircuitBreaker source now cs)))
      = open)
  /\ (forall cs t1 t2 now,
      state (circuitOf source cs) = half_open ->
      let cs2 := run source [Record false t1; Record false t2] cs in
      state (circuitOf source cs2) = open \/
      (fst (checkCircuitBreaker source now cs2) = false /\
       state (circuitOf source (snd (checkCircuitBreaker source now cs2)))
       = open)).
Proof.
  repeat split.
  - intros cs t1 t2 t3 _. cbn [run fold_left step].
    rewrite !circuitOf_record. apply three_failures_open.
  - intros cs t1 t2 Hs Hf. cbn [run fold_left step].
    rewrite !circuitOf_record. unfold recordResult.
    rewrite Hs, Hf. reflexivity.
  - intros cs now Hs Ht. unfold checkCircuitBreaker.
    rewrite (open_rejects now _ Hs Ht). now rewrite setCircuit_same.
  - intros rest cs now Hs Ht. unfold fetchBinanceHistory, checkCircuitBreaker.
    rewrite (open_rejects now _ Hs Ht). cbn [negb].
    now rewrite setCircuit_same.
  - rewrite fst_check, (open_cooled_down now _ H H0). reflexivity.
  - rewrite circuitOf_check, (open_cooled_down now _ H H0). reflexivity.
  - intros cs now Hs. rewrite circuitOf_record. unfold recordResult.
    cbn [state]. now rewrite Hs.
  - rewrite fst_check, (half_open_exhausted now _ H H0). reflexivity.
  - rewrite circuitOf_check, (half_open_exhausted now _ H H0). reflexivity.
  - intros cs t1 t2 now Hs. cbv zeta. cbn [run fold_left step].
    rewrite fst_check, circuitOf_check, !circuitOf_record.
    destruct (half_open_two_failures t1 t2 _ Hs) as [Ho|[Hh Ha]].
    + now left.
    + right. rewrite (half_open_exhausted now _ Hh Ha). now split.
Qed.

Lemma circuit_breaker_transitions_witness :
  state (circuitOf binance csOpen) = open
  /\ state (circuitOf binance
              (run binance [Record false 0; Record false 1] circuitStates0))
     = closed
  /\ checkCircuitBreaker binance 300001 csOpen = (false, csOpen)
  /\ fetchBinanceHistory 300001
       (fun cs => mkFetchRun (Some tt) ["klines"%string] cs) csOpen
     = mkFetchRun None [] csOpen
  /\ (fst (checkCircuitBreaker binance 300002 csOpen) = true /\
      state (circuitOf binance (snd (checkCircuitBreaker binance 300002 csOpen)))
      = half_open)
  /\ state (circuitOf binance (recordApiResult binance true 300003 csHalfOpen))
     = closed
  /\ (fst (checkCircuitBreaker binance 300005 csExhausted) = false /\
      state (circuitOf binance
               (snd (checkCircuitBreaker binance 300005 csExhausted)))
      = open)
  /\ (let cs2 := run binance [Record false 300003; Record false 300004]
                   csHalfOpen in
      state (circuitOf binance cs2) = open \/
      (fst (checkCircuitBreaker binance 300005 cs2) = false /\
       state (circuitOf binance (snd (checkCircuitBreaker binance 300005 cs2)))
       = open)).
Proof.
  destruct (circuit_breaker_transitions binance)
    as (H1 & H2 & H3 & H4 & H5 & H6 & H7 & H8).
  split; [apply (H1 circuitStates0 0 1 2); reflexivity|].
  split; [apply (H2 circuitStates0 0 1); reflexivity|].
  split; [apply (H3 csOpen 300001); [reflexivity|vm_compute; reflexivity]|].
  split; [apply (H4 _ csOpen 300001); [reflexivity|vm_compute; reflexivity]|].
  split; [apply (H5 csOpen 300002); [reflexivity|vm_compute; discriminate]|].
  split; [apply (H6 csHalfOpen 300003); reflexivity|].
  split; [apply (H7 csExhausted 300005); [reflexivity|vm_compute; lia]|].
  apply (H8 csHalfOpen 300003 300004 300005); reflexivity.
Defined.

(** C5, as stated, fails: leaving half-open for open keeps the attempts
    counter.  At [csExhausted] the breaker is half-open with two attempts;
    the next check reopens it and the counter still reads two.  Also the
    first failure after the cooldown reopens the circuit with the counter
    at one. *)
Lemma attempts_kept_on_reopen :
  ~ (forall source cs e,
        reachable source cs ->
        state (circuitOf source cs) = half_open ->
        state (circuitOf source (step source cs e)) <> half_open ->
        attempts (circuitOf source (step source cs e)) = 0%nat).
Proof.
  intros H.
  specialize (H binance csExhausted (Check 300005)).
  assert (Hr : reachable binance csExhausted) by (eexists; reflexivity).
  specialize (H Hr eq_refl).
  assert (Hne : state (circuitOf binance (step binance csExhausted (Check 300005)))
                <> half_open) by (vm_compute; discriminate).
  specialize (H Hne). vm_compute in H. discriminate.
Qed.

(** C5, amended: the attempts counter is zero after half-open -> closed
    and after every entry into half-open; on half-open -> open it is not
    reset: the check that finds [halfOpenMaxAttempts] reached leaves it as
    it is, and the failure that reopens the circuit has incremented it. *)
Theorem attempts_reset_points (source : Source) (cs : CircuitStates)
  (e : Event) :
  let c := circuitOf source cs in
  let c' := circuitOf source (step source cs e) in
  (state c = half_open -> state c' = closed -> attempts c' = 0%nat)
  /\ (state c <> half_open -> state c' = half_open -> attempts c' = 0%nat)
  /\ (state c = half_open -> state c' = open ->
      match e with
      | Check _ => attempts c' = attempts c
                   /\ (halfOpenMaxAttempts <= attempts c)%nat
      | Record _ _ => attempts c' = S (attempts c)
      end).
Proof.
  cbv zeta. destruct e as [now|success now]; cbn [step].
  - rewrite circuitOf_check. unfold checkCircuit.
    destruct (circuitOf source cs) as [f l s a].
    cbn [state attempts lastFailure failures].
    destruct s; cbn [isOpen isHalfOpen andb snd state attempts].
    + repeat split; intros; congruence.
    + destruct (now - l >=? resetTimeout);
        cbn [isHalfOpen andb snd state attempts].
      * change (halfOpenMaxAttempts <=? 0)%nat with false.
        cbn [snd state attempts]. repeat split; intros; congruence.
      * repeat split; intros; congruence.
    + destruct (Nat.leb_spec halfOpenMaxAttempts a);
        cbn [snd state attempts]; repeat split; intros;
        try congruence; auto.
  - rewrite circuitOf_record. unfold recordResult.
    destruct (circuitOf source cs) as [f l s a].
    cbn [state attempts lastFailure failures].
    destruct success; cbn [state attempts].
    + repeat split; intros; try congruence.
      destruct s; cbn [isHalfOpen] in *; congruence.
    + destruct (failureThreshold <=? S f)%nat; destruct s;
        cbn [isHalfOpen state attempts]; repeat split; intros; congruence.
Qed.

Lemma attempts_reset_points_witness :
  attempts (circuitOf binance (step binance csHalfOpen (Record true 300003)))
  = 0%nat
  /\ attempts (circuitOf binance (step binance csOpen (Check 300002))) = 0%nat
  /\ (attempts (circuitOf binance (step binance csExhausted (Check 300005)))
      = attempts (circuitOf binance csExhausted)
      /\ (halfOpenMaxAttempts <= attempts (circuitOf binance csExhausted))%nat).
Proof.
  split; [|split].
  - destruct (attempts_reset_points binance csHalfOpen (Record true 300003))
      as (H & _ & _).
    apply H; reflexivity.
  - destruct (attempts_reset_points binance csOpen (Check 300002))
      as (_ & H & _).
    apply H; [vm_compute; discriminate|reflexivity].
  - destruct (attempts_reset_points binance csExhausted (Check 300005))
      as (_ & _ & H).
    apply H; reflexivity.
Defined.

End CircuitBreakerFacts.

(** ** JavaScript numbers: operations respect numeric identity *)

Module JsNumFacts.

#[export] Instance same_Equivalence : Equivalence same.
Proof.
  split.
  - intros [q| | |]; simpl; auto. reflexivity.
  - intros [x| | |] [y| | |]; simpl; auto. intros H; now symmetry.
  - intros [x| | |] [y| | |] [z| | |]; simpl; auto; try contradiction.
    intros H1 H2; now transitivity y.
Qed.

Ltac num_cases :=
  repeat match goal with
         | a : num |- _ => destruct a
         end;
  cbn [same] in *; try contradiction; try exact I.

#[export] Instance neg_Proper : Proper (same ==> same) neg.
Proof.
  intros a a' Ha. num_cases. cbn [neg same]. now rewrite Ha.
Qed.

#[export] Instance add_Proper : Proper (same ==> same ==> same) add.
Proof.
  intros a a' Ha b b' Hb. num_cases. cbn [add same]. now rewrite Ha, Hb.
Qed.

#[export] Instance sub_Proper : Proper (same ==> same ==> same) sub.
Proof.
  intros a a' Ha b b' Hb. unfold sub. now rewrite Ha, Hb.
Qed.

Lemma inf_of_same (c : comparison) : same (inf_of c) (inf_of c).
Proof. reflexivity. Qed.

#[export] Instance mul_Proper : Proper (same ==> same ==> same) mul.
Proof.
  intros a a' Ha b b' Hb. num_cases; cbn [mul same];
    try (rewrite Ha; reflexivity); try (rewrite Hb; reflexivity).
  now rewrite Ha, Hb.
Qed.

#[export] Instance div_Proper : Proper (same ==> same ==> same) div.
Proof.
  intros a a' Ha b b' Hb.
  destruct a as [x| | |], a' as [x'| | |]; cbn [same] in Ha;
    try contradiction;
    destruct b as [y| | |], b' as [y'| | |]; cbn [same] in Hb;
    try contradiction; cbn [div same]; try reflexivity;
    try (rewrite Hb; reflexivity).
  assert (E : Qeq_bool y 0 = Qeq_bool y' 0) by now rewrite Hb.
  rewrite E. destruct (Qeq_bool y' 0).
  - assert (E' : (x ?= 0)%Q = (x' ?= 0)%Q) by now rewrite Ha.
    rewrite E'. reflexivity.
  - cbn [same]. now rewrite Ha, Hb.
Qed.

#[export] Instance lt_Proper : Proper (same ==> same ==> eq) lt.
Proof.
  intros a a' Ha b b' Hb. num_cases; cbn [lt]; try reflexivity.
  now rewrite Ha, Hb.
Qed.

#[export] Instance eqb_Proper : Proper (same ==> same ==> eq) eqb.
Proof.
  intros a a' Ha b b' Hb. num_cases; cbn [eqb]; try reflexivity.
  now rewrite Ha, Hb.
Qed.

#[export] Instance le_Proper : Proper (same ==> same ==> eq) le.
Proof.
  intros a a' Ha b b' Hb. unfold le. now rewrite Ha, Hb.
Qed.

#[export] Instance gt_Proper : Proper (same ==> same ==> eq) gt.
Proof.
  intros a a' Ha b b' Hb. unfold gt. now rewrite Ha, Hb.
Qed.

#[export] Instance ge_Proper : Proper (same ==> same ==> eq) ge.
Proof.
  intros a a' Ha b b' Hb. unfold ge. now rewrite Ha, Hb.
Qed.

#[export] Instance min_Proper : Proper (same ==> same ==> same) min.
Proof.
  intros a a' Ha b b' Hb.
  assert (Hlt : lt b a = lt b' a') by now rewrite Ha, Hb.
  destruct a, a', b, b'; cbn [same] in Ha, Hb; try contradiction;
    cbn [min]; try exact I; try rewrite Hlt; clear Hlt;
    try match goal with
        | |- context [if ?c then _ else _] => destruct c
        end; cbn [same]; auto.
Qed.

#[export] Instance max_Proper : Proper (same ==> same ==> same) max.
Proof.
  intros a a' Ha b b' Hb.
  assert (Hlt : lt a b = lt a' b') by now rewrite Ha, Hb.
  destruct a, a', b, b'; cbn [same] in Ha, Hb; try contradiction;
    cbn [max]; try exact I; try rewrite Hlt; clear Hlt;
    try match goal with
        | |- context [if ?c then _ else _] => destruct c
        end; cbn [same]; auto.
Qed.

End JsNumFacts.

(** ** Position sizer *)

Module SizerFacts.
Import Sizer JsNumFacts.

Lemma lit_same (n : Z) (d : positive) : (lit n d ~= lit n d)%num.
Proof. reflexivity. Qed.

Lemma getConfidenceMultiplier_same (c1 c2 : PositionSizeConfig)
  (x1 x2 : num) :
  sameConfig c1 c2 -> (x1 ~= x2)%num ->
  (getConfidenceMultiplier c1 x1 ~= getConfidenceMultiplier c2 x2)%num.
Proof.
  intros (_ & _ & _ & _ & Hl & Hm & Hh) Hx. unfold getConfidenceMultiplier.
  assert (E8 : (x1 >=? lit 8 10)%num = (x2 >=? lit 8 10)%num)
    by now rewrite Hx.
  assert (E6 : (x1 >=? lit 6 10)%num = (x2 >=? lit 6 10)%num)
    by now rewrite Hx.
  rewrite E8, E6.
  destruct (x2 >=? lit 8 10)%num; [exact Hh|].
  destruct (x2 >=? lit 6 10)%num; [exact Hm|exact Hl].
Qed.

Lemma applyStrategyAdjustments_same (s1 s2 : num) (strategy : string) :
  (s1 ~= s2)%num ->
  (applyStrategyAdjustments s1 strategy
   ~= applyStrategyAdjustments s2 strategy)%num.
Proof.
  intros Hs. unfold applyStrategyAdjustments.
  repeat match goal with
         | |- context [if ?c then _ else _] => destruct c
         end; try (now rewrite Hs); exact Hs.
Qed.

(** The worked scenario: base 20, high regime (0.7), high confidence (1.0),
    a predicted rise in volatility (0.5) and the trend adjustment (1.2)
    give 8.4, below both caps. *)
Example calculatePositionSize_example :
  sameResult (calculatePositionSize exampleConfig exampleParams)
             {| size := lit 84 10; adjustedRisk := lit 84 1000 |}.
Proof. split; vm_compute; reflexivity. Qed.

(** C8: the sizer is deterministic.  Two calls whose configuration and
    arguments (volatility forecast, confidence, price, strategy) hold the
    same values return the same [size] and the same [adjustedRisk]: the
    result is a function of those values alone. *)
Theorem calculatePositionSize_deterministic
  (c1 c2 : PositionSizeConfig) (p1 p2 : Params) :
  sameConfig c1 c2 -> sameParams p1 p2 ->
  sameResult (calculatePositionSize c1 p1) (calculatePositionSize c2 p2).
Proof.
  intros Hc Hp.
  pose proof Hc as (Hbase & Hmax & Hacc & Hrisk & _).
  destruct Hp as ((Hreg & Hpred & Hcur & _) & Hconf & _ & Hstr).
  pose proof (getConfidenceMultiplier_same c1 c2 _ _ Hc Hconf) as Hcm.
  unfold calculatePositionSize. cbv zeta.
  rewrite <- Hreg, <- Hstr.
  assert (Hgt : (predictedVolatility (volatilityForecast p1)
                 >? currentVolatility (volatilityForecast p1))%num
                = (predictedVolatility (volatilityForecast p2)
                   >? currentVolatility (volatilityForecast p2))%num)
    by now rewrite Hpred, Hcur.
  rewrite <- Hgt.
  set (s1 := applyStrategyAdjustments _ _).
  set (s2 := applyStrategyAdjustments _ _).
  assert (Hs : (s1 ~= s2)%num).
  { subst s1 s2. apply applyStrategyAdjustments_same.
    destruct (_ >? _)%num.
    - now rewrite Hbase, Hcm, Hpred, Hcur.
    - now rewrite Hbase, Hcm. }
  assert (Hsize :
    (JsNum.min
       (JsNum.min s1
          (accountSize c1 * (riskPerTrade c1 / lit 100 1)
           / (currentVolatility (volatilityForecast p1) / lit 100 1)))
       (maxSize c1)
     ~= JsNum.min
          (JsNum.min s2
             (accountSize c2 * (riskPerTrade c2 / lit 100 1)
              / (currentVolatility (volatilityForecast p2) / lit 100 1)))
          (maxSize c2))%num)
    by now rewrite Hs, Hacc, Hrisk, Hcur, Hmax.
  split; cbn [size adjustedRisk].
  - exact Hsize.
  - now rewrite Hsize, Hacc.
Qed.

Lemma calculatePositionSize_deterministic_witness :
  sameResult (calculatePositionSize exampleConfig exampleParams)
             (calculatePositionSize exampleConfig exampleParams').
Proof.
  apply (calculatePositionSize_deterministic
           exampleConfig exampleConfig exampleParams exampleParams').
  - repeat split; reflexivity.
  - repeat split; reflexivity.
Defined.

End SizerFacts.

(** ** Signal aggregator *)

Module AggregatorFacts.
Import Aggregator.

Lemma insertBy_Permutation {A : Type} (cmp : A -> A -> num) (x : A)
  (l : list A) : Permutation (insertBy cmp x l) (x :: l).
Proof.
  induction l as [|y rest IH]; cbn [insertBy].
  - apply Permutation_refl.
  - destruct (cmp x y >? lit 0 1)%num.
    + eapply perm_trans; [apply perm_skip, IH|apply perm_swap].
    + apply Permutation_refl.
Qed.

Lemma sortBy_Permutation {A : Type} (cmp : A -> A -> num) (l : list A) :
  Permutation (sortBy cmp l) l.
Proof.
  induction l as [|x rest IH]; cbn [sortBy fold_right].
  - apply perm_nil.
  - eapply perm_trans; [apply insertBy_Permutation|apply perm_skip, IH].
Qed.

(** Grouping loses no signal. *)
Lemma pushSignal_new (k : string) (signal : TradeSignal) (g : SignalGroups) :
  exists group, In (k, group) (pushSignal k signal g) /\ In signal group.
Proof.
  induction g as [|[k' group'] rest IH]; cbn [pushSignal].
  - exists [signal]. split; left; reflexivity.
  - destruct (String.eqb_spec k' k) as [->|Hne].
    + exists (group' ++ [signal]). split; [left; reflexivity|].
      apply in_or_app. right. left. reflexivity.
    + destruct IH as (group & Hin & Hs). exists group. split; [right|]; auto.
Qed.

Lemma pushSignal_old (k : string) (signal : TradeSignal) (g : SignalGroups)
  (k0 : string) (group0 : list TradeSignal) (x : TradeSignal) :
  In (k0, group0) g -> In x group0 ->
  exists group, In (k0, group) (pushSignal k signal g) /\ In x group.
Proof.
  induction g as [|[k' group'] rest IH]; cbn [pushSignal]; intros Hin Hx.
  - destruct Hin.
  - destruct (String.eqb_spec k' k) as [->|Hne].
    + destruct Hin as [E|Hin].
      * inversion E; subst. exists (group0 ++ [signal]).
        split; [left; reflexivity|]. apply in_or_app. now left.
      * exists group0. split; [right|]; auto.
    + destruct Hin as [E|Hin].
      * exists group0. split; [left|]; auto.
      * destruct (IH Hin Hx) as (group & H1 & H2).
        exists group. split; [right|]; auto.
Qed.

Lemma grouping_keeps (signals : list TradeSignal) (g : SignalGroups)
  (x : TradeSignal) :
  In x signals \/
  (exists group, In (strategy x, group) g /\ In x group) ->
  exists group,
    In (strategy x, group)
       (fold_left (fun g signal => pushSignal (strategy signal) signal g)
                  signals g)
    /\ In x group.
Proof.
  revert g. induction signals as [|s rest IH]; intros g H; cbn [fold_left].
  - destruct H as [[]|H]. exact H.
  - apply IH. destruct H as [[->|Hin]|(group & H1 & H2)].
    + right. apply pushSignal_new.
    + now left.
    + right. eapply pushSignal_old; eauto.
Qed.

Lemma groupSignalsByStrategy_keeps (signals : list TradeSignal)
  (x : TradeSignal) :
  In x signals ->
  exists group,
    In (strategy x, group) (groupSignalsByStrategy signals) /\ In x group.
Proof. intros H. apply grouping_keeps. now left. Qed.

Lemma filterAndRankSignals_group
  (load : string -> option (list StoredPosition)) (grouped : SignalGroups)
  (k : string) (group : list TradeSignal) :
  In (k, group) grouped ->
  In (k, filterGroup (load k) k group) (filterAndRankSignals load grouped).
Proof.
  intros H. unfold filterAndRankSignals.
  apply (in_map (fun '(strategy, signals) =>
                   (strategy, filterGroup (load strategy) strategy signals))
                grouped (k, group) H).
Qed.

Lemma clampConfidence_floor (s : TradeSignal) :
  (confidence (clampConfidence s) >=? lit 10 100)%num = true.
Proof.
  unfold clampConfidence. cbn [confidence withConfidence].
  destruct (confidence s >=? lit 10 100)%num eqn:E; [exact E|reflexivity].
Qed.

Lemma clampConfidence_above (s : TradeSignal) :
  (confidence s >=? lit 10 100)%num = true -> clampConfidence s = s.
Proof.
  intros E. unfold clampConfidence. rewrite E. now destruct s.
Qed.

Lemma clampConfidence_symbol (s : TradeSignal) :
  symbol (clampConfidence s) = symbol s.
Proof. reflexivity. Qed.

Lemma rankGroup_Permutation (loaded : option (list StoredPosition))
  (group : list TradeSignal) :
  Permutation (rankGroup loaded group)
    (List.filter (fun s => negb (hasOpen (openPositions loaded) s))
                 (map clampConfidence group)).
Proof. apply sortBy_Permutation. Qed.

Lemma rankGroup_keeps (loaded : option (list StoredPosition))
  (group : list TradeSignal) (s : TradeSignal) :
  In s group -> hasOpen (openPositions loaded) s = false ->
  In (clampConfidence s) (rankGroup loaded group).
Proof.
  intros Hin Hopen.
  eapply Permutation_in; [symmetry; apply rankGroup_Permutation|].
  apply filter_In. split; [now apply in_map|].
  unfold hasOpen in *. rewrite clampConfidence_symbol, Hopen. reflexivity.
Qed.

Lemma cut_by_cap {A : Type} (n : nat) (l : list A) (x : A) :
  In x l -> ~ In x (firstn n l) -> (n < length l)%nat.
Proof.
  intros Hin Hout.
  destruct (Nat.lt_ge_cases n (length l)) as [H|H]; [exact H|].
  exfalso. apply Hout. now rewrite firstn_all2.
Qed.

(** C7, as stated, fails on the whale group: a whale signal of confidence
    0.5 whose symbol has no open position, alone in its group, is dropped;
    nothing is clamped there. *)
Lemma whale_dropped_for_low_confidence :
  filterAndRankSignals (fun _ => None) (groupSignalsByStrategy [whaleLow])
  = [("whale"%string, [])]
  /\ ~ clampedNotDropped (fun _ => None) [whaleLow] whaleLow.
Proof.
  split; [reflexivity|].
  intros (group & Hg & _ & Hout & _).
  destruct Hg as [E|[]]. inversion E; subst group. clear E.
  destruct Hout as [E|[]]. vm_compute in E. discriminate E.
Qed.

(** C7, amended: in every strategy group other than whale, confidence is
    clamped up to the 0.10 floor and no signal is dropped for low
    confidence: the clamped copy of a signal is in the ranking of its group
    unless its symbol has an open position, and it is in the output unless
    the per-strategy cap cuts the ranking.  (The whale group instead keeps
    exactly the signals of confidence above 0.7, see
    [whale_group_threshold].) *)
Theorem non_whale_signals_clamped_not_dropped
  (load : string -> option (list StoredPosition))
  (signals : list TradeSignal) (s : TradeSignal) :
  In s signals -> strategy s <> "whale"%string ->
  clampedNotDropped load signals s.
Proof.
  intros Hin Hnw. unfold clampedNotDropped. cbv zeta.
  destruct (groupSignalsByStrategy_keeps signals s Hin) as (group & Hg & Hs).
  exists group. split; [exact Hg|]. split; [exact Hs|].
  split.
  - pose proof (filterAndRankSignals_group load _ _ _ Hg) as H.
    unfold filterGroup in H.
    destruct (String.eqb_spec (strategy s) "whale"); [contradiction|exact H].
  - split; [apply rankGroup_Permutation|].
    split; [apply clampConfidence_floor|].
    intros Hopen.
    pose proof (rankGroup_keeps (load (strategy s)) group s Hs Hopen) as Hr.
    split; [exact Hr|].
    destruct (Nat.lt_ge_cases (maxSignals (strategy s))
                (length (rankGroup (load (strategy s)) group))) as [H|H].
    + now right.
    + left. now rewrite firstn_all2.
Qed.

Lemma non_whale_signals_clamped_not_dropped_witness :
  clampedNotDropped sampleStore [whaleLow; trendLow; trendHeld] trendLow.
Proof.
  apply (non_whale_signals_clamped_not_dropped
           sampleStore [whaleLow; trendLow; trendHeld] trendLow).
  - right; left; reflexivity.
  - discriminate.
Defined.

(** The whale group: only the signals of confidence above 0.7 survive. *)
Lemma whale_group_threshold
  (load : string -> option (list StoredPosition))
  (grouped : SignalGroups) (group : list TradeSignal) :
  In ("whale"%string, group) grouped ->
  In ("whale"%string,
      List.filter (fun signal => (confidence signal >? lit 7 10)%num) group)
     (filterAndRankSignals load grouped).
Proof.
  intros H. apply (filterAndRankSignals_group load) in H. exact H.
Qed.

(** The sample run: the low-confidence trend signal comes out clamped to
    0.10, the trend signal whose symbol is held is removed. *)
Example filterAndRankSignals_sample :
  filterAndRankSignals sampleStore
    (groupSignalsByStrategy [whaleLow; trendLow; trendHeld])
  = [("whale"%string, []);
     ("trend"%string, [withConfidence trendLow (lit 10 100)])].
Proof. reflexivity. Qed.

End AggregatorFacts.

(** ** Trading bot *)

Module BotFacts.
Import Bot.

Example botOpen_position : positions botOpen !! MINT = Some samplePosition.
Proof. vm_compute. reflexivity. Qed.

Lemma has_false {V : Type} (m : gmap string V) (k : string) :
  has m k = false -> m !! k = None.
Proof. unfold has. now destruct (m !! k). Qed.

Lemma has_true {V : Type} (m : gmap string V) (k : string) :
  has m k = true -> exists v, m !! k = Some v.
Proof. unfold has. destruct (m !! k) as [v|]; [eauto|discriminate]. Qed.

(** [getCachedMarketPrice] touches nothing but the price cache. *)
Lemma getCachedMarketPrice_positions (tokenMint : string) (now : Z)
  (fetched : Outcome num) (b : TradingBot) :
  let r := getCachedMarketPrice tokenMint now fetched b in
  positions (snd r) = positions b
  /\ positionStartTimes (snd r) = positionStartTimes b
  /\ events (snd r) = events b
  /\ totalPnL (snd r) = totalPnL b
  /\ dailyStats (snd r) = dailyStats b
  /\ isRunning (snd r) = isRunning b
  /\ shutdownRequested (snd r) = shutdownRequested b.
Proof.
  unfold getCachedMarketPrice, bind, get, await, modify, ret. cbn.
  destruct (marketPriceCache b !! tokenMint) as [[price ts]|].
  - destruct (now - ts <? 3000); [cbn; auto 10|].
    destruct fetched; cbn; auto 10.
  - destruct fetched; cbn; auto 10.
Qed.

(** Unfolds a method down to matches on the answers of the outside. *)
Ltac unfold_methods :=
  unfold exec, priceOutcome, evaluateSignal, exitPosition, updateBotStatus,
    logBotStatus, takeProfitLevels, takeProfitLevel1, takeProfitLevel2,
    executeSell, swap, mutate, getCachedMarketPrice, tryCatch, settle, emit,
    bind, get, await, modify, ret.

Ltac split_answers :=
  repeat (match goal with
          | |- context [match ?x with _ => _ end] =>
              lazymatch x with
              | context [match _ with _ => _ end] => fail
              | _ => destruct x eqn:?
              end
          end; cbn in *; try discriminate; try congruence).

(** The table after [evaluateSignal], in closed form. *)
Lemma evaluateSignal_positions (signal : Aggregator.TradeSignal)
  (obs : EntryObs) (b : TradingBot) :
  positions (exec (evaluateSignal signal obs) b)
  = if entryBlocked signal obs b then positions b
    else match priceOutcome (Aggregator.symbol signal) (e_now obs)
                 (e_price obs) b, e_swap obs with
         | Returned price, Returned r =>
             <[Aggregator.symbol signal :=
                 newPosition signal (Aggregator.symbol signal) price r
                             (e_now obs)]> (positions b)
         | _, _ => positions b
         end.
Proof.
  unfold entryBlocked. unfold_methods. cbn.
  split_answers; reflexivity.
Qed.

(** C9: the position table gains an entry only when the entry swap returns
    status success.  If a position is already open for the symbol, a
    pre-entry check fails (unsafe liquidity, whale distribution), an error
    is thrown (by the mint, the liquidity analysis, the price fetch or the
    swap) or the swap returns another status, [evaluateSignal] leaves the
    table as it was; otherwise the table gains exactly the new position,
    built from the returned swap. *)
Theorem evaluateSignal_enters_only_on_success
  (signal : Aggregator.TradeSignal) (obs : EntryObs) (b : TradingBot) :
  let b' := exec (evaluateSignal signal obs) b in
  (entryBlocked signal obs b = true -> positions b' = positions b)
  /\ (entryBlocked signal obs b = false ->
      exists price r,
        e_swap obs = Returned r /\ status r = success
        /\ positions b !! Aggregator.symbol signal = None
        /\ positions b'
           = <[Aggregator.symbol signal :=
                 newPosition signal (Aggregator.symbol signal) price r
                             (e_now obs)]> (positions b))
  /\ (positions b' <> positions b ->
      exists r, e_swap obs = Returned r /\ status r = success).
Proof.
  cbv zeta. rewrite evaluateSignal_positions.
  destruct (entryBlocked signal obs b) eqn:E.
  - split; [reflexivity|]. split; [discriminate|].
    intros H. now contradiction H.
  - unfold entryBlocked in E.
    repeat (apply orb_false_elim in E; destruct E as [E ?]).
    destruct (priceOutcome _ _ _ b) as [price|]; [|discriminate].
    destruct (e_swap obs) as [r|]; [|discriminate].
    assert (Hs : status r = success)
      by (destruct (status r); [reflexivity|discriminate]).
    assert (Hn : positions b !! Aggregator.symbol signal = None)
      by now apply has_false.
    split; [discriminate|]. split; [|eauto].
    intros _. exists price, r. auto.
Qed.

Lemma evaluateSignal_enters_only_on_success_witness :
  positions (exec (evaluateSignal sampleSignal entryOk) botOpen)
  = positions botOpen
  /\ (exists price r,
        e_swap entryOk = Returned r /\ status r = success
        /\ positions bot0 !! Aggregator.symbol sampleSignal = None
        /\ positions (exec (evaluateSignal sampleSignal entryOk) bot0)
           = <[Aggregator.symbol sampleSignal :=
                 newPosition sampleSignal (Aggregator.symbol sampleSignal)
                             price r (e_now entryOk)]> (positions bot0)).
Proof.
  split.
  - apply (evaluateSignal_enters_only_on_success sampleSignal entryOk botOpen).
    vm_compute. reflexivity.
  - apply (evaluateSignal_enters_only_on_success sampleSignal entryOk bot0).
    vm_compute. reflexivity.
Defined.

Lemma newEvents_app (b b' : TradingBot) (l : list Event) :
  events b' = events b ++ l -> newEvents b b' = l.
Proof.
  intros H. unfold newEvents. rewrite H.
  rewrite skipn_app, Nat.sub_diag, skipn_all. reflexivity.
Qed.

(** An exit whose price fetch and sell both return, whatever the status
    of the sell: the trade is booked and the position leaves the table. *)
Lemma exitPosition_returned (symbol : string) (p : Position)
  (reason : string) (obs : ExitObs) (b : TradingBot) (cp : num)
  (r : SwapResult) :
  priceOutcome (tokenMint p) (x_now obs) (x_price obs) b = Returned cp ->
  x_swap obs = Returned r ->
  let b' := exec (exitPosition symbol p reason obs) b in
  positions b' = delete symbol (positions b)
  /\ totalPnL b' = (totalPnL b + exitPnl p cp)%num
  /\ pnl (dailyStats b') = (pnl (dailyStats b) + exitPnl p cp)%num
  /\ events b'
     = events b
       ++ [ExitRequested symbol reason;
           SwapCall FullExit (tokenMint p) (remainingQuantity p);
           TradeRecordStored symbol (entryPrice p) cp (exitPnl p cp) reason
                             (exitRoi p cp)].
Proof.
  intros Hp Hs. cbv zeta. revert Hp. unfold_methods. rewrite Hs. cbn.
  split_answers; intros Hp; inversion Hp; subst;
    unfold recordClosedTrade; cbn;
    destruct (adjustConfidenceMultiplier _ _) as [history mult]; cbn;
    rewrite <- ?app_assoc; cbn; auto.
Qed.

(** An exit whose price fetch or sell throws: the error is logged and the
    table is left as it was. *)
Lemma exitPosition_thrown (symbol : string) (p : Position)
  (reason : string) (obs : ExitObs) (b : TradingBot) :
  isThrown (priceOutcome (tokenMint p) (x_now obs) (x_price obs) b)
  || isThrown (x_swap obs) = true ->
  let b' := exec (exitPosition symbol p reason obs) b in
  positions b' = positions b
  /\ totalPnL b' = totalPnL b
  /\ In (ErrorLogged "Error exiting position:") (newEvents b b').
Proof.
  cbv zeta. unfold newEvents. unfold_methods. cbn.
  split_answers; intros _; repeat split;
    rewrite <- ?app_assoc, skipn_app, Nat.sub_diag, skipn_all; cbn; auto.
Qed.

(** C2, the code at the failing input: the sample position (entry 100,
    remaining 10) is closed at 110.  The stated PnL is 100; the PnL the code
    adds to the running totals and writes to the trade record is 11000, the
    stated one multiplied once more by the exit price.  The position does
    leave the table, and the trade record is handed to [storeTradeRecord]. *)
Theorem exitPosition_pnl_extra_price_factor :
  let b' := exec (exitPosition MINT samplePosition "stop_loss" exitAt110)
                 botOpen in
  (statedPnl samplePosition (lit 110 1) ~= lit 100 1)%num
  /\ (totalPnL b' ~= lit 11000 1)%num
  /\ (pnl (dailyStats b') ~= lit 11000 1)%num
  /\ ~ (totalPnL b' ~= statedPnl samplePosition (lit 110 1))%num
  /\ (exists record,
        In record (newEvents botOpen b') /\
        match record with
        | TradeRecordStored _ _ exitPrice recorded _ _ =>
            (exitPrice ~= lit 110 1)%num /\ (recorded ~= lit 11000 1)%num
        | _ => False
        end)
  /\ positions b' !! MINT = None.
Proof.
  cbv zeta.
  destruct (exitPosition_returned MINT samplePosition "stop_loss" exitAt110
              botOpen (lit 110 1)
              {| status := success; amountOut := lit 1100 1 |}
              eq_refl eq_refl) as (Hpos & Htot & Hday & Hev).
  split; [vm_compute; reflexivity|].
  split; [rewrite Htot; vm_compute; reflexivity|].
  split; [rewrite Hday; vm_compute; reflexivity|].
  split; [rewrite Htot; vm_compute; discriminate|].
  split.
  - rewrite (newEvents_app _ _ _ Hev). eexists. split.
    + right. right. left. reflexivity.
    + cbn. split; vm_compute; reflexivity.
  - rewrite Hpos. apply lookup_delete_eq.
Qed.

(** C3, the code at the failing input: the exit sell of the sample position
    returns status failed.  Nothing is logged as an error, the trade is
    booked as closed, and the symbol is removed from the table although no
    sell succeeded. *)
Theorem exitPosition_removes_after_failed_sell :
  let b' := exec (exitPosition MINT samplePosition "stop_loss" exitRejected)
                 botOpen in
  positions botOpen !! MINT = Some samplePosition
  /\ positions b' !! MINT = None
  /\ (forall message, ~ In (ErrorLogged message) (newEvents botOpen b'))
  /\ totalTrades b' = totalTrades botOpen + 1.
Proof.
  cbv zeta.
  destruct (exitPosition_returned MINT samplePosition "stop_loss"
              exitRejected botOpen (lit 110 1)
              {| status := failed; amountOut := lit 0 1 |}
              eq_refl eq_refl) as (Hpos & _ & _ & Hev).
  split; [vm_compute; reflexivity|].
  split; [rewrite Hpos; apply lookup_delete_eq|].
  split.
  - intros message. rewrite (newEvents_app _ _ _ Hev).
    intros [H|[H|[H|[]]]]; discriminate H.
  - vm_compute. reflexivity.
Qed.

(** The path that does keep the position: the exit sell throws. *)
Example exitPosition_keeps_after_thrown_sell :
  let b' := exec (exitPosition MINT samplePosition "stop_loss" exitThrows)
                 botOpen in
  positions b' !! MINT = Some samplePosition
  /\ In (ErrorLogged "Error exiting position:") (newEvents botOpen b').
Proof.
  cbv zeta.
  destruct (exitPosition_thrown MINT samplePosition "stop_loss" exitThrows
              botOpen eq_refl) as (Hpos & _ & Hev).
  split; [rewrite Hpos; vm_compute; reflexivity|exact Hev].
Qed.

(** *** The monitoring tick, piece by piece *)

Lemma exitPosition_total (symbol : string) (p : Position) (reason : string)
  (obs : ExitObs) (b : TradingBot) :
  fst (exitPosition symbol p reason obs b) = Returned tt.
Proof.
  unfold_methods. cbn. split_answers; reflexivity.
Qed.

Lemma exitPosition_run (symbol : string) (p : Position) (reason : string)
  (obs : ExitObs) (b : TradingBot) :
  exitPosition symbol p reason obs b
  = (Returned tt, exec (exitPosition symbol p reason obs) b).
Proof.
  unfold exec. pose proof (exitPosition_total symbol p reason obs b) as H.
  destruct (exitPosition symbol p reason obs b) as [o b']. cbn in *.
  now subst.
Qed.

(** An exit issues no take-profit sell, and either leaves the table as it
    was or deletes the symbol. *)
Lemma exitPosition_effect (symbol : string) (p : Position) (reason : string)
  (obs : ExitObs) (b : TradingBot) :
  let b' := exec (exitPosition symbol p reason obs) b in
  (exists l, events b' = events b ++ l
             /\ swapsFrom TakeProfit1 l = []
             /\ swapsFrom TakeProfit2 l = []
             /\ In (ExitRequested symbol reason) l)
  /\ (positions b' = positions b
      \/ positions b' = delete symbol (positions b)).
Proof.
  cbv zeta.
  destruct (isThrown (priceOutcome (tokenMint p) (x_now obs) (x_price obs) b)
            || isThrown (x_swap obs)) eqn:E.
  - revert E. unfold_methods. cbn. split_answers; intros _;
      (split; [eexists; rewrite <- ?app_assoc; split; [reflexivity|];
               cbn; auto|auto]).
  - apply orb_false_elim in E. destruct E as [E1 E2].
    destruct (priceOutcome _ _ _ b) as [cp|] eqn:Hp; [|discriminate].
    destruct (x_swap obs) as [r|] eqn:Hs; [|discriminate].
    destruct (exitPosition_returned symbol p reason obs b cp r Hp Hs)
      as (Hpos & _ & _ & Hev).
    split; [|now right].
    eexists. split; [exact Hev|]. cbn. auto.
Qed.

Lemma mutate_run (symbol : string) (p : Position) (b : TradingBot) :
  mutate symbol p b = (Returned tt, exec (mutate symbol p) b).
Proof. reflexivity. Qed.

Lemma mutate_positions (symbol : string) (p : Position) (b : TradingBot) :
  positions (exec (mutate symbol p) b)
  = if has (positions b) symbol then <[symbol := p]> (positions b)
    else positions b.
Proof. reflexivity. Qed.

Lemma mutate_events (symbol : string) (p : Position) (b : TradingBot) :
  events (exec (mutate symbol p) b) = events b.
Proof. reflexivity. Qed.

(** The first take-profit block. *)
Lemma takeProfitLevel1_run (symbol : string) (p : Position) (cp : num)
  (answer : Outcome SwapResult) (b : TradingBot) :
  takeProfitLevel1 symbol p cp answer b
  = if fires (level1 p) cp then
      let call :=
        SwapCall TakeProfit1 (tokenMint p)
                 (quantity p * tp_size (level1 p))%num in
      match answer with
      | Returned _ =>
          (Returned (afterLevel1 p cp),
           exec (mutate symbol (afterLevel1 p cp)) (with_event call b))
      | Thrown => (Thrown, with_event call b)
      end
    else (Returned p, b).
Proof.
  unfold takeProfitLevel1, afterLevel1, fires.
  destruct (negb (hit (level1 p)) && (cp >=? tp_price (level1 p))%num);
    [|reflexivity].
  unfold executeSell, swap, mutate, emit, bind, modify, await, ret, exec.
  cbn. destruct answer; reflexivity.
Qed.

Lemma takeProfitLevel2_run (symbol : string) (p : Position) (cp : num)
  (answer : Outcome SwapResult) (b : TradingBot) :
  takeProfitLevel2 symbol p cp answer b
  = if fires (level2 p) cp then
      let call :=
        SwapCall TakeProfit2 (tokenMint p)
                 (quantity p * tp_size (level2 p))%num in
      match answer with
      | Returned _ =>
          (Returned (afterLevel2 p cp),
           exec (mutate symbol (afterLevel2 p cp)) (with_event call b))
      | Thrown => (Thrown, with_event call b)
      end
    else (Returned p, b).
Proof.
  unfold takeProfitLevel2, afterLevel2, fires.
  destruct (negb (hit (level2 p)) && (cp >=? tp_price (level2 p))%num);
    [|reflexivity].
  unfold executeSell, swap, mutate, emit, bind, modify, await, ret, exec.
  cbn. destruct answer; reflexivity.
Qed.

(** The tick as a composition of its pieces. *)
Lemma updatePosition_run (symbol : string) (p : Position) (obs : TickObs)
  (b : TradingBot) :
  exec (updatePosition symbol p obs) b
  = match getCachedMarketPrice (tokenMint p) (t_now obs) (t_price obs) b with
    | (Thrown, b1) => with_event (ErrorLogged "Error updating position:") b1
    | (Returned cp, b1) =>
        match preChecks p (tickAge symbol obs b1) cp obs with
        | ExitNow reason p1 =>
            exec (exitPosition symbol p1 reason (t_exit obs))
                 (exec (mutate symbol p1) b1)
        | KeepOpen p1 =>
            match takeProfitLevels symbol p1 cp obs
                    (exec (mutate symbol p1) b1) with
            | (Thrown, b2) =>
                with_event (ErrorLogged "Error updating position:") b2
            | (Returned p2, b2) =>
                if (t_spike obs
                    <? lit 1 1
                       - config.exitTriggers_volumeDecline / lit 100 1)%num
                then exec (exitPosition symbol p2 "volume_decline"
                                        (t_exit obs)) b2
                else b2
            end
        end
    end.
Proof.
  unfold updatePosition, tryCatch, exec at 1.
  unfold bind at 1.
  destruct (getCachedMarketPrice (tokenMint p) (t_now obs) (t_price obs) b)
    as [[cp|] b1]; [|reflexivity].
  unfold bind at 1. unfold get at 1. fold (tickAge symbol obs b1).
  destruct (preChecks p (tickAge symbol obs b1) cp obs) as [reason p1|p1].
  - unfold bind. rewrite mutate_run, exitPosition_run. reflexivity.
  - unfold bind at 1. rewrite mutate_run. unfold bind at 1.
    destruct (takeProfitLevels symbol p1 cp obs (exec (mutate symbol p1) b1))
      as [[p2|] b2]; [|reflexivity].
    destruct (t_spike obs <? _)%num; [|reflexivity].
    rewrite exitPosition_run. reflexivity.
Qed.

Lemma getCachedMarketPrice_run (tokenMint : string) (now : Z)
  (fetched : Outcome num) (b : TradingBot) :
  exists b1,
    getCachedMarketPrice tokenMint now fetched b
    = (priceOutcome tokenMint now fetched b, b1)
    /\ positions b1 = positions b
    /\ positionStartTimes b1 = positionStartTimes b
    /\ events b1 = events b.
Proof.
  pose proof (getCachedMarketPrice_positions tokenMint now fetched b)
    as (H1 & H2 & H3 & _).
  unfold priceOutcome.
  destruct (getCachedMarketPrice tokenMint now fetched b) as [o b1].
  exists b1. cbn in *. auto.
Qed.

Lemma swapsFrom_app (origin : SwapOrigin) (l1 l2 : list Event) :
  swapsFrom origin (l1 ++ l2) = swapsFrom origin l1 ++ swapsFrom origin l2.
Proof. unfold swapsFrom. apply List.filter_app. Qed.

(** The pre-checks write nothing but the trailing stop. *)
Lemma preChecks_holdings (p : Position) (age : Z) (cp : num) (obs : TickObs) :
  let p1 := checked (preChecks p age cp obs) in
  level1 p1 = level1 p /\ level2 p1 = level2 p
  /\ quantity p1 = quantity p
  /\ remainingQuantity p1 = remainingQuantity p
  /\ tokenMint p1 = tokenMint p.
Proof.
  cbv zeta. unfold preChecks, advanceTrailing.
  split_answers; auto.
Qed.

Lemma hitsKept_refl (p : Position) : hitsKept p p.
Proof. split; auto. Qed.

Lemma hitsKept_trans (p q r : Position) :
  hitsKept p q -> hitsKept q r -> hitsKept p r.
Proof. intros [H1 H2] [H3 H4]. split; auto. Qed.

Lemma hitsKept_levels (p q : Position) :
  level1 q = level1 p -> level2 q = level2 p -> hitsKept p q.
Proof. intros H1 H2. unfold hitsKept. rewrite H1, H2. auto. Qed.

Lemma afterLevel1_hitsKept (p : Position) (cp : num) :
  hitsKept p (afterLevel1 p cp).
Proof.
  unfold afterLevel1. destruct (fires (level1 p) cp);
    [split; cbn; auto|apply hitsKept_refl].
Qed.

Lemma afterLevel2_hitsKept (p : Position) (cp : num) :
  hitsKept p (afterLevel2 p cp).
Proof.
  unfold afterLevel2. destruct (fires (level2 p) cp);
    [split; cbn; auto|apply hitsKept_refl].
Qed.

(** What a firing level does to the object. *)
Lemma afterLevel1_fired (p : Position) (cp : num) :
  fires (level1 p) cp = true ->
  remainingQuantity (afterLevel1 p cp)
  = (remainingQuantity p - quantity p * tp_size (level1 p))%num
  /\ hit (level1 (afterLevel1 p cp)) = true
  /\ level2 (afterLevel1 p cp) = level2 p
  /\ quantity (afterLevel1 p cp) = quantity p.
Proof. intros H. unfold afterLevel1. rewrite H. cbn. auto. Qed.

Lemma afterLevel2_fired (p : Position) (cp : num) :
  fires (level2 p) cp = true ->
  remainingQuantity (afterLevel2 p cp)
  = (remainingQuantity p - quantity p * tp_size (level2 p))%num
  /\ hit (level2 (afterLevel2 p cp)) = true
  /\ active (trailingStop (afterLevel2 p cp)) = true.
Proof. intros H. unfold afterLevel2. rewrite H. cbn. auto. Qed.

Lemma afterLevel1_holdings (p : Position) (cp : num) :
  level2 (afterLevel1 p cp) = level2 p
  /\ quantity (afterLevel1 p cp) = quantity p
  /\ tokenMint (afterLevel1 p cp) = tokenMint p.
Proof. unfold afterLevel1. destruct (fires _ _); cbn; auto. Qed.

Lemma has_insert {V : Type} (m : gmap string V) (k : string) (v : V) :
  has (<[k := v]> m) k = true.
Proof. unfold has. now rewrite lookup_insert_eq. Qed.

(** The two take-profit blocks together.  The table entry afterwards is the
    one before, or one of the objects the blocks produce; the sells issued
    are those of the levels that fire, the second only if the first sell
    returned. *)
Lemma takeProfitLevels_run (symbol : string) (p : Position) (cp : num)
  (obs : TickObs) (b : TradingBot) :
  positions b !! symbol = Some p ->
  let q1 := afterLevel1 p cp in
  let q2 := afterLevel2 q1 cp in
  let r := takeProfitLevels symbol p cp obs b in
  exists l,
    events (snd r) = events b ++ l
    /\ swapsFrom TakeProfit1 l = (if fires (level1 p) cp then [call1 p] else [])
    /\ (fires (level2 p) cp = false -> swapsFrom TakeProfit2 l = [])
    /\ (exists q, positions (snd r) !! symbol = Some q /\ hitsKept p q)
    /\ (isThrown (t_sell1 obs) = false -> isThrown (t_sell2 obs) = false ->
        fst r = Returned q2
        /\ positions (snd r) !! symbol = Some q2
        /\ swapsFrom TakeProfit2 l
           = (if fires (level2 p) cp then [call2 p] else []))
    /\ (forall q, fst r = Returned q -> positions (snd r) !! symbol = Some q).
Proof.
  intros Hp. cbv zeta. unfold takeProfitLevels, bind.
  rewrite takeProfitLevel1_run.
  pose proof (afterLevel1_holdings p cp) as (Hl2 & Hq & Hm).
  pose proof (afterLevel1_hitsKept p cp) as Hk1.
  pose proof (afterLevel2_hitsKept (afterLevel1 p cp) cp) as Hk2.
  assert (Hhas : has (positions b) symbol = true)
    by (unfold has; now rewrite Hp).
  unfold call1, call2.
  destruct (fires (level1 p) cp) eqn:F1; cbv zeta.
  - destruct (t_sell1 obs) as [r1|]; cbn [fst snd].
    + rewrite takeProfitLevel2_run. rewrite Hl2, Hq, Hm.
      destruct (fires (level2 p) cp) eqn:F2; cbv zeta.
      * destruct (t_sell2 obs) as [r2|]; cbn [fst snd].
        -- eexists. split; [cbn; rewrite <- app_assoc; reflexivity|].
           cbn. rewrite Hhas. cbn. rewrite ?has_insert, ?lookup_insert_eq.
           repeat split; eauto using hitsKept_trans; try discriminate.
           intros q E; inversion E; reflexivity.
        -- eexists. split; [cbn; rewrite <- app_assoc; reflexivity|].
           cbn. rewrite Hhas. cbn. rewrite ?has_insert, ?lookup_insert_eq.
           repeat split; eauto; try discriminate.
      * eexists. split; [cbn; reflexivity|].
        cbn. rewrite Hhas. rewrite ?has_insert, ?lookup_insert_eq.
        unfold afterLevel2. rewrite Hl2, F2.
        repeat split; eauto; try discriminate.
        intros q E; inversion E; reflexivity.
    + eexists. split; [cbn; reflexivity|].
      cbn. rewrite Hp.
      repeat split; eauto using hitsKept_refl; try discriminate.
  - cbn [fst snd]. rewrite takeProfitLevel2_run.
    unfold afterLevel1 in *. rewrite F1 in *.
    destruct (fires (level2 p) cp) eqn:F2; cbv zeta.
    + destruct (t_sell2 obs) as [r2|]; cbn [fst snd].
      * eexists. split; [cbn; reflexivity|].
        cbn. rewrite Hhas. rewrite ?has_insert, ?lookup_insert_eq.
        repeat split; eauto; try discriminate.
        intros q E; inversion E; reflexivity.
      * eexists. split; [cbn; reflexivity|].
        cbn. rewrite Hp.
        repeat split; eauto using hitsKept_refl; try discriminate.
    + exists []. split; [now rewrite app_nil_r|].
      cbn. rewrite Hp. unfold afterLevel2. rewrite F2.
      repeat split; eauto using hitsKept_refl; try discriminate.
      intros q E; inversion E; subst; reflexivity.
Qed.

Lemma mutate_lookup (symbol : string) (p q : Position) (b : TradingBot) :
  positions b !! symbol = Some p ->
  positions (exec (mutate symbol q) b) !! symbol = Some q.
Proof.
  intros Hp. rewrite mutate_positions. unfold has. rewrite Hp.
  apply lookup_insert_eq.
Qed.

Lemma tickAge_cache (symbol : string) (obs : TickObs) (b b1 : TradingBot) :
  positionStartTimes b1 = positionStartTimes b ->
  tickAge symbol obs b1 = tickAge symbol obs b.
Proof. intros H. unfold tickAge. now rewrite H. Qed.

(** A tick that reaches the take-profit levels and whose partial sells
    return. *)
Lemma updatePosition_keep_open (symbol : string) (p : Position)
  (obs : TickObs) (b : TradingBot) (cp : num) (p1 : Position) :
  positions b !! symbol = Some p ->
  tickPrice p obs b = Returned cp ->
  preChecks p (tickAge symbol obs b) cp obs = KeepOpen p1 ->
  isThrown (t_sell1 obs) = false -> isThrown (t_sell2 obs) = false ->
  let b' := exec (updatePosition symbol p obs) b in
  let q2 := afterLevel2 (afterLevel1 p1 cp) cp in
  (exists l,
      events b' = events b ++ l
      /\ swapsFrom TakeProfit1 l
         = (if fires (level1 p) cp then [call1 p] else [])
      /\ swapsFrom TakeProfit2 l
         = (if fires (level2 p) cp then [call2 p] else []))
  /\ (forall p', positions b' !! symbol = Some p' -> p' = q2)
  /\ ((t_spike obs
       <? lit 1 1 - config.exitTriggers_volumeDecline / lit 100 1)%num
      = false -> positions b' !! symbol = Some q2).
Proof.
  intros Hp Hprice Hpre Hs1 Hs2. cbv zeta. rewrite updatePosition_run.
  destruct (getCachedMarketPrice_run (tokenMint p) (t_now obs) (t_price obs) b)
    as (b1 & E & Hpos & Hst & Hev).
  unfold tickPrice in Hprice. rewrite E, Hprice.
  rewrite (tickAge_cache symbol obs b b1 Hst), Hpre.
  pose proof (preChecks_holdings p (tickAge symbol obs b) cp obs) as Hh.
  rewrite Hpre in Hh. cbn [checked] in Hh.
  destruct Hh as (H1 & H2 & Hq & Hr & Hm).
  assert (Hp1 : positions (exec (mutate symbol p1) b1) !! symbol = Some p1)
    by (apply (mutate_lookup symbol p); now rewrite Hpos).
  destruct (takeProfitLevels_run symbol p1 cp obs _ Hp1)
    as (l & Hl & Ht1 & _ & _ & Hret & _).
  destruct (Hret Hs1 Hs2) as (Hfst & Htab & Ht2).
  assert (Hc1 : call1 p1 = call1 p) by (unfold call1; now rewrite Hm, Hq, H1).
  assert (Hc2 : call2 p1 = call2 p) by (unfold call2; now rewrite Hm, Hq, H2).
  rewrite Hc1, H1 in Ht1. rewrite Hc2, H2 in Ht2.
  rewrite mutate_events, Hev in Hl.
  destruct (takeProfitLevels symbol p1 cp obs (exec (mutate symbol p1) b1))
    as [o b2]. cbn [fst snd] in *. subst o.
  destruct (t_spike obs <? _)%num.
  - pose proof (exitPosition_effect symbol
                  (afterLevel2 (afterLevel1 p1 cp) cp) "volume_decline"
                  (t_exit obs) b2) as ((lx & Hlx & Hx1 & Hx2 & _) & Hposx).
    cbv zeta in Hlx, Hposx. split; [|split].
    + exists (l ++ lx). rewrite Hlx, Hl, <- app_assoc.
      split; [reflexivity|].
      rewrite !swapsFrom_app, Hx1, Hx2, !app_nil_r. auto.
    + intros p' Hp'. destruct Hposx as [Hx|Hx]; rewrite Hx in Hp'.
      * rewrite Htab in Hp'. now inversion Hp'.
      * rewrite lookup_delete_eq in Hp'. discriminate.
    + discriminate.
  - split; [|split].
    + exists l. auto.
    + intros p' Hp'. rewrite Htab in Hp'. now inversion Hp'.
    + intros _. exact Htab.
Qed.

(** Any tick: a level that is already hit issues no sell, and no hit flag
    of the table entry is cleared. *)
Lemma updatePosition_effect (symbol : string) (p : Position) (obs : TickObs)
  (b : TradingBot) :
  positions b !! symbol = Some p ->
  let b' := exec (updatePosition symbol p obs) b in
  (exists l,
      events b' = events b ++ l
      /\ (hit (level1 p) = true -> swapsFrom TakeProfit1 l = [])
      /\ (hit (level2 p) = true -> swapsFrom TakeProfit2 l = []))
  /\ (forall p', positions b' !! symbol = Some p' -> hitsKept p p').
Proof.
  intros Hp. cbv zeta. rewrite updatePosition_run.
  destruct (getCachedMarketPrice_run (tokenMint p) (t_now obs) (t_price obs) b)
    as (b1 & E & Hpos & Hst & Hev).
  rewrite E. destruct (priceOutcome _ _ _ b) as [cp|].
  2:{ cbn. rewrite Hev, Hpos. split.
      - eexists. split; [reflexivity|]. cbn. auto.
      - intros p' Hp'. rewrite Hp in Hp'. inversion Hp'.
        apply hitsKept_refl. }
  pose proof (preChecks_holdings p (tickAge symbol obs b1) cp obs) as Hh.
  destruct (preChecks p (tickAge symbol obs b1) cp obs) as [reason p1|p1];
    cbn [checked] in Hh; destruct Hh as (H1 & H2 & Hq & Hr & Hm);
    pose proof (hitsKept_levels p p1 H1 H2) as Hk;
    assert (Hp1 : positions (exec (mutate symbol p1) b1) !! symbol = Some p1)
      by (apply (mutate_lookup symbol p); now rewrite Hpos).
  - pose proof (exitPosition_effect symbol p1 reason (t_exit obs)
                  (exec (mutate symbol p1) b1))
      as ((lx & Hlx & Hx1 & Hx2 & _) & Hposx).
    cbv zeta in Hlx, Hposx. rewrite mutate_events, Hev in Hlx. split.
    + exists lx. auto.
    + intros p' Hp'. destruct Hposx as [Hx|Hx]; rewrite Hx in Hp'.
      * rewrite Hp1 in Hp'. now inversion Hp'; subst.
      * rewrite lookup_delete_eq in Hp'. discriminate.
  - destruct (takeProfitLevels_run symbol p1 cp obs _ Hp1)
      as (l & Hl & Ht1 & Ht2 & (q & Hq1 & Hqk) & _ & Hret).
    rewrite mutate_events, Hev in Hl.
    assert (Hn1 : hit (level1 p) = true -> swapsFrom TakeProfit1 l = []).
    { intros Hh. rewrite Ht1. unfold fires. now rewrite H1, Hh. }
    assert (Hn2 : hit (level2 p) = true -> swapsFrom TakeProfit2 l = []).
    { intros Hh. apply Ht2. unfold fires. now rewrite H2, Hh. }
    destruct (takeProfitLevels symbol p1 cp obs (exec (mutate symbol p1) b1))
      as [[p2|] b2]; cbn [fst snd] in *.
    + destruct (t_spike obs <? _)%num.
      * pose proof (exitPosition_effect symbol p2 "volume_decline"
                      (t_exit obs) b2)
          as ((lx & Hlx & Hx1 & Hx2 & _) & Hposx).
        cbv zeta in Hlx, Hposx. split.
        -- exists (l ++ lx). rewrite Hlx, Hl, <- app_assoc.
           split; [reflexivity|].
           rewrite !swapsFrom_app, Hx1, Hx2, !app_nil_r. auto.
        -- intros p' Hp'. destruct Hposx as [Hx|Hx]; rewrite Hx in Hp'.
           ++ rewrite Hq1 in Hp'. inversion Hp'; subst.
              eauto using hitsKept_trans.
           ++ rewrite lookup_delete_eq in Hp'. discriminate.
      * split; [exists l; auto|].
        intros p' Hp'. rewrite Hq1 in Hp'. inversion Hp'; subst.
        eauto using hitsKept_trans.
    + cbn. split.
      * exists (l ++ [ErrorLogged "Error updating position:"]).
        rewrite Hl, <- app_assoc. split; [reflexivity|].
        rewrite !swapsFrom_app, !app_nil_r. auto.
      * intros p' Hp'. rewrite Hq1 in Hp'. inversion Hp'; subst.
        eauto using hitsKept_trans.
Qed.

(** *** Take-profit levels *)


Lemma preChecks_withSells (p : Position) (age : Z) (cp : num)
  (sell1 sell2 : Outcome SwapResult) (obs : TickObs) :
  preChecks p age cp (withSells sell1 sell2 obs) = preChecks p age cp obs.
Proof. reflexivity. Qed.

(** What a partial sell returns does not reach the state: ticks that
    differ only in the results the sells return end in the same state. *)
Lemma sell_results_unused (symbol : string) (p : Position) (obs : TickObs)
  (b : TradingBot) (r1 r2 r1' r2' : SwapResult) :
  t_sell1 obs = Returned r1 -> t_sell2 obs = Returned r2 ->
  exec (updatePosition symbol p (withSells (Returned r1') (Returned r2') obs))
       b
  = exec (updatePosition symbol p obs) b.
Proof.
  intros Hs1 Hs2. rewrite !updatePosition_run. cbn [withSells t_now t_price].
  destruct (getCachedMarketPrice (tokenMint p) (t_now obs) (t_price obs) b)
    as [[cp|] b1]; [|reflexivity].
  unfold tickAge. cbn [withSells t_now t_spike t_exit].
  rewrite preChecks_withSells.
  destruct (preChecks p _ cp obs) as [reason p1|p1]; [reflexivity|].
  unfold takeProfitLevels, bind. rewrite !takeProfitLevel1_run.
  cbn [withSells t_sell1 t_sell2]. rewrite Hs1.
  destruct (fires (level1 p1) cp); cbv zeta;
    rewrite !takeProfitLevel2_run, Hs2; reflexivity.
Qed.

(** C10: when a monitoring tick reaches a take-profit level whose price is
    crossed, the position is advanced whatever the partial sell returned:
    [remainingQuantity] is decremented by quantity x size and the hit flag
    is set for every returned result, status failed included, and the state
    after the tick does not depend on the returned results at all. *)
Theorem take_profit_ignores_sell_status (symbol : string) (p : Position)
  (obs : TickObs) (b : TradingBot) (cp : num) (p1 : Position)
  (r1 r2 : SwapResult) :
  positions b !! symbol = Some p ->
  tickPrice p obs b = Returned cp ->
  preChecks p (tickAge symbol obs b) cp obs = KeepOpen p1 ->
  t_sell1 obs = Returned r1 -> t_sell2 obs = Returned r2 ->
  let b' := exec (updatePosition symbol p obs) b in
  let q1 := afterLevel1 p1 cp in
  let q2 := afterLevel2 q1 cp in
  (fires (level1 p) cp = true ->
   In (call1 p) (newEvents b b')
   /\ remainingQuantity q1
      = (remainingQuantity p - quantity p * tp_size (level1 p))%num
   /\ hit (level1 q1) = true /\ hit (level1 q2) = true)
  /\ (fires (level2 p) cp = true ->
      In (call2 p) (newEvents b b')
      /\ remainingQuantity q2
         = (remainingQuantity q1 - quantity p * tp_size (level2 p))%num
      /\ hit (level2 q2) = true)
  /\ (forall p', positions b' !! symbol = Some p' -> p' = q2)
  /\ ((t_spike obs
       <? lit 1 1 - config.exitTriggers_volumeDecline / lit 100 1)%num
      = false -> positions b' !! symbol = Some q2)
  /\ (forall r1' r2',
        exec (updatePosition symbol p
                (withSells (Returned r1') (Returned r2') obs)) b = b').
Proof.
  intros Hp Hprice Hpre Hs1 Hs2. cbv zeta.
  assert (Hn1 : isThrown (t_sell1 obs) = false) by now rewrite Hs1.
  assert (Hn2 : isThrown (t_sell2 obs) = false) by now rewrite Hs2.
  destruct (updatePosition_keep_open symbol p obs b cp p1 Hp Hprice Hpre
              Hn1 Hn2) as ((l & Hl & Ht1 & Ht2) & Htab & Hstay).
  rewrite (newEvents_app _ _ _ Hl).
  pose proof (preChecks_holdings p (tickAge symbol obs b) cp obs) as Hh.
  rewrite Hpre in Hh. cbn [checked] in Hh.
  destruct Hh as (H1 & H2 & Hq & Hr & Hm).
  pose proof (afterLevel1_holdings p1 cp) as (Hl2 & Hq1 & _).
  assert (Hin : forall origin e, swapsFrom origin l = [e] -> In e l).
  { intros origin e He.
    assert (Hi : In e (swapsFrom origin l)) by (rewrite He; now left).
    unfold swapsFrom in Hi. now apply List.filter_In in Hi. }
  split; [|split; [|split; [|split]]].
  - intros F. rewrite F in Ht1. split; [eapply Hin; eauto|].
    rewrite <- H1 in F.
    destruct (afterLevel1_fired p1 cp F) as (Hrem & Hhit & _).
    rewrite Hrem, Hr, Hq, H1. repeat split; auto.
    now apply (afterLevel2_hitsKept (afterLevel1 p1 cp) cp).
  - intros F. rewrite F in Ht2. split; [eapply Hin; eauto|].
    rewrite <- H2, <- Hl2 in F.
    destruct (afterLevel2_fired (afterLevel1 p1 cp) cp F) as (Hrem & Hhit & _).
    rewrite Hrem, Hq1, Hq, Hl2, H2. auto.
  - exact Htab.
  - exact Hstay.
  - intros r1' r2'. now apply (sell_results_unused symbol p obs b r1 r2).
Qed.

Lemma take_profit_ignores_sell_status_witness :
  let b' := exec (updatePosition MINT samplePosition tickAbove115) botOpen in
  status {| status := failed; amountOut := lit 0 1 |} = failed
  /\ t_sell1 tickAbove115
     = Returned {| status := failed; amountOut := lit 0 1 |}
  /\ (exists p',
        positions b' !! MINT = Some p'
        /\ hit (level1 p') = true
        /\ (remainingQuantity p' ~= lit 7 1)%num).
Proof.
  cbv zeta.
  destruct (take_profit_ignores_sell_status MINT samplePosition tickAbove115
              botOpen (lit 120 1) samplePosition
              {| status := failed; amountOut := lit 0 1 |}
              {| status := success; amountOut := lit 0 1 |})
    as (_ & _ & _ & H4 & _);
    try (vm_compute; reflexivity).
  split; [reflexivity|]. split; [reflexivity|].
  eexists. split; [apply H4; vm_compute; reflexivity|].
  split; vm_compute; reflexivity.
Defined.

(** *** Shutdown *)

Lemma exitPosition_events (symbol : string) (p : Position) (reason : string)
  (obs : ExitObs) (b : TradingBot) :
  let b' := exec (exitPosition symbol p reason obs) b in
  isRunning b' = isRunning b
  /\ shutdownRequested b' = shutdownRequested b
  /\ exists l, events b' = events b ++ l
               /\ In (ExitRequested symbol reason) l
               /\ Forall (fun e => isReport e = false) l.
Proof.
  cbv zeta. unfold_methods. cbn.
  split_answers;
    try (unfold recordClosedTrade;
         destruct (adjustConfidenceMultiplier _ _) as [history mult]; cbn);
    (split; [reflexivity|]; split; [reflexivity|]);
    eexists; rewrite <- ?app_assoc;
    (split; [reflexivity|]); cbn; (split; [auto|]);
    repeat constructor.
Qed.

Lemma tryCatch_exitPosition (symbol : string) (p : Position)
  (reason : string) (obs : ExitObs) (handler : M unit) (b : TradingBot) :
  tryCatch (exitPosition symbol p reason obs) handler b
  = (Returned tt, exec (exitPosition symbol p reason obs) b).
Proof. unfold tryCatch. now rewrite exitPosition_run. Qed.

(** The loop of [stop]: every entry it visits gets its exit, and nothing is
    reported meanwhile. *)
Lemma shutdown_loop (obs : string -> ExitObs)
  (entries : list (string * Position)) (b : TradingBot) :
  let r :=
    forEach entries
      (fun '(symbol, position) =>
         tryCatch
           (exitPosition symbol position "bot_shutdown" (obs symbol))
           (emit (ErrorLogged "Error closing position during shutdown")))
      b in
  fst r = Returned tt
  /\ isRunning (snd r) = isRunning b
  /\ shutdownRequested (snd r) = shutdownRequested b
  /\ exists l, events (snd r) = events b ++ l
               /\ (forall symbol p, In (symbol, p) entries ->
                   In (ExitRequested symbol "bot_shutdown") l)
               /\ Forall (fun e => isReport e = false) l.
Proof.
  revert b. induction entries as [|[symbol p] rest IH]; intros b; cbv zeta.
  - cbn. repeat split. exists []. rewrite app_nil_r.
    repeat split; [intros ? ? []|constructor].
  - cbn [forEach]. unfold bind. rewrite tryCatch_exitPosition.
    destruct (exitPosition_events symbol p "bot_shutdown" (obs symbol) b)
      as (Hr & Hs & l1 & Hl1 & Hin1 & Hno1).
    cbv zeta in Hr, Hs, Hl1.
    set (b1 := exec (exitPosition symbol p "bot_shutdown" (obs symbol)) b)
      in *.
    destruct (IH b1) as (Hfst & Hr2 & Hs2 & l2 & Hl2 & Hin2 & Hno2).
    cbv zeta in Hfst, Hr2, Hs2, Hl2.
    split; [exact Hfst|].
    split; [now rewrite Hr2|]. split; [now rewrite Hs2|].
    exists (l1 ++ l2). rewrite Hl2, Hl1, <- app_assoc.
    split; [reflexivity|]. split.
    + intros symbol' p' [E|Hin]; apply in_or_app.
      * inversion E; subst. now left.
      * right. eauto.
    + apply Forall_app. auto.
Qed.

(** C6, the code at the failing inputs.  [stop] sets [shutdownRequested],
    but [evaluateSignal] reads neither flag: after [stop] has closed the
    sample position and reported, a signal whose checks pass and whose swap
    succeeds opens a position.  And [stop] reports stopped, with
    [activePositions: 0], whatever became of the exits: when the sell of
    the shutdown exit throws, the error is logged, the position stays in
    the table, and the report follows all the same. *)
Theorem stop_gates_no_entry_and_reports_open_position :
  let stopped := exec (stop shutdownExits) botRunning in
  let later := exec (evaluateSignal sampleSignal entryAfterStop) stopped in
  let failing := exec (stop (fun _ => exitThrows)) botRunning in
  shutdownRequested stopped = true
  /\ isRunning stopped = false
  /\ positions stopped = ∅
  /\ positions later !! MINT
     = Some (newPosition sampleSignal MINT (lit 110 1)
               {| status := success; amountOut := lit 9 1 |} 6000)
  /\ shutdownRequested later = true
  /\ positions failing !! MINT = Some samplePosition
  /\ newEvents botRunning failing
     = [ExitRequested MINT "bot_shutdown";
        SwapCall FullExit MINT (remainingQuantity samplePosition);
        ErrorLogged "Error exiting position:";
        BotStatusUpdated false 0; StatusLogged "stopped"].
Proof.
  cbv zeta. repeat split; vm_compute; reflexivity.
Qed.

End BotFacts.

(** ** Circuit breaker: frame and invariants of runs *)

Module CircuitBreakerRuns.
Import CircuitBreaker CircuitBreakerFacts.

Lemma circuitOf_setCircuit_other (source other : Source) (c : Circuit)
  (cs : CircuitStates) :
  other <> source -> circuitOf other (setCircuit source c cs) = circuitOf other cs.
Proof. destruct source, other; intros H; try reflexivity; congruence. Qed.

Lemma step_other (source other : Source) (cs : CircuitStates) (e : Event) :
  other <> source -> circuitOf other (step source cs e) = circuitOf other cs.
Proof.
  intros H. destruct e as [now|success now]; cbn [step].
  - unfold checkCircuitBreaker.
    destruct (checkCircuit now (circuitOf source cs)) as [ok c]. cbn [snd].
    now apply circuitOf_setCircuit_other.
  - now apply circuitOf_setCircuit_other.
Qed.

(** Checks and recorded results of one source never touch the circuit of
    another source. *)
Theorem run_leaves_other_sources (source other : Source) (evs : list Event)
  (cs : CircuitStates) :
  other <> source ->
  circuitOf other (run source evs cs) = circuitOf other cs.
Proof.
  intros H. revert cs. induction evs as [|e rest IH]; intros cs.
  - reflexivity.
  - cbn [run fold_left]. fold (run source rest (step source cs e)).
    rewrite IH. now apply step_other.
Qed.

Lemma run_leaves_other_sources_witness :
  circuitOf coinbase csExhausted = initialCircuit.
Proof.
  apply (run_leaves_other_sources binance coinbase _ circuitStates0).
  discriminate.
Defined.

Lemma circuitOf_step (source : Source) (cs : CircuitStates) (e : Event) :
  circuitOf source (step source cs e)
  = match e with
    | Check now => snd (checkCircuit now (circuitOf source cs))
    | Record success now => recordResult success now (circuitOf source cs)
    end.
Proof.
  destruct e; cbn [step]; [apply circuitOf_check|apply circuitOf_record].
Qed.

Lemma closedInv_step (source : Source) (cs : CircuitStates) (e : Event) :
  closedInv (circuitOf source cs) ->
  closedInv (circuitOf source (step source cs e)).
Proof.
  rewrite circuitOf_step. unfold closedInv.
  destruct (circuitOf source cs) as [f l s a]. cbn [state failures attempts].
  intros Inv. destruct e as [now|success now].
  - unfold checkCircuit. cbn [state failures attempts lastFailure].
    destruct s; cbn [isOpen isHalfOpen andb snd state failures attempts].
    + exact Inv.
    + destruct (now - l >=? resetTimeout);
        cbn [isHalfOpen andb snd state]; [|discriminate].
      change (halfOpenMaxAttempts <=? 0)%nat with false. cbn [snd state].
      discriminate.
    + destruct (halfOpenMaxAttempts <=? a)%nat; cbn [snd state]; discriminate.
  - unfold recordResult. cbn [state failures attempts].
    destruct success; cbn [state failures attempts].
    + intros _. unfold failureThreshold. split; [lia|reflexivity].
    + destruct (Nat.leb_spec failureThreshold (S f)); [discriminate|].
      intros Hs. destruct (Inv Hs) as [_ Ha].
      split; [assumption|]. destruct s; cbn [isHalfOpen]; congruence.
Qed.

(** In every state a run reaches from the initial circuits, a closed
    circuit has fewer than [failureThreshold] failures on its count and no
    half-open attempt pending. *)
Theorem closed_circuit_below_threshold (source : Source) (evs : list Event) :
  state (circuitOf source (run source evs circuitStates0)) = closed ->
  (failures (circuitOf source (run source evs circuitStates0))
   < failureThreshold)%nat
  /\ attempts (circuitOf source (run source evs circuitStates0)) = 0%nat.
Proof.
  assert (H : forall cs, closedInv (circuitOf source cs) ->
                         closedInv (circuitOf source (run source evs cs))).
  { induction evs as [|e rest IH]; intros cs Inv; [exact Inv|].
    cbn [run fold_left]. apply IH. now apply closedInv_step. }
  apply H. destruct source; intros _; cbn; unfold failureThreshold; split; lia.
Qed.

Lemma closed_circuit_below_threshold_witness :
  (failures (circuitOf binance
               (run binance [Record false 0; Record false 1]
                    circuitStates0)) < failureThreshold)%nat
  /\ attempts (circuitOf binance
                 (run binance [Record false 0; Record false 1]
                      circuitStates0)) = 0%nat.
Proof.
  apply (closed_circuit_below_threshold binance
           [Record false 0; Record false 1]).
  reflexivity.
Defined.

(** An open circuit leaves the open state only through a check made once
    [resetTimeout] has elapsed since the last failure: no recorded result,
    success included, and no earlier check changes its state. *)
Theorem open_left_only_by_cooled_check (source : Source) (cs : CircuitStates)
  (e : Event) :
  state (circuitOf source cs) = open ->
  state (circuitOf source (step source cs e)) <> open ->
  exists now,
    e = Check now
    /\ resetTimeout <= now - lastFailure (circuitOf source cs)
    /\ state (circuitOf source (step source cs e)) = half_open.
Proof.
  rewrite circuitOf_step. intros Hs.
  destruct e as [now|success now].
  - destruct (Z.lt_ge_cases (now - lastFailure (circuitOf source cs))
                            resetTimeout) as [Hlt|Hge].
    + rewrite (open_rejects now _ Hs Hlt). cbn [snd]. congruence.
    + rewrite (open_cooled_down now _ Hs Hge). cbn [snd state].
      intros _. exists now. auto.
  - unfold recordResult. rewrite Hs. cbn [isHalfOpen].
    destruct success; cbn [state]; [congruence|].
    destruct (failureThreshold <=? _)%nat; congruence.
Qed.

Lemma open_left_only_by_cooled_check_witness :
  exists now,
    Check 300002 = Check now
    /\ resetTimeout <= now - lastFailure (circuitOf binance csOpen)
    /\ state (circuitOf binance (step binance csOpen (Check 300002)))
       = half_open.
Proof.
  apply (open_left_only_by_cooled_check binance csOpen (Check 300002)).
  - reflexivity.
  - vm_compute. discriminate.
Defined.

Lemma sequentialInv_step (source : Source) (cs : CircuitStates) (e : Event) :
  sequentialInv (circuitOf source cs) ->
  sequential source [e] cs = true ->
  sequentialInv (circuitOf source (step source cs e)).
Proof.
  rewrite circuitOf_step. unfold sequentialInv. cbn [sequential].
  rewrite andb_true_r.
  destruct (circuitOf source cs) as [f l s a]. cbn [state failures attempts].
  unfold failureThreshold, halfOpenMaxAttempts.
  destruct e as [now|success now].
  - intros Inv _. unfold checkCircuit.
    cbn [state failures attempts lastFailure].
    destruct s; cbn [isOpen isHalfOpen andb snd state failures attempts].
    + exact Inv.
    + destruct (now - l >=? resetTimeout);
        cbn [isHalfOpen andb snd state failures attempts].
      * change (halfOpenMaxAttempts <=? 0)%nat with false.
        cbn [snd state failures attempts]. lia.
      * exact Inv.
    + destruct (Nat.leb_spec halfOpenMaxAttempts a);
        cbn [snd state failures attempts];
        unfold halfOpenMaxAttempts in *; lia.
  - intros Inv Hseq. unfold recordResult. cbn [state failures attempts].
    destruct s; cbn [isOpen negb] in Hseq; try discriminate;
      destruct success; cbn [isHalfOpen state failures attempts];
      unfold failureThreshold;
      try (destruct (Nat.leb_spec 3 (S f)); cbn [state]); lia.
Qed.

(** In a sequential run the half-open state admits one probe: the circuit
    never holds more than one attempt, so the branch of
    [checkCircuitBreaker] that reopens at [halfOpenMaxAttempts] is never
    taken; a circuit that is not closed keeps at least [failureThreshold]
    failures on its count, so the first failed probe reopens it. *)
Theorem sequential_run_single_probe (source : Source) (evs : list Event) :
  sequential source evs circuitStates0 = true ->
  let c := circuitOf source (run source evs circuitStates0) in
  (attempts c < halfOpenMaxAttempts)%nat
  /\ (state c <> closed -> (failureThreshold <= failures c)%nat)
  /\ (state c = half_open ->
      forall now, state (recordResult false now c) = open).
Proof.
  assert (H : forall cs, sequentialInv (circuitOf source cs) ->
                         sequential source evs cs = true ->
                         sequentialInv (circuitOf source (run source evs cs))).
  { induction evs as [|e rest IH]; intros cs Inv Hseq; [exact Inv|].
    cbn [run fold_left]. cbn [sequential] in Hseq.
    apply andb_prop in Hseq. destruct Hseq as [He Hrest].
    apply IH; [|exact Hrest].
    apply sequentialInv_step; [exact Inv|].
    cbn [sequential]. now rewrite He. }
  intros Hseq. cbv zeta.
  assert (Inv0 : sequentialInv (circuitOf source circuitStates0))
    by (destruct source; cbn; unfold failureThreshold; lia).
  specialize (H circuitStates0 Inv0 Hseq). unfold sequentialInv in H.
  destruct (circuitOf source (run source evs circuitStates0)) as [f l s a].
  cbn [state failures attempts] in *.
  unfold halfOpenMaxAttempts, failureThreshold in *.
  destruct s; (split; [lia|]); (split; [intros ?; try congruence; lia|]);
    intros Hs now; try discriminate.
  apply failure_opens. cbn [failures]. unfold failureThreshold. lia.
Qed.

Lemma sequential_run_single_probe_witness :
  let c := circuitOf binance csHalfOpen in
  (attempts c < halfOpenMaxAttempts)%nat
  /\ (state c <> closed -> (failureThreshold <= failures c)%nat)
  /\ (state c = half_open ->
      forall now, state (recordResult false now c) = open).
Proof.
  apply (sequential_run_single_probe binance
           [Record false 0; Record false 1; Record false 2; Check 300002]).
  reflexivity.
Defined.

End CircuitBreakerRuns.


(** ** Backoff and rate limiter *)

Module BackoffFacts.
Import Backoff.

Lemma pow2_succ (n : nat) :
  (factor ^ Z.of_nat (S n) == 2 * factor ^ Z.of_nat n)%Q.
Proof.
  rewrite Nat2Z.inj_succ. unfold Z.succ.
  rewrite Qpower_plus by (unfold factor; discriminate).
  change (factor ^ 1)%Q with 2%Q. ring.
Qed.

Lemma pow2_ge_1 (n : nat) : (1 <= factor ^ Z.of_nat n)%Q.
Proof.
  induction n as [|n IH]; [discriminate|].
  rewrite pow2_succ. lra.
Qed.

Lemma pow2_ge_32 (n : nat) : (5 <= n)%nat -> (32 <= factor ^ Z.of_nat n)%Q.
Proof.
  induction 1 as [|n Hle IH].
  - discriminate.
  - rewrite pow2_succ. lra.
Qed.

Lemma pow2_le_32 (n : nat) : (n <= 5)%nat -> (factor ^ Z.of_nat n <= 32)%Q.
Proof.
  intros H.
  assert (E : (n = 0 \/ n = 1 \/ n = 2 \/ n = 3 \/ n = 4 \/ n = 5)%nat) by lia.
  destruct E as [->|[->|[->|[->|[->| ->]]]]]; discriminate.
Qed.

(** The delay before jitter starts at [initialDelay], doubles with each
    attempt while that stays below [maxDelay], is [maxDelay] from the fifth
    attempt on, never decreases and never exceeds [maxDelay]; with a random
    value in [0, 1) the delay slept for is at least 95% and at most 105% of
    it. *)
Theorem backoff_delay_bounds (attempt : nat) (random : Q) :
  (0 <= random)%Q -> (random < 1)%Q ->
  (initialDelay <= baseDelay attempt)%Q
  /\ (baseDelay attempt <= maxDelay)%Q
  /\ ((attempt <= 5)%nat ->
      (baseDelay attempt == initialDelay * factor ^ Z.of_nat attempt)%Q)
  /\ ((5 <= attempt)%nat -> (baseDelay attempt == maxDelay)%Q)
  /\ (baseDelay attempt <= baseDelay (S attempt))%Q
  /\ ((95 # 100) * baseDelay attempt <= finalDelay attempt random)%Q
  /\ (finalDelay attempt random <= (105 # 100) * baseDelay attempt)%Q.
Proof.
  intros H0 H1.
  pose proof (pow2_ge_1 attempt) as Hge1.
  pose proof (pow2_succ attempt) as Hs.
  assert (Hlo : (initialDelay <= baseDelay attempt)%Q).
  { unfold baseDelay. apply Q.min_glb; unfold initialDelay, maxDelay; lra. }
  assert (Hhi : (baseDelay attempt <= maxDelay)%Q)
    by (unfold baseDelay; apply Q.le_min_r).
  split; [exact Hlo|]. split; [exact Hhi|].
  split.
  { intros H5. pose proof (pow2_le_32 attempt H5). unfold baseDelay.
    apply Q.min_l. unfold initialDelay, maxDelay. lra. }
  split.
  { intros H5. pose proof (pow2_ge_32 attempt H5). unfold baseDelay.
    apply Q.min_r. unfold initialDelay, maxDelay. lra. }
  split.
  { unfold baseDelay. apply Q.min_glb; [|apply Q.le_min_r].
    eapply Qle_trans; [apply Q.le_min_l|].
    unfold initialDelay. lra. }
  unfold finalDelay, jitter. unfold initialDelay in Hlo.
  set (d := baseDelay attempt) in *. cbv zeta. split; nra.
Qed.

Lemma backoff_delay_bounds_witness :
  (initialDelay <= baseDelay 3)%Q
  /\ (baseDelay 3 <= maxDelay)%Q
  /\ ((3 <= 5)%nat -> (baseDelay 3 == initialDelay * factor ^ Z.of_nat 3)%Q)
  /\ ((5 <= 3)%nat -> (baseDelay 3 == maxDelay)%Q)
  /\ (baseDelay 3 <= baseDelay 4)%Q
  /\ ((95 # 100) * baseDelay 3 <= finalDelay 3 (1 # 4))%Q
  /\ (finalDelay 3 (1 # 4) <= (105 # 100) * baseDelay 3)%Q.
Proof.
  apply (backoff_delay_bounds 3 (1 # 4)); [discriminate|reflexivity].
Defined.

End BackoffFacts.


Module RateLimiterFacts.
Import CircuitBreaker RateLimiter.

Lemma filter_length_le {A : Type} (f : A -> bool) (l : list A) :
  (length (List.filter f l) <= length l)%nat.
Proof.
  induction l as [|x l IH]; cbn; [lia|]. destruct (f x); cbn; lia.
Qed.


Lemma kept_recent (limit : Limit) (now : Z) (l : list Z) :
  Forall (fun time => now - time < window limit)
         (List.filter (fun time => (now - time <? window limit)%Z) l).
Proof.
  apply List.Forall_forall. intros t Ht. apply List.filter_In in Ht.
  destruct Ht as [_ Ht]. now apply Z.ltb_lt.
Qed.

(** The shape of the list after a request is entered: the requests kept
    from the window, fewer than the limit, then the new one. *)
Lemma entered_request_shape (limit : Limit) (now : Z)
  (limiter limiter' : Limiter) :
  (0 < lim_requests limit)%nat -> 0 < window limit ->
  checkRateLimitOnce limit now limiter = (Proceed, limiter') ->
  exists kept,
    requests limiter' = kept ++ [now]
    /\ (length kept < lim_requests limit)%nat
    /\ Forall (fun time => now - time < window limit) kept.
Proof.
  intros Hcap Hwin. unfold checkRateLimitOnce. cbv zeta.
  set (start := if now >=? nextReset limiter then _ else limiter).
  pose proof (kept_recent limit now (requests start)) as Hrecent.
  set (kept := List.filter _ (requests start)) in *.
  destruct (Nat.leb_spec (lim_requests limit) (length kept)) as [Hfull|Hfree].
  - destruct kept as [|oldest rest] eqn:Ek.
    + cbn in Hfull. lia.
    + inversion Hrecent as [|? ? Hold _]; subst.
      destruct (Z.gtb_spec (window limit - (now - oldest)) 0);
        [discriminate|lia].
  - intros E. inversion E; subst limiter'. cbn [requests].
    exists kept. auto.
Qed.

(** A request that is entered: it is the newest of the list, the list
    holds only requests of the last [window], and at most as many as the
    limit allows. *)
Theorem entered_request_within_limit (limit : Limit) (now : Z)
  (limiter limiter' : Limiter) :
  (0 < lim_requests limit)%nat -> 0 < window limit ->
  checkRateLimitOnce limit now limiter = (Proceed, limiter') ->
  (exists kept, requests limiter' = kept ++ [now])
  /\ (length (requests limiter') <= lim_requests limit)%nat
  /\ Forall (fun time => now - time < window limit) (requests limiter').
Proof.
  intros Hcap Hwin E.
  destruct (entered_request_shape limit now limiter limiter' Hcap Hwin E)
    as (kept & -> & Hlen & Hrecent).
  split; [eauto|]. split.
  - rewrite length_app. cbn. lia.
  - apply List.Forall_app. split; [exact Hrecent|].
    constructor; [lia|constructor].
Qed.

Lemma entered_request_within_limit_witness :
  (exists kept,
      requests (snd (checkRateLimitOnce (RATE_LIMITS binance) 70000
                                        fullLimiter)) = kept ++ [70000])
  /\ (length (requests (snd (checkRateLimitOnce (RATE_LIMITS binance) 70000
                                                fullLimiter)))
      <= lim_requests (RATE_LIMITS binance))%nat
  /\ Forall (fun time => 70000 - time < window (RATE_LIMITS binance))
            (requests (snd (checkRateLimitOnce (RATE_LIMITS binance) 70000
                                               fullLimiter))).
Proof.
  apply (entered_request_within_limit (RATE_LIMITS binance) 70000
           fullLimiter).
  - cbn. lia.
  - reflexivity.
  - vm_compute. reflexivity.
Defined.




(** The sample: at 20.5 s the limiter of binance holds twenty requests of
    the last minute; the caller sleeps 40.5 s, until the request made at
    1 s is a minute old, and enters at 61 s. *)
Example checkRateLimit_sample :
  fst (checkRateLimitOnce (RATE_LIMITS binance) 20500 fullLimiter)
  = Wait 40500
  /\ option_map fst
       (checkRateLimit (fun t w => t + w) (RATE_LIMITS binance) 1 20500
                       fullLimiter)
     = Some 61000.
Proof. split; vm_compute; reflexivity. Qed.

End RateLimiterFacts.


(** ** JavaScript numbers: order *)

Module JsNumOrder.

Lemma lt_Fin (x y : Q) : lt (Fin x) (Fin y) = true <-> (x < y)%Q.
Proof.
  cbn [lt]. rewrite Qlt_alt. destruct (x ?= y)%Q; split; congruence.
Qed.

Lemma le_Fin (x y : Q) : le (Fin x) (Fin y) = true <-> (x <= y)%Q.
Proof.
  unfold le. rewrite orb_true_iff, lt_Fin. cbn [eqb].
  rewrite Qeq_bool_iff, Qle_lteq. tauto.
Qed.

Lemma le_refl (a : num) : a <> NaN -> le a a = true.
Proof.
  destruct a as [x| | |]; intros H; try reflexivity; [|congruence].
  apply le_Fin. apply Qle_refl.
Qed.

Lemma le_trans (a b c : num) :
  le a b = true -> le b c = true -> le a c = true.
Proof.
  destruct a as [x| | |], b as [y| | |], c as [z| | |];
    try discriminate; try reflexivity.
  rewrite !le_Fin. apply Qle_trans.
Qed.

(** When [lt b a] fails on two numbers, [a] is at most [b]. *)
Lemma not_lt_le (a b : num) :
  a <> NaN -> b <> NaN -> lt b a = false -> le a b = true.
Proof.
  destruct a as [x| | |], b as [y| | |]; intros Ha Hb;
    try congruence; try discriminate; try reflexivity.
  intros H. apply le_Fin. apply Qnot_lt_le. intros Hlt.
  apply lt_Fin in Hlt. congruence.
Qed.

(** [Math.min] is [NaN] or below both its arguments. *)
Lemma min_below (a b : num) :
  min a b = NaN \/ (le (min a b) a = true /\ le (min a b) b = true).
Proof.
  destruct (lt b a) eqn:E.
  - destruct a as [x| | |], b as [y| | |]; try discriminate E; auto;
      right; cbn [min]; rewrite ?E; split;
      try reflexivity; try (apply le_refl; discriminate).
    apply le_Fin. apply Qlt_le_weak. now apply lt_Fin.
  - destruct a as [x| | |], b as [y| | |]; auto;
      right; cbn [min]; rewrite ?E; split;
      try (apply le_refl; discriminate);
      apply not_lt_le; try discriminate; exact E.
Qed.

Lemma min_NaN (a b : num) : min a b <> NaN -> a <> NaN /\ b <> NaN.
Proof. destruct a, b; cbn; intros H; split; congruence. Qed.

End JsNumOrder.

(** ** Position sizer: caps *)

Module SizerCaps.
Import Sizer JsNumOrder.

(** The size [calculatePositionSize] returns is [NaN] or exceeds neither
    [maxSize] nor the risk cap, the amount at risk over the current
    volatility. *)
Theorem size_within_caps (config : PositionSizeConfig) (params : Params) :
  let result := calculatePositionSize config params in
  let riskAmount :=
    (accountSize config * (riskPerTrade config / lit 100 1))%num in
  let maxPositionFromRisk :=
    (riskAmount
     / (currentVolatility (volatilityForecast params) / lit 100 1))%num in
  size result = NaN
  \/ ((size result <=? maxSize config)%num = true
      /\ (size result <=? maxPositionFromRisk)%num = true).
Proof.
  cbv zeta. unfold calculatePositionSize. cbv zeta. cbn [size].
  set (s := applyStrategyAdjustments _ _).
  set (cap := (_ / _)%num).
  destruct (min_below (JsNum.min s cap) (maxSize config)) as [E|[H1 H2]];
    [now left|].
  destruct (min_below s cap) as [E|[_ H3]].
  - left. rewrite E. reflexivity.
  - right. split; [exact H2|]. exact (le_trans _ _ _ H1 H3).
Qed.

End SizerCaps.


(** ** Signal aggregator: grouping, caps and the merged ranking *)

Module AggregatorPipeline.
Import Aggregator AggregatorFacts.

Lemma pushSignal_keys (k : string) (signal : TradeSignal) (g : SignalGroups) :
  map fst (pushSignal k signal g)
  = if existsb (String.eqb k) (map fst g) then map fst g
    else map fst g ++ [k].
Proof.
  induction g as [|[k' group] rest IH]; cbn [pushSignal map fst existsb app].
  - reflexivity.
  - rewrite (String.eqb_sym k k').
    destruct (String.eqb k' k); cbn [map fst orb]; [reflexivity|].
    rewrite IH. now destruct (existsb (String.eqb k) (map fst rest)).
Qed.

Lemma existsb_eqb_In (k : string) (l : list string) :
  existsb (String.eqb k) l = true <-> In k l.
Proof.
  rewrite existsb_exists. split.
  - intros (x & Hx & E). apply String.eqb_eq in E. now subst.
  - intros H. exists k. split; [exact H|apply String.eqb_refl].
Qed.

Lemma pushSignal_NoDup (k : string) (signal : TradeSignal) (g : SignalGroups) :
  List.NoDup (map fst g) -> List.NoDup (map fst (pushSignal k signal g)).
Proof.
  intros H. rewrite pushSignal_keys.
  destruct (existsb (String.eqb k) (map fst g)) eqn:E; [exact H|].
  apply List.NoDup_app; [exact H|constructor; [intros []|constructor]|].
  intros x Hx [->|[]].
  apply existsb_eqb_In in Hx. congruence.
Qed.

Lemma pushSignal_In (k : string) (signal : TradeSignal) (g : SignalGroups)
  (k' : string) (group' : list TradeSignal) :
  List.NoDup (map fst g) ->
  In (k', group') (pushSignal k signal g) ->
  (k' <> k /\ In (k', group') g)
  \/ (k' = k /\ exists group, In (k, group) g /\ group' = group ++ [signal])
  \/ (k' = k /\ ~ In k (map fst g) /\ group' = [signal]).
Proof.
  induction g as [|[k0 group0] rest IH]; cbn [pushSignal map fst];
    intros Hnd Hin.
  - destruct Hin as [E|[]]. inversion E; subst.
    right. right. repeat split. intros [].
  - inversion Hnd as [|? ? Hnotin Hnd']; subst.
    destruct (String.eqb_spec k0 k) as [->|Hne].
    + destruct Hin as [E|Hin].
      * inversion E; subst. right. left. split; [reflexivity|].
        exists group0. split; [now left|reflexivity].
      * left. split; [|now right].
        intros ->. apply Hnotin.
        apply (in_map fst) in Hin. exact Hin.
    + destruct Hin as [E|Hin].
      * inversion E; subst. left. split; [exact Hne|now left].
      * destruct (IH Hnd' Hin) as [[H1 H2]|[[H1 (grp & H2 & H3)]|[H1 [H2 H3]]]].
        -- left. split; [exact H1|now right].
        -- right. left. split; [exact H1|]. exists grp. split; [now right|auto].
        -- right. right. repeat split; auto.
           intros [E|Hk]; [congruence|auto].
Qed.

Lemma ofStrategy_snoc (k : string) (seen : list TradeSignal)
  (signal : TradeSignal) :
  ofStrategy k (seen ++ [signal])
  = if String.eqb (strategy signal) k then ofStrategy k seen ++ [signal]
    else ofStrategy k seen.
Proof.
  unfold ofStrategy. rewrite List.filter_app. cbn [List.filter].
  destruct (String.eqb (strategy signal) k); [reflexivity|apply app_nil_r].
Qed.

Lemma ofStrategy_absent (k : string) (seen : list TradeSignal) :
  (forall x, In x seen -> strategy x <> k) -> ofStrategy k seen = [].
Proof.
  induction seen as [|x rest IH]; intros H; [reflexivity|].
  unfold ofStrategy in *. cbn [List.filter].
  destruct (String.eqb_spec (strategy x) k) as [E|_].
  - exfalso. apply (H x); [now left|exact E].
  - apply IH. intros y Hy. apply H. now right.
Qed.

Lemma groupsOf_push (seen : list TradeSignal) (g : SignalGroups)
  (signal : TradeSignal) :
  groupsOf seen g ->
  groupsOf (seen ++ [signal]) (pushSignal (strategy signal) signal g).
Proof.
  intros (Hnd & Hgroups & Hkeys). split; [now apply pushSignal_NoDup|]. split.
  - intros k group Hin. rewrite ofStrategy_snoc.
    destruct (pushSignal_In _ _ _ _ _ Hnd Hin)
      as [[H1 H2]|[[H1 (grp & H2 & H3)]|[H1 [H2 H3]]]].
    + destruct (Hgroups k group H2) as [E Hne].
      destruct (String.eqb_spec (strategy signal) k); [congruence|auto].
    + subst k group. rewrite String.eqb_refl.
      destruct (Hgroups _ grp H2) as [E _]. rewrite <- E.
      split; [reflexivity|]. now destruct grp.
    + subst k group. rewrite String.eqb_refl.
      rewrite ofStrategy_absent; [split; [reflexivity|discriminate]|].
      intros x Hx E. apply H2. rewrite <- E. now apply Hkeys.
  - intros x Hx. rewrite pushSignal_keys.
    apply in_app_or in Hx. destruct Hx as [Hx|[->|[]]].
    + specialize (Hkeys x Hx).
      destruct (existsb _ _); [exact Hkeys|apply in_or_app; now left].
    + destruct (existsb (String.eqb (strategy x)) (map fst g)) eqn:E.
      * now apply existsb_eqb_In.
      * apply in_or_app. right. now left.
Qed.

Lemma groupsOf_fold (signals seen : list TradeSignal) (g : SignalGroups) :
  groupsOf seen g ->
  groupsOf (seen ++ signals)
    (fold_left (fun g signal => pushSignal (strategy signal) signal g)
               signals g).
Proof.
  revert seen g. induction signals as [|s rest IH]; intros seen g H.
  - now rewrite app_nil_r.
  - cbn [fold_left].
    replace (seen ++ s :: rest) with ((seen ++ [s]) ++ rest)
      by (now rewrite <- app_assoc).
    apply IH. now apply groupsOf_push.
Qed.

(** Grouping partitions the input by strategy: the keys are distinct, they
    are the strategies that occur, and the group of a key holds exactly the
    signals of that strategy, in their order; no group is empty. *)
Theorem groupSignalsByStrategy_partitions (signals : list TradeSignal) :
  let grouped := groupSignalsByStrategy signals in
  List.NoDup (map fst grouped)
  /\ (forall k group,
        In (k, group) grouped ->
        group = ofStrategy k signals /\ group <> [])
  /\ (forall x, In x signals -> In (strategy x) (map fst grouped)).
Proof.
  cbv zeta. unfold groupSignalsByStrategy.
  apply (groupsOf_fold signals [] []).
  split; [constructor|]. split; [intros ? ? []|intros ? []].
Qed.

Lemma firstn_In {A : Type} (n : nat) (l : list A) (x : A) :
  In x (firstn n l) -> In x l.
Proof.
  revert l. induction n as [|n IH]; intros [|y l]; cbn; try tauto.
  intros [H|H]; [now left|right; now apply IH].
Qed.

(** What survives per-group filtering: a group other than whale holds at
    most [maxSignals] signals (three, six for social and pump), none for a
    symbol with an open position and none of confidence below 0.10; the
    whale group holds only signals of confidence above 0.7. *)
Theorem filtered_groups_capped
  (load : string -> option (list StoredPosition)) (grouped : SignalGroups)
  (k : string) (out : list TradeSignal) :
  In (k, out) (filterAndRankSignals load grouped) ->
  (k <> "whale"%string ->
   (length out <= maxSignals k)%nat /\ (maxSignals k <= 6)%nat
   /\ forall s, In s out ->
        hasOpen (openPositions (load k)) s = false
        /\ (confidence s >=? lit 10 100)%num = true)
  /\ (k = "whale"%string ->
      forall s, In s out -> (confidence s >? lit 7 10)%num = true).
Proof.
  unfold filterAndRankSignals. intros Hin. apply in_map_iff in Hin.
  destruct Hin as ([k' group] & E & _). inversion E; subst k' out. clear E.
  unfold filterGroup. split.
  - intros Hk. destruct (String.eqb_spec k "whale"); [contradiction|].
    split; [apply firstn_le_length|]. split.
    { unfold maxSignals, MAX_SIGNALS_PER_STRATEGY.
      destruct (_ || _); cbn; lia. }
    intros s Hs. apply firstn_In in Hs.
    apply (Permutation_in _ (rankGroup_Permutation (load k) group)) in Hs.
    apply List.filter_In in Hs. destruct Hs as [Hs Hopen].
    apply in_map_iff in Hs. destruct Hs as (s0 & <- & _).
    split; [now apply negb_true_iff in Hopen|apply clampConfidence_floor].
  - intros ->. cbn [String.eqb Ascii.eqb Bool.eqb].
    intros s Hs. apply List.filter_In in Hs. tauto.
Qed.

Lemma filtered_groups_capped_witness :
  let out := [withConfidence trendLow (lit 10 100)] in
  ("trend"%string <> "whale"%string ->
   (length out <= maxSignals "trend")%nat /\ (maxSignals "trend" <= 6)%nat
   /\ forall s, In s out ->
        hasOpen (openPositions (sampleStore "trend")) s = false
        /\ (confidence s >=? lit 10 100)%num = true)
  /\ ("trend"%string = "whale"%string ->
      forall s, In s out -> (confidence s >? lit 7 10)%num = true).
Proof.
  apply (filtered_groups_capped sampleStore
           (groupSignalsByStrategy [whaleLow; trendLow; trendHeld])).
  right. left. reflexivity.
Defined.

(** *** The merged ranking *)

Lemma byConfidence_gt (x y : TradeSignal) (a b : Q) :
  confidence x = Fin a -> confidence y = Fin b ->
  ((byConfidence x y >? lit 0 1)%num = true <-> (a < b)%Q).
Proof.
  intros Hx Hy. unfold byConfidence, JsNum.gt, lit. rewrite Hx, Hy.
  cbn [sub neg add]. rewrite JsNumOrder.lt_Fin. split; intros H; lra.
Qed.

Lemma descending_Fin (x y : TradeSignal) (a b : Q) :
  confidence x = Fin a -> confidence y = Fin b ->
  (descending x y <-> (b <= a)%Q).
Proof.
  intros Hx Hy. unfold descending, JsNum.ge. rewrite Hx, Hy.
  apply JsNumOrder.le_Fin.
Qed.

Lemma descending_trans (x y z : TradeSignal) :
  descending x y -> descending y z -> descending x z.
Proof.
  unfold descending, JsNum.ge. intros H1 H2.
  exact (JsNumOrder.le_trans _ _ _ H2 H1).
Qed.

Lemma finite_confidence (x : TradeSignal) :
  isFinite (confidence x) = true -> exists a, confidence x = Fin a.
Proof. destruct (confidence x); try discriminate; eauto. Qed.

Lemma insertBy_sorted (x : TradeSignal) (l : list TradeSignal) :
  isFinite (confidence x) = true ->
  List.Forall (fun s => isFinite (confidence s) = true) l ->
  StronglySorted descending l ->
  StronglySorted descending (insertBy byConfidence x l).
Proof.
  intros Hx Hfin Hsorted.
  destruct (finite_confidence x Hx) as [a Ha].
  induction Hsorted as [|y rest Hrest IH Hall]; cbn [insertBy].
  - constructor; constructor.
  - inversion Hfin as [|? ? Hy Hfin']; subst.
    destruct (finite_confidence y Hy) as [b Hb].
    pose proof (byConfidence_gt x y a b Ha Hb) as Hgt.
    destruct (byConfidence x y >? lit 0 1)%num.
    + assert (Hlt : (a < b)%Q) by now apply Hgt.
      constructor; [now apply IH|].
      apply List.Forall_forall. intros z Hz.
      apply (Permutation_in _ (insertBy_Permutation byConfidence x rest))
        in Hz.
      destruct Hz as [<-|Hz].
      * apply (descending_Fin y x b a Hb Ha). lra.
      * rewrite List.Forall_forall in Hall. now apply Hall.
    + assert (Hge : (b <= a)%Q).
      { apply Qnot_lt_le. intros Hlt. apply Hgt in Hlt. discriminate. }
      assert (Hxy : descending x y) by now apply (descending_Fin x y a b).
      constructor; [now constructor|].
      constructor; [exact Hxy|].
      rewrite List.Forall_forall in Hall |- *. intros z Hz.
      apply (descending_trans x y z Hxy). now apply Hall.
Qed.

Lemma sortBy_sorted (l : list TradeSignal) :
  List.Forall (fun s => isFinite (confidence s) = true) l ->
  StronglySorted descending (sortBy byConfidence l).
Proof.
  induction 1 as [|x rest Hx Hrest IH]; cbn [sortBy fold_right].
  - constructor.
  - apply insertBy_sorted; [exact Hx| |exact IH].
    apply List.Forall_forall. intros z Hz.
    apply (Permutation_in _ (sortBy_Permutation byConfidence rest)) in Hz.
    rewrite List.Forall_forall in Hrest. now apply Hrest.
Qed.

Lemma strategyWeight_finite (k : string) :
  inherited k = false -> exists w, strategyWeight k = Fin w.
Proof.
  intros H. unfold strategyWeight, lit. rewrite H.
  repeat match goal with
         | |- context [if ?c then _ else _] => destruct c
         end; eauto.
Qed.

Lemma strategyWeight_inherited (k : string) :
  inherited k = true -> strategyWeight k = NaN.
Proof.
  intros H. unfold strategyWeight. rewrite H.
  unfold inherited in H. apply existsb_exists in H.
  destruct H as (name & Hin & E). apply String.eqb_eq in E. subst name.
  cbn [In] in Hin.
  repeat (destruct Hin as [<-|Hin]; [reflexivity|]). destruct Hin.
Qed.

Lemma scoreSignals_In (filtered : SignalGroups) (out : TradeSignal) :
  In out (scoreSignals filtered) <->
  exists k group s,
    In (k, group) filtered /\ In s group
    /\ out = withConfidence s (confidence s * strategyWeight k)%num.
Proof.
  unfold scoreSignals. rewrite in_flat_map. split.
  - intros ([k group] & Hin & Hout). apply in_map_iff in Hout.
    destruct Hout as (s & <- & Hs). eauto 6.
  - intros (k & group & s & Hin & Hs & ->). exists (k, group).
    split; [exact Hin|]. apply in_map_iff. eauto.
Qed.

Lemma combineAndSortSignals_In (filtered : SignalGroups)
  (out : TradeSignal) :
  In out (combineAndSortSignals filtered) <->
  exists k group s,
    In (k, group) filtered /\ In s group
    /\ out = withConfidence s (confidence s * strategyWeight k)%num.
Proof.
  pose proof (sortBy_Permutation byConfidence (scoreSignals filtered)) as Hp.
  rewrite <- scoreSignals_In. split; intros H.
  - exact (Permutation_in _ Hp H).
  - exact (Permutation_in _ (Permutation_sym Hp) H).
Qed.

Lemma combineAndSortSignals_sorted (filtered : SignalGroups) :
  (forall k group s,
     In (k, group) filtered -> In s group ->
     inherited k = false /\ isFinite (confidence s) = true) ->
  StronglySorted descending (combineAndSortSignals filtered).
Proof.
  intros Hfin. apply sortBy_sorted. apply List.Forall_forall.
  intros out Hout. apply scoreSignals_In in Hout.
  destruct Hout as (k & group & s & Hin & Hs & ->).
  cbn [confidence withConfidence].
  destruct (Hfin k group s Hin Hs) as [Hk Hc].
  destruct (finite_confidence s Hc) as [a ->].
  destruct (strategyWeight_finite k Hk) as [w ->]. reflexivity.
Qed.

(** [combineAndSortSignals] drops and invents nothing: its result is a
    rearrangement of the signals of all groups, each with its confidence
    multiplied by the weight of its strategy.  The weight is that of the
    table; for a strategy named like a member every object inherits
    (constructor, toString, ...) the lookup finds that member and the
    weighted confidence is [NaN]; any other strategy is weighted 0.1.  When
    no strategy is so named and the confidences are finite, the result is
    in descending order of weighted confidence. *)
Theorem combineAndSortSignals_ranks (filtered : SignalGroups) :
  Permutation (combineAndSortSignals filtered) (scoreSignals filtered)
  /\ (forall out,
        In out (combineAndSortSignals filtered) <->
        exists k group s,
          In (k, group) filtered /\ In s group
          /\ out = withConfidence s (confidence s * strategyWeight k)%num)
  /\ (forall k group s,
        In (k, group) filtered -> In s group -> inherited k = true ->
        In (withConfidence s NaN) (combineAndSortSignals filtered))
  /\ ((forall k group s,
         In (k, group) filtered -> In s group ->
         inherited k = false /\ isFinite (confidence s) = true) ->
      StronglySorted descending (combineAndSortSignals filtered)).
Proof.
  split; [|split; [|split]].
  - apply sortBy_Permutation.
  - intros out. apply combineAndSortSignals_In.
  - intros k group s Hin Hs Hk. apply combineAndSortSignals_In.
    exists k, group, s. split; [exact Hin|]. split; [exact Hs|].
    rewrite (strategyWeight_inherited k Hk).
    now destruct (confidence s).
  - apply combineAndSortSignals_sorted.
Qed.

Lemma combineAndSortSignals_ranks_witness :
  StronglySorted descending
    (combineAndSortSignals
       (filterAndRankSignals sampleStore
          (groupSignalsByStrategy sampleBatch))).
Proof.
  apply (combineAndSortSignals_ranks
           (filterAndRankSignals sampleStore
              (groupSignalsByStrategy sampleBatch))).
  intros k group s Hin Hs.
  vm_compute in Hin.
  repeat (destruct Hin as [E|Hin];
          [inversion E; subst; clear E;
           repeat (destruct Hs as [<-|Hs]; [split; reflexivity|]);
           destruct Hs|]).
  destruct Hin.
Defined.

(** *** The whole evaluation *)

Lemma pushSignal_count (k : string) (signal : TradeSignal) (g : SignalGroups) :
  length (concat (map snd (pushSignal k signal g)))
  = S (length (concat (map snd g))).
Proof.
  induction g as [|[k' group] rest IH]; cbn [pushSignal map snd concat].
  - reflexivity.
  - destruct (String.eqb k' k); cbn [map snd concat].
    + rewrite !length_app. cbn. lia.
    + rewrite !length_app, IH. lia.
Qed.

Lemma groupSignalsByStrategy_count (signals : list TradeSignal) :
  length (concat (map snd (groupSignalsByStrategy signals)))
  = length signals.
Proof.
  unfold groupSignalsByStrategy.
  assert (H : forall g,
    length (concat (map snd
      (fold_left (fun g signal => pushSignal (strategy signal) signal g)
                 signals g)))
    = (length signals + length (concat (map snd g)))%nat).
  { induction signals as [|s rest IH]; intros g; cbn [fold_left length].
    - reflexivity.
    - rewrite IH, pushSignal_count. lia. }
  rewrite H. cbn. lia.
Qed.

Lemma filterGroup_length (loaded : option (list StoredPosition))
  (k : string) (group : list TradeSignal) :
  (length (filterGroup loaded k group) <= length group)%nat.
Proof.
  unfold filterGroup. destruct (String.eqb k "whale").
  - apply RateLimiterFacts.filter_length_le.
  - rewrite length_firstn.
    rewrite (Permutation_length (rankGroup_Permutation loaded group)).
    pose proof (RateLimiterFacts.filter_length_le
                  (fun s => negb (hasOpen (openPositions loaded) s))
                  (map clampConfidence group)) as H.
    rewrite length_map in H. lia.
Qed.

Lemma scoreSignals_count
  (load : string -> option (list StoredPosition)) (grouped : SignalGroups) :
  (length (scoreSignals (filterAndRankSignals load grouped))
   <= length (concat (map snd grouped)))%nat.
Proof.
  induction grouped as [|[k group] rest IH]; [cbn; lia|].
  unfold scoreSignals, filterAndRankSignals in *.
  cbn [map flat_map snd concat]. rewrite !length_app, length_map.
  pose proof (filterGroup_length (load k) k group). lia.
Qed.

Lemma withConfidence_same (s : TradeSignal) :
  withConfidence s (confidence s) = s.
Proof. now destruct s. Qed.

Lemma filterGroup_In (loaded : option (list StoredPosition)) (k : string)
  (group : list TradeSignal) (s' : TradeSignal) :
  In s' (filterGroup loaded k group) ->
  exists s0 c,
    In s0 group /\ s' = withConfidence s0 c
    /\ (k <> "whale"%string -> hasOpen (openPositions loaded) s' = false)
    /\ (isFinite (confidence s0) = true -> isFinite (confidence s') = true).
Proof.
  unfold filterGroup. destruct (String.eqb_spec k "whale") as [->|Hk].
  - intros H. apply List.filter_In in H. destruct H as [H _].
    exists s', (confidence s'). rewrite withConfidence_same.
    repeat split; auto. congruence.
  - intros H. apply firstn_In in H.
    apply (Permutation_in _ (rankGroup_Permutation loaded group)) in H.
    apply List.filter_In in H. destruct H as [H Hopen].
    apply in_map_iff in H. destruct H as (s0 & <- & H0).
    exists s0, (confidence (clampConfidence s0)).
    repeat split; auto.
    + intros _. now apply negb_true_iff in Hopen.
    + intros Hf. unfold clampConfidence. cbn [confidence withConfidence].
      now destruct (confidence s0 >=? lit 10 100)%num.
Qed.

(** The evaluation as a whole returns no more signals than it was given
    (none for none); each returned signal is one of the input with its
    confidence rewritten; outside the whale strategy none is for a symbol
    with an open position; and when the input confidences are finite and no
    strategy is named like a member every object inherits, the result is in
    descending order of confidence. *)
Theorem evaluateSignals_sound
  (load : string -> option (list StoredPosition))
  (signals : list TradeSignal) :
  let out := evaluateSignals load signals in
  (length out <= length signals)%nat
  /\ (forall o, In o out ->
        exists s c, In s signals /\ o = withConfidence s c)
  /\ (forall o, In o out -> strategy o <> "whale"%string ->
        hasOpen (openPositions (load (strategy o))) o = false)
  /\ (List.Forall (fun s => inherited (strategy s) = false
                            /\ isFinite (confidence s) = true) signals ->
      StronglySorted descending out).
Proof.
  cbv zeta. unfold evaluateSignals. cbv zeta.
  set (grouped := groupSignalsByStrategy signals).
  assert (Hgroups : forall k group,
    In (k, group) grouped -> group = ofStrategy k signals /\ group <> []).
  { apply (groupsOf_fold signals [] []).
    split; [constructor|]. split; [intros ? ? []|intros ? []]. }
  pose proof (sortBy_Permutation byConfidence
                (scoreSignals (filterAndRankSignals load grouped))) as Hperm.
  fold (combineAndSortSignals (filterAndRankSignals load grouped)) in Hperm.
  pose proof (combineAndSortSignals_In (filterAndRankSignals load grouped))
    as Hin.
  pose proof (combineAndSortSignals_sorted
                (filterAndRankSignals load grouped)) as Hsorted.
  assert (Horigin : forall k fgroup s',
    In (k, fgroup) (filterAndRankSignals load grouped) -> In s' fgroup ->
    exists s0 c,
      In s0 signals /\ strategy s0 = k /\ s' = withConfidence s0 c
      /\ (k <> "whale"%string ->
          hasOpen (openPositions (load k)) s' = false)
      /\ (isFinite (confidence s0) = true ->
          isFinite (confidence s') = true)).
  { intros k fgroup s' Hf Hs'. unfold filterAndRankSignals in Hf.
    apply in_map_iff in Hf. destruct Hf as ([k0 group] & E & Hg).
    inversion E; subst k0 fgroup. clear E.
    destruct (filterGroup_In _ _ _ _ Hs') as (s0 & c & H0 & -> & Ho & Hfin).
    destruct (Hgroups k group Hg) as [Eg _]. rewrite Eg in H0.
    apply List.filter_In in H0. destruct H0 as [H0 Hstrat].
    apply String.eqb_eq in Hstrat. exists s0, c. auto 6. }
  split.
  { rewrite (Permutation_length Hperm).
    rewrite <- (groupSignalsByStrategy_count signals).
    apply scoreSignals_count. }
  split.
  { intros o Ho. apply Hin in Ho.
    destruct Ho as (k & fgroup & s' & Hf & Hs' & ->).
    destruct (Horigin k fgroup s' Hf Hs') as (s0 & c & H0 & _ & -> & _).
    exists s0. eexists. split; [exact H0|reflexivity]. }
  split.
  { intros o Ho Hnw. apply Hin in Ho.
    destruct Ho as (k & fgroup & s' & Hf & Hs' & ->).
    destruct (Horigin k fgroup s' Hf Hs') as (s0 & c & H0 & Hk & -> & Hopen & _).
    cbn [strategy withConfidence] in *. rewrite Hk in *.
    apply (Hopen Hnw). }
  intros Hfin. apply Hsorted. intros k fgroup s' Hf Hs'.
  destruct (Horigin k fgroup s' Hf Hs') as (s0 & c & H0 & Hk & _ & _ & Hkeep).
  rewrite List.Forall_forall in Hfin. destruct (Hfin s0 H0) as [Hn Hc].
  split; [now rewrite <- Hk|now apply Hkeep].
Qed.

Lemma evaluateSignals_sound_witness :
  StronglySorted descending (evaluateSignals sampleStore sampleBatch).
Proof.
  apply (evaluateSignals_sound sampleStore sampleBatch).
  repeat (apply List.Forall_cons; [split; reflexivity|]).
  apply List.Forall_nil.
Defined.

(** The sample batch: the held symbol and the weak whale signal are gone;
    the unlisted news strategy is weighted 0.1 and ranks last. *)
Example evaluateSignals_sample :
  map (fun s => (symbol s, strategy s))
      (evaluateSignals sampleStore sampleBatch)
  = [("RAY", "trend"); ("BONK", "trend"); ("ORCA", "news")]%string.
Proof. vm_compute. reflexivity. Qed.

End AggregatorPipeline.


(** ** Trading bot: entries, exits and shutdown *)

Module BotLifecycle.
Import Bot BotFacts JsNumOrder.

Lemma evaluateSignal_swaps (signal : Aggregator.TradeSignal)
  (obs : EntryObs) (b : TradingBot) :
  List.filter isSwap (newEvents b (exec (evaluateSignal signal obs) b))
  = (if refusedBeforeSwap signal obs b then []
     else [SwapCall Entry (Aggregator.symbol signal)
                    (calculatePositionSize (Aggregator.confidence signal) b)]).
Proof.
  unfold refusedBeforeSwap, newEvents. unfold_methods. cbn.
  split_answers;
    rewrite <- ?app_assoc, ?skipn_app, ?Nat.sub_diag, ?skipn_all;
    cbn; rewrite ?Nat.sub_diag, ?skipn_all;
    repeat match goal with
           | H : _ || _ = false |- _ =>
               apply orb_false_elim in H; destruct H
           | H : _ || _ = true |- _ => apply orb_true_iff in H; destruct H
           end;
    subst; cbn in *; try congruence; try reflexivity.
Qed.

Lemma calculatePositionSize_capped (confidence : num) (b : TradingBot) :
  calculatePositionSize confidence b = NaN
  \/ (calculatePositionSize confidence b <=? config.maxSize)%num = true.
Proof.
  unfold calculatePositionSize. cbv zeta.
  match goal with
  | |- JsNum.min ?size _ = NaN \/ _ =>
      destruct (min_below size config.maxSize) as [E|[_ H]];
      [now left|now right]
  end.
Qed.

(** What one call of [evaluateSignal] does itself: it writes to the table
    entry of its own symbol only; it issues no swap when one of its own
    tests refuses the entry (a position of the symbol in the table at its
    start, an invalid mint, a liquidity analysis that throws or finds the
    trade unsafe, whale distribution); and it never issues more than one
    swap, the entry swap of its symbol, for an amount that is [NaN] or at
    most [maxSize]. *)
Theorem evaluateSignal_trades_once (signal : Aggregator.TradeSignal)
  (obs : EntryObs) (b : TradingBot) :
  let b' := exec (evaluateSignal signal obs) b in
  let swaps := List.filter isSwap (newEvents b b') in
  (forall s, s <> Aggregator.symbol signal ->
             positions b' !! s = positions b !! s)
  /\ (refusedByChecks signal obs b = true -> swaps = [])
  /\ (swaps = []
      \/ exists amount,
           swaps = [SwapCall Entry (Aggregator.symbol signal) amount]
           /\ (amount = NaN \/ (amount <=? config.maxSize)%num = true)).
Proof.
  cbv zeta. split; [|split].
  - intros s Hs. rewrite evaluateSignal_positions.
    destruct (entryBlocked signal obs b); [reflexivity|].
    destruct (priceOutcome _ _ _ b); [|reflexivity].
    destruct (e_swap obs); [|reflexivity].
    now rewrite lookup_insert_ne by congruence.
  - intros Hr. rewrite evaluateSignal_swaps. unfold refusedBeforeSwap.
    unfold refusedByChecks in Hr. now rewrite Hr.
  - rewrite evaluateSignal_swaps.
    destruct (refusedBeforeSwap signal obs b); [now left|right].
    eexists. split; [reflexivity|]. apply calculatePositionSize_capped.
Qed.

Lemma exitPosition_startTimes (symbol : string) (p : Position)
  (reason : string) (obs : ExitObs) (b : TradingBot) :
  positionStartTimes (exec (exitPosition symbol p reason obs) b)
  = delete symbol (positionStartTimes b).
Proof.
  unfold_methods. cbn.
  split_answers;
    try (unfold recordClosedTrade;
         destruct (adjustConfidenceMultiplier _ _) as [history mult]; cbn);
    reflexivity.
Qed.

Lemma exitPosition_lookup (symbol : string) (p : Position) (reason : string)
  (obs : ExitObs) (b : TradingBot) (k : string) :
  let b' := exec (exitPosition symbol p reason obs) b in
  positions b' !! k = positions b !! k
  \/ (k = symbol /\ positions b' !! k = None).
Proof.
  cbv zeta.
  destruct (exitPosition_effect symbol p reason obs b) as [_ [H|H]];
    cbv zeta in H; rewrite H; [now left|].
  destruct (decide (k = symbol)) as [->|Hne].
  - right. split; [reflexivity|apply lookup_delete_eq].
  - left. now apply lookup_delete_ne.
Qed.

(** Whatever happens in an exit, the start time of the symbol is deleted
    and nothing else in either table is touched: the position of the symbol
    is removed or left as it was, and a position that survives a failed
    exit is of age zero at the next tick. *)
Theorem exitPosition_forgets_start_time (symbol : string) (p : Position)
  (reason : string) (obs : ExitObs) (b : TradingBot) :
  let b' := exec (exitPosition symbol p reason obs) b in
  positionStartTimes b' = delete symbol (positionStartTimes b)
  /\ (forall other, other <> symbol ->
        positions b' !! other = positions b !! other)
  /\ (positions b' !! symbol = None
      \/ positions b' !! symbol = positions b !! symbol)
  /\ (forall tick, tickAge symbol tick b' = 0).
Proof.
  cbv zeta.
  pose proof (exitPosition_startTimes symbol p reason obs b) as Hst.
  split; [exact Hst|]. split; [|split].
  - intros other Hne.
    destruct (exitPosition_lookup symbol p reason obs b other) as [H|[E _]];
      [exact H|congruence].
  - destruct (exitPosition_lookup symbol p reason obs b symbol) as [H|[_ H]];
      auto.
  - intros tick. unfold tickAge. rewrite Hst, lookup_delete_eq.
    cbn [startTimeOr]. lia.
Qed.

(** The trade history that [exitPosition] keeps for the confidence
    multipliers never grows beyond fifty records, and the multipliers are
    left as they are until the history holds five. *)
Theorem trade_history_bounded (symbol : string) (p : Position)
  (reason : string) (obs : ExitObs) (b : TradingBot) :
  (length (tradeHistory b) <= 50)%nat ->
  let b' := exec (exitPosition symbol p reason obs) b in
  (length (tradeHistory b') <= 50)%nat
  /\ ((length (tradeHistory b) < 4)%nat ->
      confidenceMultipliers b' = confidenceMultipliers b).
Proof.
  intros Hlen. cbv zeta.
  assert (Hadj : forall roi,
    let r := adjustConfidenceMultiplier
               (tradeHistory b ++ [(roi, confidence p)])
               (confidenceMultipliers b) in
    (length (fst r) <= 50)%nat
    /\ ((length (tradeHistory b) < 4)%nat ->
        snd r = confidenceMultipliers b)).
  { intros roi. cbv zeta. unfold adjustConfidenceMultiplier.
    rewrite length_app. cbn [length].
    destruct (Nat.ltb_spec (length (tradeHistory b) + 1) 5).
    - cbn [fst snd]. rewrite length_app. cbn. split; [lia|auto].
    - destruct (Nat.ltb_spec 50 (length (tradeHistory b) + 1));
        cbn [fst snd length]; rewrite ?length_app; cbn [length];
        split; lia. }
  unfold_methods. cbn.
  split_answers;
    try (unfold recordClosedTrade;
         match goal with
         | |- context [adjustConfidenceMultiplier (_ ++ [(?roi, _)]) _] =>
             specialize (Hadj roi); cbv zeta in Hadj
         end;
         destruct (adjustConfidenceMultiplier _ _) as [history mult];
         cbn in *; exact Hadj);
    split; auto.
Qed.

Lemma trade_history_bounded_witness :
  let b' := exec (exitPosition MINT samplePosition "stop_loss" exitAt110)
                 botOpen in
  (length (tradeHistory b') <= 50)%nat
  /\ ((length (tradeHistory botOpen) < 4)%nat ->
      confidenceMultipliers b' = confidenceMultipliers botOpen).
Proof.
  apply (trade_history_bounded MINT samplePosition "stop_loss" exitAt110
           botOpen).
  vm_compute. lia.
Defined.

(** *** Shutdown *)

Lemma stop_run (obs : string -> ExitObs) (b : TradingBot) :
  exec (stop obs) b
  = with_event (StatusLogged "stopped")
      (with_event (BotStatusUpdated false 0)
         (snd (forEach (map_to_list (positions b)) (shutdownExit obs)
                       (with_flags false true b)))).
Proof.
  pose proof (shutdown_loop obs (map_to_list (positions b))
                (with_flags false true b)) as (Hfst & _).
  cbv zeta in Hfst.
  unfold stop, exec. unfold bind at 1. unfold modify at 1.
  cbv beta iota. unfold bind at 1. unfold get at 1. cbv beta iota.
  change (positions (with_flags false true b)) with (positions b).
  unfold bind at 1. fold (shutdownExit obs) in Hfst |- *.
  destruct (forEach _ _ (with_flags false true b)) as [o b1].
  cbn [fst snd] in Hfst |- *. subst o. reflexivity.
Qed.

Lemma priceOutcome_returned (mint : string) (now : Z) (fetched : Outcome num)
  (b : TradingBot) :
  isThrown fetched = false ->
  isThrown (priceOutcome mint now fetched b) = false.
Proof.
  intros H. unfold priceOutcome. unfold_methods. cbn.
  destruct (marketPriceCache b !! mint) as [[price t]|]; cbn;
    [destruct (_ <? _); cbn; [reflexivity|]|];
    destruct fetched; cbn in *; congruence.
Qed.

Lemma forget_lookup {A : Type} (entries : list (string * Position))
  (m : gmap string A) (k : string) :
  forget entries m !! k = None
  \/ (forget entries m !! k = m !! k /\ ~ In k (map fst entries)).
Proof.
  revert m. induction entries as [|[s p] rest IH]; intros m; cbn.
  - right. auto.
  - destruct (IH (delete s m)) as [H|[H Hn]]; [now left|].
    destruct (decide (k = s)) as [->|Hne].
    + left. unfold forget in H. cbn in H. rewrite H. apply lookup_delete_eq.
    + right. unfold forget in H. cbn in H. rewrite H.
      split; [now apply lookup_delete_ne|]. intros [E|Hin]; auto.
Qed.

Lemma shutdown_loop_tables (obs : string -> ExitObs)
  (entries : list (string * Position)) (b : TradingBot) :
  let r := snd (forEach entries (shutdownExit obs) b) in
  positionStartTimes r = forget entries (positionStartTimes b)
  /\ (forall symbol, positions r !! symbol = None
                     \/ positions r !! symbol = positions b !! symbol)
  /\ (exitsReturn obs -> positions r = forget entries (positions b)).
Proof.
  revert b. induction entries as [|[symbol p] rest IH]; intros b; cbv zeta.
  - cbn. auto.
  - assert (Estep :
      forEach ((symbol, p) :: rest) (shutdownExit obs) b
      = forEach rest (shutdownExit obs)
          (exec (exitPosition symbol p "bot_shutdown" (obs symbol)) b)).
    { cbn [forEach]. unfold bind. unfold shutdownExit at 1.
      now rewrite tryCatch_exitPosition. }
    rewrite Estep. clear Estep.
    pose proof (exitPosition_startTimes symbol p "bot_shutdown" (obs symbol)
                  b) as Hst.
    assert (Hother : forall other, other <> symbol ->
      positions (exec (exitPosition symbol p "bot_shutdown" (obs symbol)) b)
      !! other = positions b !! other).
    { intros other Hne.
      destruct (exitPosition_lookup symbol p "bot_shutdown" (obs symbol) b
                  other) as [H|[E _]]; [exact H|congruence]. }
    assert (Hsym :
      positions (exec (exitPosition symbol p "bot_shutdown" (obs symbol)) b)
      !! symbol = None
      \/ positions (exec (exitPosition symbol p "bot_shutdown" (obs symbol))
                         b) !! symbol = positions b !! symbol).
    { destruct (exitPosition_lookup symbol p "bot_shutdown" (obs symbol) b
                  symbol) as [H|[_ H]]; auto. }
    set (b1 := exec (exitPosition symbol p "bot_shutdown" (obs symbol)) b)
      in *.
    destruct (IH b1) as (Hst2 & Hpos2 & Hall2). cbv zeta in Hst2, Hpos2, Hall2.
    split; [|split].
    + refine (eq_trans Hst2 _). rewrite Hst. reflexivity.
    + intros s. destruct (Hpos2 s) as [H|H]; [left; exact H|].
      destruct (decide (s = symbol)) as [->|Hne].
      * destruct Hsym as [E|E]; [left|right];
          exact (eq_trans H E).
      * right. exact (eq_trans H (Hother s Hne)).
    + intros Hobs. refine (eq_trans (Hall2 Hobs) _). cbn. f_equal.
      destruct (Hobs symbol) as [Hp Hs].
      pose proof (priceOutcome_returned (tokenMint p) (x_now (obs symbol))
                    _ b Hp) as Hp'.
      destruct (priceOutcome _ _ _ b) as [cp|] eqn:Ecp; [|discriminate].
      destruct (x_swap (obs symbol)) as [sw|] eqn:Esw; [|discriminate].
      now destruct (exitPosition_returned symbol p "bot_shutdown"
                      (obs symbol) b cp sw Ecp Esw) as (H & _).
Qed.

(** [stop] opens nothing and rewrites no position: what is left in the table
    afterwards was there before, unchanged.  The start time of every position
    open at shutdown is deleted, whether its exit went through or not, and
    when no price fetch and no swap of the exits throws the table is left
    empty. *)
Theorem stop_closes_table (obs : string -> ExitObs) (b : TradingBot) :
  let b' := exec (stop obs) b in
  (forall symbol p, positions b' !! symbol = Some p ->
                    positions b !! symbol = Some p)
  /\ (forall symbol, is_Some (positions b !! symbol) ->
                     positionStartTimes b' !! symbol = None)
  /\ (exitsReturn obs -> positions b' = ∅).
Proof.
  cbv zeta. rewrite stop_run.
  destruct (shutdown_loop_tables obs (map_to_list (positions b))
              (with_flags false true b)) as (Hst & Hpos & Hall).
  cbv zeta in Hst, Hpos, Hall.
  change (positions (with_flags false true b)) with (positions b) in *.
  change (positionStartTimes (with_flags false true b))
    with (positionStartTimes b) in *.
  cbn [with_event positions positionStartTimes].
  split; [|split].
  - intros symbol p Hp. destruct (Hpos symbol) as [H|H]; congruence.
  - intros symbol [p Hp]. rewrite Hst.
    destruct (forget_lookup (map_to_list (positions b))
                (positionStartTimes b) symbol) as [H|[_ Hn]]; [exact H|].
    exfalso. apply Hn. apply in_map_iff. exists (symbol, p). split; auto.
    apply list_elem_of_In, elem_of_map_to_list. exact Hp.
  - intros Hobs. rewrite (Hall Hobs). apply map_eq. intros k.
    rewrite lookup_empty.
    destruct (forget_lookup (map_to_list (positions b)) (positions b) k)
      as [H|[H Hn]]; [exact H|].
    rewrite H. destruct (positions b !! k) as [p|] eqn:Hk; [|reflexivity].
    exfalso. apply Hn. apply in_map_iff. exists (k, p). split; auto.
    apply list_elem_of_In, elem_of_map_to_list. exact Hk.
Qed.

Lemma stop_closes_table_witness :
  positions (exec (stop shutdownExits) botRunning) = ∅.
Proof.
  destruct (stop_closes_table shutdownExits botRunning) as (_ & _ & H).
  apply H. intros symbol. vm_compute. auto.
Defined.

End BotLifecycle.


(** ** Trading bot: what a tick writes to *)

Module BotPositions.
Import Bot BotFacts JsNumOrder BotLifecycle.

Lemma mutate_other (symbol other : string) (q : Position) (b : TradingBot) :
  other <> symbol ->
  positions (exec (mutate symbol q) b) !! other = positions b !! other.
Proof.
  intros Hne. rewrite mutate_positions. destruct (has _ _); [|reflexivity].
  now rewrite lookup_insert_ne by congruence.
Qed.

Lemma mutate_absent (symbol : string) (q : Position) (b : TradingBot) :
  positions b !! symbol = None ->
  exec (mutate symbol q) b = b.
Proof.
  intros H. unfold mutate, modify, exec, with_positions, has. cbn.
  rewrite H. now destruct b.
Qed.

Lemma untouched_mutate (symbol k : string) (q : Position)
  (b0 b : TradingBot) :
  k <> symbol \/ positions b0 !! symbol = None ->
  untouched symbol k b0 b -> untouched symbol k b0 (exec (mutate symbol q) b).
Proof.
  intros Hk [H1 H2]. destruct Hk as [Hne|Hnone].
  - split.
    + rewrite mutate_other by exact Hne. exact H1.
    + intros Hn. rewrite mutate_absent by auto. auto.
  - rewrite mutate_absent by auto. now split.
Qed.

Lemma untouched_exit (symbol k : string) (q : Position) (reason : string)
  (obs : ExitObs) (b0 b : TradingBot) :
  k <> symbol \/ positions b0 !! symbol = None ->
  untouched symbol k b0 b ->
  untouched symbol k b0 (exec (exitPosition symbol q reason obs) b).
Proof.
  intros Hk [H1 H2]. split.
  - destruct (exitPosition_lookup symbol q reason obs b k) as [H|[-> H]];
      cbv zeta in H; [congruence|].
    destruct Hk as [Hne|Hnone]; [congruence|]. now rewrite H, Hnone.
  - intros Hn.
    destruct (exitPosition_lookup symbol q reason obs b symbol) as [H|[_ H]];
      cbv zeta in H; [|exact H].
    rewrite H. auto.
Qed.

Lemma untouched_levels (symbol k : string) (q : Position) (cp : num)
  (obs : TickObs) (b0 b : TradingBot) :
  k <> symbol \/ positions b0 !! symbol = None ->
  untouched symbol k b0 b ->
  untouched symbol k b0 (snd (takeProfitLevels symbol q cp obs b)).
Proof.
  intros Hk H. unfold takeProfitLevels, bind.
  rewrite takeProfitLevel1_run.
  destruct (fires (level1 q) cp); cbv zeta;
    [destruct (t_sell1 obs); [|exact H]|];
    rewrite takeProfitLevel2_run;
    destruct (fires (level2 _) cp); cbv zeta;
    try (destruct (t_sell2 obs)); cbn [fst snd];
    repeat first [ exact H | apply untouched_mutate; [exact Hk|] ].
Qed.

Lemma updatePosition_untouched (symbol : string) (p : Position)
  (obs : TickObs) (b : TradingBot) (k : string) :
  k <> symbol \/ positions b !! symbol = None ->
  untouched symbol k b (exec (updatePosition symbol p obs) b).
Proof.
  intros Hk. rewrite updatePosition_run.
  destruct (getCachedMarketPrice_run (tokenMint p) (t_now obs)
              (t_price obs) b) as (b1 & E & Hpos & Hst & Hev).
  rewrite E.
  assert (H1 : untouched symbol k b b1)
    by (split; rewrite Hpos; auto).
  destruct (priceOutcome _ _ _ b) as [cp|]; [|exact H1].
  destruct (preChecks p (tickAge symbol obs b1) cp obs) as [reason p1|p1].
  - now apply untouched_exit, untouched_mutate.
  - pose proof (untouched_levels symbol k p1 cp obs b
                  (exec (mutate symbol p1) b1) Hk
                  (untouched_mutate symbol k p1 b b1 Hk H1)) as H2.
    destruct (takeProfitLevels symbol p1 cp obs (exec (mutate symbol p1) b1))
      as [[p2|] b2]; cbn [fst snd] in H2; [|exact H2].
    destruct (t_spike obs <? _)%num; [|exact H2].
    now apply untouched_exit.
Qed.

(** A tick of one position writes to the entry of its own symbol only:
    every other entry of the table is left as it was, and a symbol that has
    no entry gets none. *)
Theorem updatePosition_touches_own_symbol (symbol : string) (p : Position)
  (obs : TickObs) (b : TradingBot) :
  let b' := exec (updatePosition symbol p obs) b in
  (forall other, other <> symbol ->
     positions b' !! other = positions b !! other)
  /\ (positions b !! symbol = None -> positions b' !! symbol = None).
Proof.
  cbv zeta. split.
  - intros other Hne.
    now destruct (updatePosition_untouched symbol p obs b other
                    (or_introl Hne)).
  - intros Hnone.
    destruct (updatePosition_untouched symbol p obs b symbol
                (or_intror Hnone)) as [_ H]. auto.
Qed.

End BotPositions.


(** ** Market indicators *)

Module IndicatorFacts.
Import Bot Indicators JsNumOrder.

Lemma totalVolume_from (candles : list CandleData) (a : Q) :
  Forall (fun c => nonNegative (volume c)) candles ->
  exists s,
    fold_left (fun sum candle => (sum + volume candle)%num) candles (Fin a)
    = Fin s
    /\ (a <= s)%Q
    /\ (Forall (fun c => volume c ~= lit 0 1)%num candles -> s == a)%Q
    /\ (Exists (fun c => positive (volume c)) candles -> a < s)%Q.
Proof.
  revert a. induction candles as [|c rest IH]; intros a Hall; cbn.
  - exists a. split; [reflexivity|]. split; [lra|]. split; [lra|].
    intros H. inversion H.
  - inversion Hall as [|? ? (x & Hx & Hx0) Hrest]; subst.
    rewrite Hx. cbn [add].
    destruct (IH (a + x)%Q Hrest) as (s & Hs & Hle & Hzero & Hpos).
    exists s. split; [exact Hs|]. split; [lra|]. split.
    + intros Hz. inversion Hz as [|? ? Hc Hr]; subst.
      rewrite Hx in Hc. unfold lit in Hc. cbn [same] in Hc.
      specialize (Hzero Hr). lra.
    + intros He. inversion He as [? ? (y & Hy & Hy0)|? ? Hr]; subst.
      * rewrite Hx in Hy. inversion Hy; subst. lra.
      * specialize (Hpos Hr). lra.
Qed.

(** With at most twelve candles of history there is no previous window to
    compare with, and the division by its zero volume is not caught: the
    trend is no finite number.  It is [Infinity] when some volume is
    positive and [NaN] when all are zero; a failed fetch, in contrast,
    gives 0. *)
Theorem calculateVolumeTrend_short_history (historicalData : list CandleData) :
  Forall (fun c => nonNegative (volume c)) historicalData ->
  (length historicalData <= 12)%nat ->
  calculateVolumeTrend Thrown = lit 0 1
  /\ (calculateVolumeTrend (Returned historicalData) = NaN
      \/ calculateVolumeTrend (Returned historicalData) = PInf)
  /\ (Forall (fun c => volume c ~= lit 0 1)%num historicalData ->
      calculateVolumeTrend (Returned historicalData) = NaN)
  /\ (Exists (fun c => positive (volume c)) historicalData ->
      calculateVolumeTrend (Returned historicalData) = PInf).
Proof.
  intros Hall Hlen. split; [reflexivity|].
  assert (E1 : skipn 12 historicalData = []) by (apply skipn_all2; lia).
  assert (E2 : firstn 12 historicalData = historicalData)
    by (apply firstn_all2; lia).
  unfold calculateVolumeTrend, slice. cbv zeta.
  change (24 - 12)%nat with 12%nat. change (12 - 0)%nat with 12%nat.
  change (skipn 0 historicalData) with historicalData.
  rewrite E1, E2, firstn_nil.
  unfold totalVolume, lit. cbn [fold_left].
  destruct (totalVolume_from historicalData 0 Hall)
    as (s & Hs & Hle & Hzero & Hpos).
  unfold lit in Hs. rewrite Hs. cbn [sub neg add div].
  assert (E : Qeq_bool (0 # 1) 0 = true) by reflexivity. rewrite E.
  split; [|split].
  - destruct (s + - (0 # 1) ?= 0)%Q eqn:C;
      [now left| |now right].
    apply Qlt_alt in C. lra.
  - intros Hz. specialize (Hzero Hz).
    assert (C : (s + - (0 # 1) ?= 0)%Q = Eq) by (apply Qeq_alt; lra).
    rewrite C. reflexivity.
  - intros He. specialize (Hpos He).
    assert (C : (s + - (0 # 1) ?= 0)%Q = Gt) by (apply Qgt_alt; lra).
    rewrite C. reflexivity.
Qed.

Lemma calculateVolumeTrend_short_history_witness :
  calculateVolumeTrend (Returned hourOfCandles) = PInf
  /\ calculateVolumeTrend (Returned [mkCandle (lit 0 1)]) = NaN.
Proof.
  split.
  - destruct (calculateVolumeTrend_short_history hourOfCandles)
      as (_ & _ & _ & H).
    + repeat constructor; eexists; (split; [reflexivity|]);
        vm_compute; congruence.
    + cbn. lia.
    + apply H. left. eexists. split; [reflexivity|]. vm_compute. reflexivity.
  - destruct (calculateVolumeTrend_short_history [mkCandle (lit 0 1)])
      as (_ & _ & H & _).
    + repeat constructor; eexists; (split; [reflexivity|]);
        vm_compute; congruence.
    + cbn. lia.
    + apply H. repeat constructor.
Defined.

Lemma mathMax_from (l : list num) (a : Q) :
  Forall positive l ->
  exists h, fold_left JsNum.max l (Fin a) = Fin h /\ (a <= h)%Q.
Proof.
  revert a. induction l as [|p rest IH]; intros a Hall; cbn [fold_left].
  - exists a. split; [reflexivity|lra].
  - inversion Hall as [|? ? (x & -> & Hx) Hrest]; subst.
    cbn [JsNum.max].
    destruct (lt (Fin a) (Fin x)) eqn:L.
    + apply lt_Fin in L.
      destruct (IH x Hrest) as (h & Hh & Hle). exists h. split; [auto|lra].
    + destruct (IH a Hrest) as (h & Hh & Hle). exists h. auto.
Qed.

Lemma mathMin_from (l : list num) (a : Q) :
  (0 < a)%Q -> Forall positive l ->
  exists low, fold_left JsNum.min l (Fin a) = Fin low
              /\ (0 < low)%Q /\ (low <= a)%Q.
Proof.
  revert a. induction l as [|p rest IH]; intros a Ha Hall; cbn [fold_left].
  - exists a. split; [reflexivity|lra].
  - inversion Hall as [|? ? (x & -> & Hx) Hrest]; subst.
    cbn [JsNum.min].
    destruct (lt (Fin x) (Fin a)) eqn:L.
    + apply lt_Fin in L.
      destruct (IH x Hx Hrest) as (low & Hl & H0 & Hle).
      exists low. repeat split; auto; lra.
    + destruct (IH a Ha Hrest) as (low & Hl & H0 & Hle).
      exists low. auto.
Qed.

(** The price range of an hour is never negative: for positive prices it
    is a non-negative number, and with fewer than two prices, or when the
    request fails, it is 0. *)
Theorem getPriceRange_not_negative (prices : list num) :
  Forall positive prices ->
  nonNegative (getPriceRange (Returned prices))
  /\ ((length prices < 2)%nat -> getPriceRange (Returned prices) = lit 0 1)
  /\ getPriceRange Thrown = lit 0 1.
Proof.
  intros Hall.
  assert (Hshort : (length prices < 2)%nat ->
                   getPriceRange (Returned prices) = lit 0 1).
  { intros H. unfold getPriceRange.
    destruct (Nat.ltb_spec (length prices) 2); [reflexivity|lia]. }
  split; [|split; [exact Hshort|reflexivity]].
  destruct (Nat.ltb_spec (length prices) 2) as [Hlt|Hge].
  - rewrite (Hshort Hlt). exists 0%Q. split; [reflexivity|lra].
  - unfold getPriceRange.
    destruct (Nat.ltb_spec (length prices) 2) as [?|_]; [lia|].
    cbv zeta. unfold mathMax, mathMin.
    destruct prices as [|p rest]; [cbn in Hge; lia|].
    inversion Hall as [|? ? (x & -> & Hx) Hrest]; subst.
    cbn [fold_left JsNum.max JsNum.min lt].
    destruct (mathMax_from rest x Hrest) as (h & -> & Hh).
    destruct (mathMin_from rest x Hx Hrest) as (low & -> & Hl0 & Hl).
    unfold lit. cbn [sub neg add div].
    assert (E : Qeq_bool low 0 = false).
    { destruct (Qeq_bool low 0) eqn:E; [|reflexivity].
      apply Qeq_bool_eq in E. lra. }
    rewrite E. cbn [mul].
    eexists. split; [reflexivity|].
    apply Qmult_le_0_compat; [|lra].
    apply Qle_shift_div_l; [exact Hl0|lra].
Qed.

Lemma getPriceRange_not_negative_witness :
  nonNegative (getPriceRange (Returned [lit 100 1; lit 104 1; lit 98 1])).
Proof.
  destruct (getPriceRange_not_negative [lit 100 1; lit 104 1; lit 98 1])
    as [H _].
  - repeat constructor; eexists; (split; [reflexivity|]);
      vm_compute; reflexivity.
  - exact H.
Defined.

End IndicatorFacts.


(** ** Calls in flight *)

Module OverlapFacts.
Import Bot BotFacts Overlap JsNumOrder.

(** Ticks that overlap sell a level twice.  The take-profit block tests
    the hit flag, awaits the sell, and only then sets the flag, and the
    timer starts a tick every second whether the last is over or not.
    The sample position (bought 10 at 100, first level 115 for three
    tenths) is monitored at price 120.  When the first tick has issued its
    partial sell and waits for it, the flag is still false; the second
    tick, started meanwhile and observing the same crossed price, issues a
    second partial sell of 3 for the same level, and each tick decrements
    the remaining quantity when its sell returns: two sells, and 4 left
    instead of 7.  Run one after the other, the same two ticks sell once. *)
Theorem overlapping_ticks_sell_level_twice :
  let waiting := run firstTickToSell [] worldOpen in
  let both := run overlapping [] worldOpen in
  let apart := run oneAfterTheOther [] worldOpen in
  let sell := call1 samplePosition in
  let left w := option_map remainingQuantity (lookupObject MINT (snd w)) in
  let flag w := option_map (fun p => hit (level1 p)) (lookupObject MINT (snd w))
  in
  lookupObject MINT worldOpen = Some samplePosition
  /\ hit (level1 samplePosition) = false
  /\ (lit 120 1 >=? tp_price (level1 samplePosition))%num = true
  /\ sell = SwapCall TakeProfit1 MINT (lit 10 1 * lit 3 10)%num
  /\ swapsFrom TakeProfit1 (newEvents botOpen (bot (snd waiting))) = [sell]
  /\ flag waiting = Some false
  /\ map isOver (fst both) = [true; true]
  /\ swapsFrom TakeProfit1 (newEvents botOpen (bot (snd both))) = [sell; sell]
  /\ left both
     = Some (lit 10 1 - lit 10 1 * lit 3 10 - lit 10 1 * lit 3 10)%num
  /\ flag both = Some true
  /\ map isOver (fst apart) = [true; true]
  /\ swapsFrom TakeProfit1 (newEvents botOpen (bot (snd apart))) = [sell]
  /\ left apart = Some (lit 10 1 - lit 10 1 * lit 3 10)%num.
Proof.
  cbv zeta. repeat split; vm_compute; reflexivity.
Qed.

(** *** What ticks and exits keep *)

Lemma unchanged_refl (p : Position) : unchanged p p.
Proof. repeat split. Qed.

Lemma unchanged_trans (p q r : Position) :
  unchanged p q -> unchanged q r -> unchanged p r.
Proof. unfold unchanged. intuition congruence. Qed.

Lemma countable_number (p : Position) :
  countable p -> remainingQuantity p <> NaN.
Proof. intros (q & s1 & s2 & r & _ & _ & _ & -> & _). discriminate. Qed.

Lemma oneWay_refl (p : Position) : oneWay p p.
Proof.
  split; [apply unchanged_refl|]. split; [apply hitsKept_refl|].
  split; [auto|]. split; [auto|].
  intros H. split; [exact H|]. apply le_refl. now apply countable_number.
Qed.

Lemma oneWay_trans (p q r : Position) :
  oneWay p q -> oneWay q r -> oneWay p r.
Proof.
  intros (U1 & H1 & A1 & T1 & C1) (U2 & H2 & A2 & T2 & C2).
  split; [eapply unchanged_trans; eauto|].
  split; [eapply hitsKept_trans; eauto|].
  split; [auto|]. split; [auto|].
  intros Hp. destruct (C1 Hp) as [Hq L1]. destruct (C2 Hq) as [Hr L2].
  split; [exact Hr|]. exact (le_trans _ _ _ L2 L1).
Qed.

Lemma keepsObjects_refl (w : World) : keepsObjects w w.
Proof. intros symbol p H. exists p. split; [exact H|apply oneWay_refl]. Qed.

Lemma keepsObjects_trans (w1 w2 w3 : World) :
  keepsObjects w1 w2 -> keepsObjects w2 w3 -> keepsObjects w1 w3.
Proof.
  intros K1 K2 symbol p H.
  destruct (K1 symbol p H) as (q & Hq & O1).
  destruct (K2 symbol q Hq) as (r & Hr & O2).
  exists r. split; [exact Hr|]. eapply oneWay_trans; eauto.
Qed.

(** A level that is hit on every object of a token stays so. *)
Lemma levelHit_keeps (w w' : World) (mint : string) :
  keeps w w' ->
  (levelHit level1 mint w -> levelHit level1 mint w')
  /\ (levelHit level2 mint w -> levelHit level2 mint w').
Proof.
  intros (Ko & Kn & _).
  split; intros H symbol p' Hp' Hm;
    destruct (Kn symbol p' Hp') as (p & Hp);
    destruct (Ko symbol p Hp) as (q & Hq & (U & (H1 & H2) & _));
    rewrite Hp' in Hq; inversion Hq; subst q;
    destruct U as (Um & _); [apply H1|apply H2];
    apply (H symbol p Hp); congruence.
Qed.

Lemma sellable_back (w w' : World) (e : Event) :
  keeps w w' -> sellable w' e -> sellable w e.
Proof.
  intros K. destruct e as [| [] mint amount | | | |]; cbn; auto;
    intros H Hw; apply H; now apply (levelHit_keeps w w' mint K).
Qed.

Lemma plain_sellable (w : World) (e : Event) : plain e -> sellable w e.
Proof. destruct e as [| [] mint amount | | | |]; cbn; tauto. Qed.

Lemma keeps_refl (w : World) : keeps w w.
Proof.
  split; [apply keepsObjects_refl|]. split; [eauto|].
  exists []. split; [now rewrite app_nil_r|constructor].
Qed.

Lemma keeps_trans (w1 w2 w3 : World) :
  keeps w1 w2 -> keeps w2 w3 -> keeps w1 w3.
Proof.
  intros K1 K2.
  pose proof K1 as (O1 & N1 & l1 & E1 & S1).
  pose proof K2 as (O2 & N2 & l2 & E2 & S2).
  split; [eapply keepsObjects_trans; eauto|]. split.
  - intros symbol p3 H3. destruct (N2 symbol p3 H3) as (p2 & H2). eauto.
  - exists (l1 ++ l2). split; [now rewrite E2, E1, app_assoc|].
    apply List.Forall_app. split; [exact S1|].
    eapply List.Forall_impl; [|exact S2].
    intros e. now apply sellable_back.
Qed.

Lemma safe_weaken {A : Type} (t : Async A) (w0 w1 : World) :
  keeps w0 w1 -> safe t w0 -> safe t w1.
Proof.
  destruct t as [o|step rest]; cbn; [auto|].
  intros K H w Kw. apply H. eapply keeps_trans; eauto.
Qed.

Lemma safeCall_weaken {A : Type} (call : AM A) (w0 w1 : World) :
  keeps w0 w1 -> safeCall call w0 -> safeCall call w1.
Proof. intros K H w Kw. apply H. eapply keeps_trans; eauto. Qed.

Lemma safe_bindT {A B : Type} (t : Async A) (k : A -> AM B) :
  forall w,
    safe t w ->
    (forall a w1, keeps w w1 -> safeCall (k a) w1) ->
    keeps w (snd (bindT t k w))
    /\ safe (fst (bindT t k w)) (snd (bindT t k w)).
Proof.
  induction t as [[a|]|step rest IH]; intros w Ht Hk.
  - cbn. apply (Hk a w); apply keeps_refl.
  - cbn. split; [apply keeps_refl|exact I].
  - cbn [bindT fst snd]. split; [apply keeps_refl|].
    cbn. intros w' Kw'. destruct (Ht w' Kw') as [Ks Hr].
    destruct (IH w' (step w') Hr) as [K2 S2].
    + intros a w1 K1. apply Hk.
      eapply keeps_trans; [exact Kw'|]. eapply keeps_trans; eauto.
    + split; [eapply keeps_trans; eauto|exact S2].
Qed.

Lemma safeAt_bind {A B : Type} (m : AM A) (k : A -> AM B) (w : World) :
  safeAt m w ->
  (forall a w1, keeps w w1 -> safeCall (k a) w1) ->
  safeAt (bindA m k) w.
Proof.
  unfold safeAt, bindA. intros [K1 S1] Hk.
  destruct (m w) as [t w']. cbn [fst snd] in *.
  destruct (safe_bindT t k w' S1) as [K2 S2].
  - intros a w1 K. apply Hk. eapply keeps_trans; eauto.
  - split; [eapply keeps_trans; eauto|exact S2].
Qed.

Lemma safeCall_bind {A B : Type} (m : AM A) (k : A -> AM B) (w0 : World) :
  safeCall m w0 ->
  (forall a w1, keeps w0 w1 -> safeCall (k a) w1) ->
  safeCall (bindA m k) w0.
Proof.
  intros Hm Hk w Kw. apply safeAt_bind; [now apply Hm|].
  intros a w1 K. apply Hk. eapply keeps_trans; eauto.
Qed.

Lemma safe_catchT (t : Async unit) (handler : AM unit) :
  forall w,
    safe t w ->
    (forall w1, keeps w w1 -> safeCall handler w1) ->
    keeps w (snd (catchT t handler w))
    /\ safe (fst (catchT t handler w)) (snd (catchT t handler w)).
Proof.
  induction t as [[a|]|step rest IH]; intros w Ht Hh.
  - cbn. split; [apply keeps_refl|exact I].
  - cbn. apply (Hh w); apply keeps_refl.
  - cbn [catchT fst snd]. split; [apply keeps_refl|].
    cbn. intros w' Kw'. destruct (Ht w' Kw') as [Ks Hr].
    destruct (IH w' (step w') Hr) as [K2 S2].
    + intros w1 K1. apply Hh.
      eapply keeps_trans; [exact Kw'|]. eapply keeps_trans; eauto.
    + split; [eapply keeps_trans; eauto|exact S2].
Qed.

Lemma safeCall_tryCatch (body handler : AM unit) (w0 : World) :
  safeCall body w0 ->
  (forall w1, keeps w0 w1 -> safeCall handler w1) ->
  safeCall (tryCatchA body handler) w0.
Proof.
  intros Hb Hh w Kw. unfold safeAt, tryCatchA.
  destruct (Hb w Kw) as [K1 S1]. destruct (body w) as [t w'].
  cbn [fst snd] in *.
  destruct (safe_catchT t handler w' S1) as [K2 S2].
  - intros w1 K. apply Hh.
    eapply keeps_trans; [exact Kw|]. eapply keeps_trans; eauto.
  - split; [eapply keeps_trans; eauto|exact S2].
Qed.

Lemma safe_awaitT {A : Type} (t : Async A) :
  forall w,
    safe t w ->
    keeps w (snd (awaitT t w)) /\ safe (fst (awaitT t w)) (snd (awaitT t w)).
Proof.
  induction t as [o|step rest IH]; intros w Ht.
  - cbn. split; [apply keeps_refl|].
    intros w' _. split; [apply keeps_refl|exact I].
  - cbn [awaitT fst snd]. split; [apply keeps_refl|].
    cbn. intros w' Kw'. destruct (Ht w' Kw') as [Ks Hr].
    destruct (IH w' (step w') Hr) as [K2 S2].
    split; [eapply keeps_trans; eauto|exact S2].
Qed.

Lemma safeAt_await {A : Type} (call : AM A) (w : World) :
  safeAt call w -> safeAt (await call) w.
Proof.
  unfold safeAt, await. intros [K1 S1]. destruct (call w) as [t w'].
  cbn [fst snd] in *.
  destruct (safe_awaitT t w' S1) as [K2 S2].
  split; [eapply keeps_trans; eauto|exact S2].
Qed.

Lemma safeCall_await {A : Type} (call : AM A) (w0 : World) :
  safeCall call w0 -> safeCall (await call) w0.
Proof. intros Hc w Kw. now apply safeAt_await, Hc. Qed.

Lemma safeCall_ret {A : Type} (a : A) (w0 : World) : safeCall (retA a) w0.
Proof. intros w _. split; [apply keeps_refl|exact I]. Qed.

Lemma safeCall_outside {A : Type} (o : Outcome A) (w0 : World) :
  safeCall (outside o) w0.
Proof. intros w _. split; [apply keeps_refl|exact I]. Qed.

(** Code between two awaits that leaves the table as it is, started in
    [w], where the events it appends can come. *)
Lemma safeAt_atomic {A : Type} (m : M A) (w : World) :
  positions (snd (m (bot w))) = positions (bot w) ->
  (exists l, events (snd (m (bot w))) = events (bot w) ++ l
             /\ List.Forall (sellable w) l) ->
  safeAt (atomic m) w.
Proof.
  intros Hm He. unfold safeAt, atomic.
  destruct (m (bot w)) as [o b]. cbn [fst snd] in *.
  split; [|exact I].
  assert (Hl : forall symbol,
             lookupObject symbol (with_bot (fun _ => b) w)
             = lookupObject symbol w).
  { intros symbol. unfold lookupObject. cbn. now rewrite Hm. }
  split; [|split].
  - intros symbol p H. exists p. rewrite Hl. split; [exact H|].
    apply oneWay_refl.
  - intros symbol p H. exists p. now rewrite <- Hl.
  - exact He.
Qed.

Lemma safeCall_atomic {A : Type} (m : M A) (w0 : World) :
  (forall b, positions (snd (m b)) = positions b) ->
  (forall b, exists l, events (snd (m b)) = events b ++ l
                       /\ List.Forall plain l) ->
  safeCall (atomic m) w0.
Proof.
  intros Hm He w _. apply safeAt_atomic; [apply Hm|].
  destruct (He (bot w)) as (l & El & Hl). exists l. split; [exact El|].
  eapply List.Forall_impl; [|exact Hl]. intros e. apply plain_sellable.
Qed.

(** What follows the read of the object is started in the world of the
    read. *)
Lemma safeCall_readAt {A : Type} (symbol : string) (k : Position -> AM A)
  (w0 : World) :
  (forall p w1, keeps w0 w1 -> lookupObject symbol w1 = Some p ->
                safeAt (k p) w1) ->
  safeCall (bindA (readObject symbol) k) w0.
Proof.
  intros H w Kw. unfold safeAt, bindA, readObject.
  destruct (lookupObject symbol w) as [p|] eqn:E; cbn.
  - apply (H p w Kw E).
  - split; [apply keeps_refl|exact I].
Qed.

Lemma safeCall_read {A : Type} (symbol : string) (k : Position -> AM A)
  (w0 : World) :
  (forall p w1, keeps w0 w1 -> lookupObject symbol w1 = Some p ->
                safeCall (k p) w1) ->
  safeCall (bindA (readObject symbol) k) w0.
Proof.
  intros H. apply safeCall_readAt. intros p w1 K E.
  apply (H p w1 K E). apply keeps_refl.
Qed.

Lemma lookupObject_written (symbol s : string) (f : Position -> Position)
  (w : World) :
  lookupObject s (written symbol f w)
  = if decide (s = symbol) then f <$> lookupObject symbol w
    else lookupObject s w.
Proof.
  unfold lookupObject, written.
  destruct (positions (bot w) !! symbol) as [p|] eqn:Et.
  - cbn. destruct (decide (s = symbol)) as [->|Hne].
    + now rewrite lookup_insert_eq.
    + now rewrite lookup_insert_ne by congruence.
  - destruct (detached w !! symbol) as [p|] eqn:Ed.
    + cbn. destruct (decide (s = symbol)) as [->|Hne].
      * now rewrite Et, lookup_insert_eq.
      * now rewrite lookup_insert_ne by congruence.
    + destruct (decide (s = symbol)) as [->|Hne]; [|reflexivity].
      now rewrite Et, Ed.
Qed.

Lemma lookupObject_deleted (symbol s : string) (w : World) :
  lookupObject s (deleted symbol w) = lookupObject s w.
Proof.
  unfold lookupObject, deleted.
  destruct (positions (bot w) !! symbol) as [p|] eqn:Et; [|reflexivity].
  cbn. destruct (decide (s = symbol)) as [->|Hne].
  - now rewrite lookup_delete_eq, lookup_insert_eq, Et.
  - now rewrite lookup_delete_ne, lookup_insert_ne by congruence.
Qed.

Lemma events_written (symbol : string) (f : Position -> Position)
  (w : World) :
  events (bot (written symbol f w)) = events (bot w).
Proof.
  unfold written. destruct (positions (bot w) !! symbol); [reflexivity|].
  now destruct (detached w !! symbol).
Qed.

Lemma events_deleted (symbol : string) (w : World) :
  events (bot (deleted symbol w)) = events (bot w).
Proof.
  unfold deleted. now destruct (positions (bot w) !! symbol).
Qed.

Lemma safeCall_write (symbol : string) (f : Position -> Position)
  (w0 : World) :
  (forall w p, keeps w0 w -> lookupObject symbol w = Some p ->
               oneWay p (f p)) ->
  safeCall (writeObject symbol f) w0.
Proof.
  intros H w Kw. unfold safeAt, writeObject.
  destruct (lookupObject symbol w) as [p|] eqn:E; cbn [fst snd];
    [|split; [apply keeps_refl|exact I]].
  split; [|exact I]. split; [|split].
  - intros s p0 Hs. rewrite lookupObject_written.
    destruct (decide (s = symbol)) as [->|Hne].
    + rewrite Hs. cbn. exists (f p0). split; [reflexivity|].
      apply (H w p0 Kw Hs).
    + exists p0. split; [exact Hs|apply oneWay_refl].
  - intros s p' Hs. rewrite lookupObject_written in Hs.
    destruct (decide (s = symbol)) as [->|Hne]; eauto.
  - exists []. rewrite events_written, app_nil_r.
    split; [reflexivity|constructor].
Qed.

Lemma safeCall_delete (symbol : string) (w0 : World) :
  safeCall (deleteEntry symbol) w0.
Proof.
  intros w _. unfold safeAt. cbn. split; [|exact I]. split; [|split].
  - intros s p Hs. exists p. rewrite lookupObject_deleted.
    split; [exact Hs|apply oneWay_refl].
  - intros s p' Hs. rewrite lookupObject_deleted in Hs. eauto.
  - exists []. rewrite events_deleted, app_nil_r.
    split; [reflexivity|constructor].
Qed.

(** The three writes of a tick. *)
Lemma oneWay_advanceTrailing (p : Position) (cp : num) :
  oneWay p (advanceTrailing p cp).
Proof.
  unfold advanceTrailing.
  destruct (active (trailingStop p)) eqn:Ha; cbn [andb];
    [|apply oneWay_refl].
  destruct (cp >? _)%num; [|apply oneWay_refl].
  split; [repeat split|]. split; [split; cbn; auto|].
  split; [auto|]. split.
  - intros Ht _. cbn. split; [|reflexivity]. now apply Ht.
  - intros Hc. split; [exact Hc|]. cbn. apply le_refl.
    now apply countable_number.
Qed.

Lemma oneWay_sold1 (p0 p : Position) :
  oneWay p0 p ->
  oneWay p (sold1 (quantity p0 * tp_size (level1 p0))%num p).
Proof.
  intros ((_ & _ & Uq & _ & _ & U1 & _) & _).
  split; [repeat split|]. split; [split; cbn; auto|].
  split; [auto|]. split; [auto|].
  intros (q & s1 & s2 & r & Hq & H1 & H2 & Hr & Hq0 & Hs1 & Hs2).
  rewrite <- Uq, <- U1, Hq, H1. split.
  - exists q, s1, s2, (r + - (q * s1))%Q. cbn. rewrite Hr.
    repeat split; auto.
  - cbn. rewrite Hr. cbn. apply le_Fin. nra.
Qed.

Lemma oneWay_sold2 (p0 p : Position) (cp : num) :
  oneWay p0 p ->
  oneWay p (sold2 (quantity p0 * tp_size (level2 p0))%num cp p).
Proof.
  intros ((_ & _ & Uq & _ & _ & _ & _ & U2 & _) & _).
  split; [repeat split|]. split; [split; cbn; auto|].
  split; [auto|]. split; [intros _ _; cbn; auto|].
  intros (q & s1 & s2 & r & Hq & H1 & H2 & Hr & Hq0 & Hs1 & Hs2).
  rewrite <- Uq, <- U2, Hq, H2. split.
  - exists q, s1, s2, (r + - (q * s2))%Q. cbn. rewrite Hr.
    repeat split; auto.
  - cbn. rewrite Hr. cbn. apply le_Fin. nra.
Qed.

Lemma recordClosedTrade_positions (p : Position) (pnl roi : num)
  (b : TradingBot) :
  positions (recordClosedTrade p pnl roi b) = positions b.
Proof.
  unfold recordClosedTrade.
  destruct (adjustConfidenceMultiplier _ _) as [history mult]. reflexivity.
Qed.

Lemma recordClosedTrade_events (p : Position) (pnl roi : num)
  (b : TradingBot) :
  events (recordClosedTrade p pnl roi b) = events b.
Proof.
  unfold recordClosedTrade.
  destruct (adjustConfidenceMultiplier _ _) as [history mult]. reflexivity.
Qed.

(** Code that leaves the table as it is and appends no event, or one that
    is no partial sell. *)
Ltac safe_atomic :=
  apply safeCall_atomic; intros; cbn;
  [ rewrite ?recordClosedTrade_positions; reflexivity
  | first
      [ exists []; rewrite ?recordClosedTrade_events, app_nil_r;
        split; [reflexivity|constructor]
      | eexists [_]; split; [reflexivity|repeat constructor] ] ].

Ltac safe_call :=
  repeat first
    [ apply safeCall_ret
    | apply safeCall_outside
    | apply safeCall_await
    | apply safeCall_delete
    | safe_atomic
    | apply safeCall_bind; [|intros ? ? ?]
    | match goal with
      | |- safeCall (if ?c then _ else _) _ => destruct c
      | |- safeCall (match ?x with _ => _ end) _ => destruct x
      end ].

Lemma safe_getCachedMarketPriceA (tokenMint : string) (now : Z)
  (fetched : Outcome num) (w0 : World) :
  safeCall (getCachedMarketPriceA tokenMint now fetched) w0.
Proof. unfold getCachedMarketPriceA. safe_call. Qed.

Lemma safe_swapA (mint : string) (amount : num)
  (answer : Outcome SwapResult) (w0 : World) :
  safeCall (swapA FullExit mint amount answer) w0.
Proof. unfold swapA. safe_call. Qed.

(** A partial sell issued in a world where it can come. *)
Lemma safeAt_executeSellA (origin : SwapOrigin) (mint : string)
  (amount : num) (answer : Outcome SwapResult) (w : World) :
  sellable w (SwapCall origin mint amount) ->
  safeAt (executeSellA origin mint amount answer) w.
Proof.
  intros Hs. unfold executeSellA.
  apply safeAt_bind; [|intros; apply safeCall_ret].
  apply safeAt_await. unfold swapA.
  apply safeAt_bind; [|intros; apply safeCall_outside].
  apply safeAt_atomic; [reflexivity|].
  exists [SwapCall origin mint amount]. split; [reflexivity|].
  constructor; [exact Hs|constructor].
Qed.

Lemma safe_exitPositionA (symbol reason : string) (obs : ExitObs)
  (w0 : World) :
  safeCall (exitPositionA symbol reason obs) w0.
Proof.
  unfold exitPositionA.
  apply safeCall_bind; [safe_atomic|intros _ w1 K1].
  apply safeCall_bind; [|intros; safe_atomic].
  apply safeCall_tryCatch; [|intros; safe_atomic].
  apply safeCall_read. intros p w2 K2 E2.
  apply safeCall_bind;
    [apply safeCall_await, safe_getCachedMarketPriceA|intros cp w3 K3].
  apply safeCall_read. intros p3 w4 K4 E4.
  apply safeCall_bind; [apply safeCall_await, safe_swapA|intros r w5 K5].
  apply safeCall_read. intros p5 w6 K6 E6.
  safe_call.
Qed.

(** The sell of a take-profit block is issued in the world in which the
    block read the flag of its level not set. *)
Lemma safe_takeProfitLevel1A (symbol : string) (cp : num)
  (answer : Outcome SwapResult) (w0 : World) :
  safeCall (takeProfitLevel1A symbol cp answer) w0.
Proof.
  unfold takeProfitLevel1A. apply safeCall_readAt. intros p w1 K1 E1.
  destruct (hit (level1 p)) eqn:Eh; cbn [negb andb];
    [exact (safeCall_ret tt w1 w1 (keeps_refl w1))|].
  destruct (_ >=? _)%num; [|exact (safeCall_ret tt w1 w1 (keeps_refl w1))].
  apply safeAt_bind.
  - apply safeAt_await, safeAt_executeSellA. cbn.
    intros H. specialize (H symbol p E1 eq_refl). congruence.
  - intros r w2 K2. apply safeCall_write. intros w pn K E.
    apply oneWay_sold1.
    destruct (proj1 (keeps_trans _ _ _ K2 K) symbol p E1) as (p' & E' & O).
    congruence.
Qed.

Lemma safe_takeProfitLevel2A (symbol : string) (cp : num)
  (answer : Outcome SwapResult) (w0 : World) :
  safeCall (takeProfitLevel2A symbol cp answer) w0.
Proof.
  unfold takeProfitLevel2A. apply safeCall_readAt. intros p w1 K1 E1.
  destruct (hit (level2 p)) eqn:Eh; cbn [negb andb];
    [exact (safeCall_ret tt w1 w1 (keeps_refl w1))|].
  destruct (_ >=? _)%num; [|exact (safeCall_ret tt w1 w1 (keeps_refl w1))].
  apply safeAt_bind.
  - apply safeAt_await, safeAt_executeSellA. cbn.
    intros H. specialize (H symbol p E1 eq_refl). congruence.
  - intros r w2 K2. apply safeCall_write. intros w pn K E.
    apply oneWay_sold2.
    destruct (proj1 (keeps_trans _ _ _ K2 K) symbol p E1) as (p' & E' & O).
    congruence.
Qed.

Lemma safe_updatePositionA (symbol : string) (obs : TickObs) (w0 : World) :
  safeCall (updatePositionA symbol obs) w0.
Proof.
  unfold updatePositionA.
  apply safeCall_tryCatch; [|intros; safe_atomic].
  apply safeCall_read. intros p w1 K1 E1.
  apply safeCall_bind;
    [apply safeCall_await, safe_getCachedMarketPriceA|intros cp w2 K2].
  apply safeCall_bind; [safe_atomic|intros b w3 K3].
  apply safeCall_read. intros p3 w4 K4 E4.
  destruct (_ && _); [apply safeCall_await, safe_exitPositionA|].
  apply safeCall_bind; [safe_call|intros reallocate w5 K5].
  destruct reallocate; [apply safeCall_await, safe_exitPositionA|].
  apply safeCall_bind; [safe_call|intros distribution w6 K6].
  apply safeCall_read. intros p6 w7 K7 E7.
  destruct (_ && _); [apply safeCall_await, safe_exitPositionA|].
  apply safeCall_bind.
  { apply safeCall_write. intros. apply oneWay_advanceTrailing. }
  intros _ w8 K8. apply safeCall_read. intros p8 w9 K9 E9.
  destruct (_ && _); [apply safeCall_await, safe_exitPositionA|].
  destruct (_ <=? _)%num; [apply safeCall_await, safe_exitPositionA|].
  apply safeCall_bind; [apply safe_takeProfitLevel1A|intros].
  apply safeCall_bind; [apply safe_takeProfitLevel2A|intros].
  apply safeCall_bind; [safe_call|intros].
  destruct (_ <? _)%num; [apply safeCall_await, safe_exitPositionA|].
  apply safeCall_ret.
Qed.

Lemma Forall_prefix {A : Type} (P : A -> Prop) (n : nat) (l : list A) :
  List.Forall P l -> List.Forall P (firstn n l).
Proof.
  intros H. revert n. induction H; intros [|n]; cbn; constructor; auto.
Qed.

Lemma Forall_suffix {A : Type} (P : A -> Prop) (n : nat) (l : list A) :
  List.Forall P l -> List.Forall P (skipn n l).
Proof.
  intros H. revert n. induction H; intros [|n]; cbn; auto.
Qed.

(** Any run of ticks and exits, interleaved in any way, keeps the world it
    starts from. *)
Lemma move_keeps (m : Move) (calls : list (Async unit)) (w : World) :
  monitoring m ->
  List.Forall (fun t => safe t w) calls ->
  keeps w (snd (move m calls w))
  /\ List.Forall (fun t => safe t (snd (move m calls w)))
                 (fst (move m calls w)).
Proof.
  intros Hm Hcalls. destruct m as [call|index]; cbn [move].
  - assert (Hc : safeCall call w).
    { destruct Hm as [(s & o & ->)|(s & r & o & ->)];
        [apply safe_updatePositionA|apply safe_exitPositionA]. }
    destruct (Hc w (keeps_refl w)) as [K S].
    destruct (call w) as [t w']. cbn [fst snd] in *.
    split; [exact K|]. apply List.Forall_app. split.
    + eapply List.Forall_impl; [|exact Hcalls].
      intros t0. now apply safe_weaken.
    + constructor; [exact S|constructor].
  - destruct (nth_error calls index) as [t|] eqn:E; cbn [fst snd];
      [|split; [apply keeps_refl|exact Hcalls]].
    assert (Ht : safe t w).
    { apply nth_error_In in E.
      now apply (proj1 (List.Forall_forall _ _) Hcalls). }
    assert (Hr : keeps w (snd (resume t w))
                 /\ safe (fst (resume t w)) (snd (resume t w))).
    { destruct t as [o|step rest]; cbn.
      - split; [apply keeps_refl|exact I].
      - apply Ht, keeps_refl. }
    destruct (resume t w) as [t' w']. cbn [fst snd] in *.
    destruct Hr as [K S]. split; [exact K|].
    assert (Hweak : List.Forall (fun t0 => safe t0 w') calls).
    { eapply List.Forall_impl; [|exact Hcalls].
      intros t0. now apply safe_weaken. }
    apply List.Forall_app. split.
    + now apply Forall_prefix.
    + constructor; [exact S|]. now apply Forall_suffix.
Qed.

Lemma run_keeps (moves : list Move) :
  List.Forall monitoring moves ->
  forall calls w,
    List.Forall (fun t => safe t w) calls ->
    keeps w (snd (run moves calls w)).
Proof.
  induction 1 as [|m moves Hm _ IH]; intros calls w Hcalls; cbn [run].
  - apply keeps_refl.
  - destruct (move_keeps m calls w Hm Hcalls) as [K S].
    destruct (move m calls w) as [calls' w']. cbn [fst snd] in *.
    eapply keeps_trans; [exact K|]. now apply IH.
Qed.

Lemma run_oneWay (moves : list Move) (w : World) (symbol : string)
  (p : Position) :
  List.Forall monitoring moves ->
  lookupObject symbol w = Some p ->
  exists p',
    lookupObject symbol (snd (run moves [] w)) = Some p' /\ oneWay p p'.
Proof.
  intros Hm Hp. apply (run_keeps moves Hm [] w); [constructor|exact Hp].
Qed.


Lemma tick_monitoring (symbol : string) (obs : TickObs) :
  monitoring (Start (updatePositionA symbol obs)).
Proof. left. now exists symbol, obs. Qed.

Lemma overlapping_monitoring : List.Forall monitoring overlapping.
Proof.
  unfold overlapping, firstTickToSell, firstTick, secondTick. cbn [app].
  repeat (apply List.Forall_cons;
          [first [apply tick_monitoring | exact I]|]).
  apply List.Forall_nil.
Qed.

Lemma trailingTicks_monitoring : List.Forall monitoring trailingTicks.
Proof.
  unfold trailingTicks.
  repeat (apply List.Forall_cons;
          [first [apply tick_monitoring | exact I]|]).
  apply List.Forall_nil.
Qed.

(** *** The take-profit blocks *)






(** *** Position objects under interleaving *)

(** Whatever ticks and exits run, and however they interleave, a position
    object is written one way only: it stays in the world, the fields set at
    the entry are never rewritten, a hit flag that is set is never cleared,
    and, where the quantities are numbers and the quantity bought and the
    shares of the levels are not negative, the remaining quantity is never
    raised. *)
Theorem interleaved_calls_never_undo (moves : list Move) (w : World)
  (symbol : string) (p : Position) :
  List.Forall monitoring moves ->
  lookupObject symbol w = Some p ->
  exists p',
    lookupObject symbol (snd (run moves [] w)) = Some p'
    /\ unchanged p p'
    /\ hitsKept p p'
    /\ (countable p ->
        countable p'
        /\ (remainingQuantity p' <=? remainingQuantity p)%num = true).
Proof.
  intros Hm Hp.
  destruct (run_oneWay moves w symbol p Hm Hp) as (p' & Hp' & U & H & _ & _ & C).
  exists p'. auto.
Qed.

Lemma interleaved_calls_never_undo_witness :
  exists p',
    lookupObject MINT (snd (run overlapping [] worldOpen)) = Some p'
    /\ unchanged samplePosition p'
    /\ hitsKept samplePosition p'
    /\ (countable samplePosition ->
        countable p'
        /\ (remainingQuantity p' <=? remainingQuantity samplePosition)%num
           = true).
Proof.
  apply (interleaved_calls_never_undo overlapping worldOpen MINT
           samplePosition).
  - exact overlapping_monitoring.
  - reflexivity.
Defined.

(** Whatever ticks and exits run, and however they interleave, a trailing
    stop that is active stays active, and it stays armed: it belongs to a
    position whose second level is hit and sits the callback below the
    highest price recorded. *)
Theorem interleaved_calls_keep_trailing_armed (moves : list Move) (w : World)
  (symbol : string) (p : Position) :
  List.Forall monitoring moves ->
  lookupObject symbol w = Some p ->
  trailingArmed p ->
  exists p',
    lookupObject symbol (snd (run moves [] w)) = Some p'
    /\ trailingArmed p'
    /\ (active (trailingStop p) = true -> active (trailingStop p') = true).
Proof.
  intros Hm Hp Ht.
  destruct (run_oneWay moves w symbol p Hm Hp) as (p' & Hp' & _ & _ & A & T & _).
  exists p'. auto.
Qed.

Lemma interleaved_calls_keep_trailing_armed_witness :
  exists p',
    lookupObject MINT (snd (run trailingTicks [] worldTrailing)) = Some p'
    /\ trailingArmed p'
    /\ (active (trailingStop trailingPosition) = true ->
        active (trailingStop p') = true).
Proof.
  apply (interleaved_calls_keep_trailing_armed trailingTicks worldTrailing
           MINT trailingPosition).
  - exact trailingTicks_monitoring.
  - reflexivity.
  - intros _. split; vm_compute; reflexivity.
Defined.

(** *** A call that runs alone *)

Lemma complete_bindT {A B : Type} (t : Async A) (k : A -> AM B) (w : World) :
  complete (fst (bindT t k w)) (snd (bindT t k w))
  = match complete t w with
    | (Returned a, w') => alone (k a) w'
    | (Thrown, w') => (Thrown, w')
    end.
Proof.
  revert w. induction t as [[a|]|step rest IH]; intros w; cbn.
  - unfold alone. now destruct (k a w).
  - reflexivity.
  - apply IH.
Qed.

Lemma alone_bind {A B : Type} (m : AM A) (k : A -> AM B) (w : World) :
  alone (bindA m k) w
  = match alone m w with
    | (Returned a, w') => alone (k a) w'
    | (Thrown, w') => (Thrown, w')
    end.
Proof.
  unfold alone at 1 2, bindA. destruct (m w) as [t w'].
  rewrite <- complete_bindT. now destruct (bindT t k w').
Qed.

Lemma complete_catchT (t : Async unit) (handler : AM unit) (w : World) :
  complete (fst (catchT t handler w)) (snd (catchT t handler w))
  = match complete t w with
    | (Returned _, w') => (Returned tt, w')
    | (Thrown, w') => alone handler w'
    end.
Proof.
  revert w. induction t as [[a|]|step rest IH]; intros w; cbn.
  - reflexivity.
  - unfold alone. now destruct (handler w).
  - apply IH.
Qed.

Lemma alone_tryCatch (body handler : AM unit) (w : World) :
  alone (tryCatchA body handler) w
  = match alone body w with
    | (Returned _, w') => (Returned tt, w')
    | (Thrown, w') => alone handler w'
    end.
Proof.
  unfold alone at 1 2, tryCatchA. destruct (body w) as [t w'].
  rewrite <- complete_catchT. now destruct (catchT t handler w').
Qed.

Lemma complete_awaitT {A : Type} (t : Async A) (w : World) :
  complete (fst (awaitT t w)) (snd (awaitT t w)) = complete t w.
Proof.
  revert w. induction t as [o|step rest IH]; intros w; cbn;
    [reflexivity|apply IH].
Qed.

Lemma alone_await {A : Type} (call : AM A) (w : World) :
  alone (await call) w = alone call w.
Proof.
  unfold alone, await. destruct (call w) as [t w'].
  rewrite <- complete_awaitT. now destruct (awaitT t w').
Qed.

Lemma alone_atomic {A : Type} (m : M A) (b : TradingBot)
  (d : gmap string Position) :
  alone (atomic m) {| bot := b; detached := d |}
  = (fst (m b), {| bot := snd (m b); detached := d |}).
Proof. unfold alone, atomic. cbn. now destruct (m b). Qed.

Lemma alone_ret {A : Type} (a : A) (w : World) :
  alone (retA a) w = (Returned a, w).
Proof. reflexivity. Qed.

Lemma alone_outside {A : Type} (o : Outcome A) (w : World) :
  alone (outside o) w = (o, w).
Proof. reflexivity. Qed.

Lemma alone_read (symbol : string) (p : Position) (b : TradingBot)
  (d : gmap string Position) :
  positions b !! symbol = Some p ->
  alone (readObject symbol) {| bot := b; detached := d |}
  = (Returned p, {| bot := b; detached := d |}).
Proof.
  intros H. unfold alone, readObject, lookupObject. cbn. now rewrite H.
Qed.

Lemma alone_write (symbol : string) (f : Position -> Position)
  (p : Position) (b : TradingBot) (d : gmap string Position) :
  positions b !! symbol = Some p ->
  alone (writeObject symbol f) {| bot := b; detached := d |}
  = (Returned tt,
     {| bot := exec (mutate symbol (f p)) b; detached := d |}).
Proof.
  intros H. unfold alone, writeObject, lookupObject, written. cbn.
  rewrite H. cbn. unfold with_bot. cbn. do 2 f_equal.
  unfold exec, mutate, modify, with_positions, has. cbn. now rewrite H.
Qed.

Lemma alone_getCachedMarketPriceA (tokenMint : string) (now : Z)
  (fetched : Outcome num) (b : TradingBot) (d : gmap string Position) :
  alone (getCachedMarketPriceA tokenMint now fetched)
        {| bot := b; detached := d |}
  = (fst (getCachedMarketPrice tokenMint now fetched b),
     {| bot := snd (getCachedMarketPrice tokenMint now fetched b);
        detached := d |}).
Proof.
  unfold getCachedMarketPriceA, getCachedMarketPrice.
  rewrite alone_bind, alone_atomic. unfold_methods. cbn.
  destruct (marketPriceCache b !! tokenMint) as [[price t]|];
    [destruct (now - t <? 3000); [reflexivity|]|];
    rewrite alone_bind, alone_await, alone_outside;
    destruct fetched; cbn; try reflexivity;
    rewrite alone_bind, alone_atomic; reflexivity.
Qed.

Lemma alone_swapA (origin : SwapOrigin) (mint : string) (amount : num)
  (answer : Outcome SwapResult) (b : TradingBot) (d : gmap string Position) :
  alone (swapA origin mint amount answer) {| bot := b; detached := d |}
  = (answer,
     {| bot := with_event (SwapCall origin mint amount) b; detached := d |}).
Proof.
  unfold swapA. rewrite alone_bind, alone_atomic. reflexivity.
Qed.

Lemma alone_delete (symbol : string) (p : Position) (b : TradingBot)
  (d : gmap string Position) :
  positions b !! symbol = Some p ->
  alone (deleteEntry symbol) {| bot := b; detached := d |}
  = (Returned tt,
     {| bot := with_positions (delete symbol) b;
        detached := <[symbol := p]> d |}).
Proof.
  intros H. unfold alone, deleteEntry, deleted. cbn. now rewrite H.
Qed.

Lemma exitPosition_unfold (symbol : string) (p : Position) (reason : string)
  (obs : ExitObs) (b : TradingBot) :
  exec (exitPosition symbol p reason obs) b
  = with_startTimes (delete symbol)
      match getCachedMarketPrice (tokenMint p) (x_now obs) (x_price obs)
              (with_event (ExitRequested symbol reason) b) with
      | (Thrown, b2) => with_event (ErrorLogged "Error exiting position:") b2
      | (Returned cp, b2) =>
          match x_swap obs with
          | Thrown =>
              with_event (ErrorLogged "Error exiting position:")
                (with_event
                   (SwapCall FullExit (tokenMint p) (remainingQuantity p)) b2)
          | Returned _ =>
              with_positions (delete symbol)
                (with_event
                   (TradeRecordStored symbol (entryPrice p) cp
                      (exitPnl p cp) reason (exitRoi p cp))
                   (recordClosedTrade p (exitPnl p cp) (exitRoi p cp)
                      (with_event
                         (SwapCall FullExit (tokenMint p)
                                   (remainingQuantity p)) b2)))
          end
      end.
Proof.
  unfold exec, exitPosition, bind, tryCatch, swap, emit, modify, Bot.await.
  destruct (getCachedMarketPrice _ _ _ _) as [[cp|] b2];
    [destruct (x_swap obs)|]; reflexivity.
Qed.

(** An exit that runs alone is the exit of [Bot]. *)
Lemma alone_exitPositionA (symbol reason : string) (obs : ExitObs)
  (p : Position) (b : TradingBot) (d : gmap string Position) :
  positions b !! symbol = Some p ->
  exists d',
    alone (exitPositionA symbol reason obs) {| bot := b; detached := d |}
    = (Returned tt,
       {| bot := exec (exitPosition symbol p reason obs) b;
          detached := d' |}).
Proof.
  intros Hp. rewrite exitPosition_unfold. unfold exitPositionA.
  rewrite alone_bind, alone_atomic. cbn [fst snd emit modify].
  rewrite alone_bind, alone_tryCatch, alone_bind.
  rewrite (alone_read symbol p) by exact Hp.
  rewrite alone_bind, alone_await, alone_getCachedMarketPriceA.
  pose proof (getCachedMarketPrice_positions (tokenMint p) (x_now obs)
                (x_price obs)
                (with_event (ExitRequested symbol reason) b)) as (Hpos & _).
  cbv zeta in Hpos.
  destruct (getCachedMarketPrice (tokenMint p) (x_now obs) (x_price obs)
              (with_event (ExitRequested symbol reason) b)) as [[cp|] b2];
    cbn [fst snd] in *.
  2:{ rewrite alone_atomic, alone_atomic. cbn. eexists. reflexivity. }
  assert (Hp2 : positions b2 !! symbol = Some p) by (rewrite Hpos; exact Hp).
  rewrite alone_bind, (alone_read symbol p) by exact Hp2.
  rewrite alone_bind, alone_await, alone_swapA.
  destruct (x_swap obs) as [r|].
  2:{ rewrite alone_atomic, alone_atomic. cbn. eexists. reflexivity. }
  rewrite alone_bind, (alone_read symbol p) by exact Hp2.
  rewrite alone_bind, alone_atomic. cbn [fst snd modify].
  rewrite alone_bind, alone_await, alone_atomic. cbn [fst snd emit modify].
  rewrite (alone_delete symbol p)
    by (cbn; now rewrite recordClosedTrade_positions).
  rewrite alone_atomic. cbn. eexists. reflexivity.
Qed.

Lemma mutate_same (symbol : string) (p : Position) (b : TradingBot) :
  positions b !! symbol = Some p -> exec (mutate symbol p) b = b.
Proof.
  intros H. unfold exec, mutate, modify, with_positions, has. cbn.
  rewrite H, (insert_id _ _ _ H). now destruct b.
Qed.

Lemma alone_executeSellA (origin : SwapOrigin) (mint : string) (amount : num)
  (answer : Outcome SwapResult) (b : TradingBot) (d : gmap string Position) :
  alone (await (executeSellA origin mint amount answer))
        {| bot := b; detached := d |}
  = (answer,
     {| bot := with_event (SwapCall origin mint amount) b; detached := d |}).
Proof.
  unfold executeSellA.
  rewrite alone_await, alone_bind, alone_await, alone_swapA.
  now destruct answer.
Qed.

Lemma alone_takeProfitLevel1A (symbol : string) (cp : num)
  (answer : Outcome SwapResult) (p : Position) (b : TradingBot)
  (d : gmap string Position) :
  positions b !! symbol = Some p ->
  let r := takeProfitLevel1 symbol p cp answer b in
  alone (takeProfitLevel1A symbol cp answer) {| bot := b; detached := d |}
  = (match fst r with Returned _ => Returned tt | Thrown => Thrown end,
     {| bot := snd r; detached := d |}).
Proof.
  intros Hp. cbv zeta. rewrite takeProfitLevel1_run.
  unfold takeProfitLevel1A. rewrite alone_bind, (alone_read symbol p) by exact Hp.
  unfold fires, afterLevel1, fires.
  destruct (negb (hit (level1 p)) && (cp >=? tp_price (level1 p))%num);
    [|reflexivity].
  rewrite alone_bind, alone_executeSellA. cbv zeta.
  destruct answer as [r|]; [|reflexivity].
  now rewrite (alone_write symbol _ p) by exact Hp.
Qed.

Lemma alone_takeProfitLevel2A (symbol : string) (cp : num)
  (answer : Outcome SwapResult) (p : Position) (b : TradingBot)
  (d : gmap string Position) :
  positions b !! symbol = Some p ->
  let r := takeProfitLevel2 symbol p cp answer b in
  alone (takeProfitLevel2A symbol cp answer) {| bot := b; detached := d |}
  = (match fst r with Returned _ => Returned tt | Thrown => Thrown end,
     {| bot := snd r; detached := d |}).
Proof.
  intros Hp. cbv zeta. rewrite takeProfitLevel2_run.
  unfold takeProfitLevel2A. rewrite alone_bind, (alone_read symbol p) by exact Hp.
  unfold fires, afterLevel2, fires.
  destruct (negb (hit (level2 p)) && (cp >=? tp_price (level2 p))%num);
    [|reflexivity].
  rewrite alone_bind, alone_executeSellA. cbv zeta.
  destruct answer as [r|]; [|reflexivity].
  now rewrite (alone_write symbol _ p) by exact Hp.
Qed.

Lemma takeProfitLevel1_entry (symbol : string) (p : Position) (cp : num)
  (answer : Outcome SwapResult) (b : TradingBot) (q : Position) :
  positions b !! symbol = Some p ->
  fst (takeProfitLevel1 symbol p cp answer b) = Returned q ->
  positions (snd (takeProfitLevel1 symbol p cp answer b)) !! symbol = Some q.
Proof.
  intros Hp. rewrite takeProfitLevel1_run.
  destruct (fires (level1 p) cp); cbv zeta;
    [destruct answer; cbn [fst snd]|cbn [fst snd]];
    intros E; inversion E; subst; auto.
  now apply (mutate_lookup symbol p).
Qed.

(** A tick that runs alone, resumed at each of its awaits before any other
    call runs, does to the bot what [updatePosition] of [Bot] does, and
    returns: the methods of [Bot] describe the calls that no other call
    interrupts. *)
Theorem tick_alone_is_updatePosition (symbol : string) (obs : TickObs)
  (p : Position)
  (b : TradingBot) (d : gmap string Position) :
  positions b !! symbol = Some p ->
  exists d',
    alone (updatePositionA symbol obs) {| bot := b; detached := d |}
    = (Returned tt,
       {| bot := exec (updatePosition symbol p obs) b; detached := d' |}).
Proof.
  intros Hp. rewrite updatePosition_run. unfold updatePositionA.
  rewrite alone_tryCatch, alone_bind, (alone_read symbol p) by exact Hp.
  rewrite alone_bind, alone_await, alone_getCachedMarketPriceA.
  pose proof (getCachedMarketPrice_positions (tokenMint p) (t_now obs)
                (t_price obs) b) as (Hpos & _).
  cbv zeta in Hpos.
  destruct (getCachedMarketPrice (tokenMint p) (t_now obs) (t_price obs) b)
    as [[cp|] b1]; cbn [fst snd] in *.
  2:{ rewrite alone_atomic. cbn. eexists. reflexivity. }
  assert (Hp1 : positions b1 !! symbol = Some p) by (rewrite Hpos; exact Hp).
  rewrite alone_bind, alone_atomic. cbn [fst snd get].
  rewrite alone_bind, (alone_read symbol p) by exact Hp1.
  fold (tickAge symbol obs b1). unfold preChecks.
  assert (Hexit : forall reason q b2 d2,
    positions b2 !! symbol = Some q ->
    exists d',
      match alone (await (exitPositionA symbol reason (t_exit obs)))
                  {| bot := b2; detached := d2 |} with
      | (Returned _, w') => (Returned tt, w')
      | (Thrown, w') =>
          alone (atomic (emit (ErrorLogged "Error updating position:"))) w'
      end
      = (Returned tt,
         {| bot := exec (exitPosition symbol q reason (t_exit obs)) b2;
            detached := d' |})).
  { intros reason q b2 d2 Hq. rewrite alone_await.
    destruct (alone_exitPositionA symbol reason (t_exit obs) q b2 d2 Hq)
      as (d' & ->). now exists d'. }
  destruct ((tickAge symbol obs b1 >? config.maxHoldingTime) && _).
  { rewrite (mutate_same symbol p b1 Hp1). now apply Hexit. }
  rewrite alone_bind.
  assert (Hre :
    alone
      (if tickAge symbol obs b1 >? config.reallocateAfter
       then
         oneHour <- await (outside (Returned (t_spikeSideways obs))) ;;
         priceRange <- await (outside (Returned (t_priceRange obs))) ;;
         retA ((oneHour
                <? lit 1 1 - config.volumeDeclineThreshold / lit 100 1)%num
               && (priceRange <? config.priceRangeThreshold)%num)
       else retA false) {| bot := b1; detached := d |}
    = (Returned
         ((tickAge symbol obs b1 >? config.reallocateAfter)
          && (t_spikeSideways obs
              <? lit 1 1 - config.volumeDeclineThreshold / lit 100 1)%num
          && (t_priceRange obs <? config.priceRangeThreshold)%num),
       {| bot := b1; detached := d |})).
  { destruct (tickAge symbol obs b1 >? config.reallocateAfter);
      [|reflexivity].
    rewrite alone_bind, alone_await, alone_outside.
    rewrite alone_bind, alone_await, alone_outside. reflexivity. }
  rewrite Hre. clear Hre.
  destruct ((tickAge symbol obs b1 >? config.reallocateAfter) && _ && _).
  { rewrite (mutate_same symbol p b1 Hp1). now apply Hexit. }
  rewrite alone_bind, alone_await, alone_outside.
  rewrite alone_bind, (alone_read symbol p) by exact Hp1.
  destruct (t_distribution obs && active (trailingStop p)).
  { rewrite (mutate_same symbol p b1 Hp1). now apply Hexit. }
  rewrite alone_bind, (alone_write symbol _ p) by exact Hp1.
  set (p1 := advanceTrailing p cp).
  assert (Hp2 : positions (exec (mutate symbol p1) b1) !! symbol = Some p1)
    by now apply (mutate_lookup symbol p).
  rewrite alone_bind, (alone_read symbol p1) by exact Hp2.
  destruct (active (trailingStop p1) && _); [now apply Hexit|].
  destruct (cp <=? stopLoss p1)%num; [now apply Hexit|].
  rewrite alone_bind, (alone_takeProfitLevel1A symbol cp _ p1) by exact Hp2.
  unfold takeProfitLevels, bind.
  pose proof (takeProfitLevel1_entry symbol p1 cp (t_sell1 obs)
                (exec (mutate symbol p1) b1)) as H1.
  destruct (takeProfitLevel1 symbol p1 cp (t_sell1 obs)
              (exec (mutate symbol p1) b1)) as [[q1|] b2]; cbn [fst snd] in *.
  2:{ rewrite alone_atomic. cbn. eexists. reflexivity. }
  specialize (H1 q1 Hp2 eq_refl).
  rewrite alone_bind, (alone_takeProfitLevel2A symbol cp _ q1) by exact H1.
  assert (H2 : forall q2,
    fst (takeProfitLevel2 symbol q1 cp (t_sell2 obs) b2) = Returned q2 ->
    positions (snd (takeProfitLevel2 symbol q1 cp (t_sell2 obs) b2))
    !! symbol = Some q2).
  { rewrite takeProfitLevel2_run.
    destruct (fires (level2 q1) cp); cbv zeta;
      [destruct (t_sell2 obs); cbn [fst snd]|cbn [fst snd]];
      intros q2 E; inversion E; subst; auto.
    now apply (mutate_lookup symbol q1). }
  destruct (takeProfitLevel2 symbol q1 cp (t_sell2 obs) b2) as [[q2|] b3];
    cbn [fst snd] in *.
  2:{ rewrite alone_atomic. cbn. eexists. reflexivity. }
  specialize (H2 q2 eq_refl).
  rewrite alone_bind, alone_await, alone_outside.
  destruct (t_spike obs <? _)%num; [now apply Hexit|].
  rewrite alone_ret. eexists. reflexivity.
Qed.

Lemma tick_alone_is_updatePosition_witness :
  exists d',
    alone firstTick worldOpen
    = (Returned tt,
       {| bot := exec (updatePosition MINT samplePosition (tickAt 5000))
                      botOpen;
          detached := d' |}).
Proof.
  apply (tick_alone_is_updatePosition MINT (tickAt 5000) samplePosition
           botOpen ∅).
  reflexivity.
Defined.

End OverlapFacts.
